(** * basic-ipam: the address allocation engine

    A shallow embedding of the standalone IPAM service (package main:
    [reserveIP], [releaseReservedIP], [findAvailableIP], [isIPReserved],
    [incrementIP], [getIPsInSubnet] and the three request handlers) and of
    the resource functions of its Terraform provider, together with the
    parts of Go's package [net] and of the SQL table [ips] that these
    functions rely on.

    Conventions.
    - A Go [byte] is a [Z] in [0, 256); wrap-around is written out.
    - A Go [[]byte] ([net.IP], [net.IPMask]) is a [list Z]; the nil slice
      is the empty list.
    - A Go [string] is a Stdlib [string].
    - The table [ips] is the list of its rows in rowid order.  No SELECT
      of the service has an ORDER BY: the order in which a query yields
      its rows is the store's choice and is a parameter of the model.
    - A statement or query of the store can fail for a reason of the
      backend.  Each call takes a flag saying whether it does; the scan of
      [findAvailableIP], which queries the store once per candidate, takes
      one flag per query.
    - The [for] loop of [findAvailableIP] need not terminate, so it is
      modelled with fuel: [None] means the fuel ran out. *)

From Stdlib Require Import ZArith String Ascii List Bool Lia Permutation.
Import ListNotations.
Local Open Scope Z_scope.

(* ================================================================== *)
(** * Part I: definitions *)
(* ================================================================== *)

(** ** Bytes and strings *)

Definition wrap8 (z : Z) : Z := z mod 256.

Definition is_byte (b : Z) : Prop := 0 <= b < 256.

Definition bytes_ok (l : list Z) : Prop := Forall is_byte l.

Definition len (s : string) : nat := String.length s.

(** [s[c:]] *)
Fixpoint drop (c : nat) (s : string) : string :=
  match c, s with
  | O, _ => s
  | S c', String _ s' => drop c' s'
  | S _, EmptyString => EmptyString
  end.

(** [s[i]], with the NUL character standing for an index out of range
    (every use below is guarded by a length test). *)
Definition char_at (i : nat) (s : string) : ascii :=
  match String.get i s with
  | Some c => c
  | None => Ascii.zero
  end.

Definition code (c : ascii) : Z := Z.of_N (N_of_ascii c).

Definition chr (z : Z) : ascii := ascii_of_N (Z.to_N z).

Definition in_range (lo hi c : ascii) : bool :=
  (code lo <=? code c) && (code c <=? code hi).

(** [strings.Contains(s, "/")] and [bytealg.IndexByteString(s, c)] *)
Fixpoint IndexByteString (s : string) (c : ascii) : option nat :=
  match s with
  | EmptyString => None
  | String x s' =>
      if Ascii.eqb x c then Some O
      else match IndexByteString s' c with
           | Some i => Some (S i)
           | None => None
           end
  end.

Definition strings_Contains_slash (s : string) : bool :=
  match IndexByteString s "/"%char with
  | Some _ => true
  | None => false
  end.

(** [s[:i]] *)
Fixpoint take (i : nat) (s : string) : string :=
  match i, s with
  | O, _ => EmptyString
  | S i', String c s' => String c (take i' s')
  | S _, EmptyString => EmptyString
  end.

(** ** Package net

    The functions of Go's standard library that the engine calls, after
    net/ip.go and net/parse.go. *)

Module net.

Definition IP := list Z.
Definition IPMask := list Z.

Record IPNet := mkIPNet { IPNet_IP : IP; IPNet_Mask : IPMask }.

Definition IPv4len : nat := 4.
Definition IPv6len : nat := 16.

Definition v4InV6Prefix : list Z := [0; 0; 0; 0; 0; 0; 0; 0; 0; 0; 255; 255].

Definition IPv4 (a b c d : Z) : IP := v4InV6Prefix ++ [a; b; c; d].

Definition isZeros (p : list Z) : bool := forallb (Z.eqb 0) p.

Fixpoint bytes_eqb (a b : list Z) : bool :=
  match a, b with
  | [], [] => true
  | x :: a', y :: b' => (x =? y) && bytes_eqb a' b'
  | _, _ => false
  end.

(** [func (ip IP) To4() IP] *)
Definition To4 (ip : IP) : IP :=
  if Nat.eqb (length ip) IPv4len then ip
  else if Nat.eqb (length ip) IPv6len
          && isZeros (firstn 10 ip)
          && (nth 10 ip 0 =? 255) && (nth 11 ip 0 =? 255)
       then skipn 12 ip
       else [].

Definition is_nil (ip : list Z) : bool :=
  match ip with [] => true | _ => false end.

(** [func CIDRMask(ones, bits int) IPMask]: the loop over the [l] bytes. *)
Fixpoint CIDRMask_loop (l : nat) (n : Z) : IPMask :=
  match l with
  | O => []
  | S l' =>
      if 8 <=? n then 255 :: CIDRMask_loop l' (n - 8)
      else (255 - Z.shiftr 255 n) :: CIDRMask_loop l' 0
  end.

Definition CIDRMask (ones bits : Z) : IPMask :=
  if negb (bits =? 32) && negb (bits =? 128) then []
  else if (ones <? 0) || (bits <? ones) then []
  else CIDRMask_loop (Z.to_nat (bits / 8)) ones.

Fixpoint and_bytes (a m : list Z) : list Z :=
  match a, m with
  | x :: a', y :: m' => Z.land x y :: and_bytes a' m'
  | _, _ => []
  end.

Definition allFF (b : list Z) : bool := forallb (Z.eqb 255) b.

(** [func (ip IP) Mask(mask IPMask) IP] *)
Definition Mask (ip : IP) (mask : IPMask) : IP :=
  let mask :=
    if Nat.eqb (length mask) IPv6len && Nat.eqb (length ip) IPv4len
       && allFF (firstn 12 mask)
    then skipn 12 mask else mask in
  let ip :=
    if Nat.eqb (length mask) IPv4len && Nat.eqb (length ip) IPv6len
       && bytes_eqb (firstn 12 ip) v4InV6Prefix
    then skipn 12 ip else ip in
  if negb (Nat.eqb (length ip) (length mask)) then []
  else and_bytes ip mask.

(** [func networkNumberAndMask(n *IPNet) (ip IP, m IPMask)] *)
Definition networkNumberAndMask (n : IPNet) : IP * IPMask :=
  let ip4 := To4 (IPNet_IP n) in
  let ip := if is_nil ip4 then IPNet_IP n else ip4 in
  if is_nil ip4 && negb (Nat.eqb (length ip) IPv6len) then ([], [])
  else
    let m := IPNet_Mask n in
    if Nat.eqb (length m) IPv4len then
      if negb (Nat.eqb (length ip) IPv4len) then ([], []) else (ip, m)
    else if Nat.eqb (length m) IPv6len then
      if Nat.eqb (length ip) IPv4len then (ip, skipn 12 m) else (ip, m)
    else ([], []).

(** The comparison loop of [Contains]: [nn[i]&m[i] == ip[i]&m[i]] for
    every [i < len(ip)]; indexing [m] out of range panics in Go, which
    cannot happen for the masks [networkNumberAndMask] returns. *)
Fixpoint same_masked (nn m ip : list Z) : bool :=
  match nn, ip with
  | x :: nn', y :: ip' =>
      match m with
      | k :: m' => (Z.land x k =? Z.land y k) && same_masked nn' m' ip'
      | [] => false
      end
  | _, _ => true
  end.

(** [func (n *IPNet) Contains(ip IP) bool] *)
Definition Contains (n : IPNet) (ip : IP) : bool :=
  let '(nn, m) := networkNumberAndMask n in
  let x := To4 ip in
  let ip := if is_nil x then ip else x in
  if negb (Nat.eqb (length ip) (length nn)) then false
  else same_masked nn m ip.

(** *** Number conversions *)

Definition big : Z := 16777215.

Definition is_digit (c : ascii) : bool := in_range "0" "9" c.

Definition dtoi_finish (n : Z) (i : nat) : Z * nat * bool :=
  match i with
  | O => (0, O, false)
  | _ => (n, i, true)
  end.

Fixpoint dtoi_loop (s : string) (n : Z) (i : nat) : Z * nat * bool :=
  match s with
  | String ch s' =>
      if is_digit ch then
        let n' := n * 10 + (code ch - code "0") in
        if big <=? n' then (big, i, false) else dtoi_loop s' n' (S i)
      else dtoi_finish n i
  | EmptyString => dtoi_finish n i
  end.

(** [func dtoi(s string) (n int, i int, ok bool)] *)
Definition dtoi (s : string) : Z * nat * bool := dtoi_loop s 0 O.

Definition hex_val (c : ascii) : option Z :=
  if in_range "0" "9" c then Some (code c - code "0")
  else if in_range "a" "f" c then Some (code c - code "a" + 10)
  else if in_range "A" "F" c then Some (code c - code "A" + 10)
  else None.

Fixpoint xtoi_loop (s : string) (n : Z) (i : nat) : Z * nat * bool :=
  match s with
  | String ch s' =>
      match hex_val ch with
      | Some d =>
          let n' := n * 16 + d in
          if big <=? n' then (0, i, false) else xtoi_loop s' n' (S i)
      | None => dtoi_finish n i
      end
  | EmptyString => dtoi_finish n i
  end.

(** [func xtoi(s string) (n int, i int, ok bool)] *)
Definition xtoi (s : string) : Z * nat * bool := xtoi_loop s 0 O.

Fixpoint uitoa_loop (fuel : nat) (val : Z) (acc : string) : string :=
  match fuel with
  | O => acc
  | S fuel' =>
      if 10 <=? val
      then uitoa_loop fuel' (val / 10) (String (chr (code "0" + val mod 10)) acc)
      else String (chr (code "0" + val)) acc
  end.

(** [func uitoa(val uint) string]; the buffer holds 20 digits. *)
Definition uitoa (val : Z) : string :=
  if val =? 0 then "0"%string else uitoa_loop 20 val EmptyString.

Definition hexDigit : string := "0123456789abcdef".

Fixpoint appendHex_loop (j : nat) (i : Z) : string :=
  match j with
  | O => EmptyString
  | S j' =>
      let v := Z.shiftr i (Z.of_nat j' * 4) in
      let d := if 0 <? v
               then String (char_at (Z.to_nat (Z.land v 15)) hexDigit) EmptyString
               else EmptyString in
      (d ++ appendHex_loop j' i)%string
  end.

(** [func appendHex(dst []byte, i uint32) []byte], as the appended text *)
Definition appendHex (i : Z) : string :=
  if i =? 0 then "0"%string else appendHex_loop 8 i.

(** *** Text form of addresses and networks *)

(** [ubtoa]/dotted-decimal branch of [IP.String] *)
Definition dotted (p4 : IP) : string :=
  (uitoa (nth 0 p4 0) ++ "." ++ uitoa (nth 1 p4 0) ++ "."
   ++ uitoa (nth 2 p4 0) ++ "." ++ uitoa (nth 3 p4 0))%string.

Fixpoint hexString (b : list Z) : string :=
  match b with
  | [] => EmptyString
  | x :: b' =>
      String (char_at (Z.to_nat (Z.shiftr x 4)) hexDigit)
        (String (char_at (Z.to_nat (Z.land x 15)) hexDigit) (hexString b'))
  end.

(** the inner loop [for j < IPv6len && p[j] == 0 && p[j+1] == 0 { j += 2 }] *)
Fixpoint zero_run_end (fuel : nat) (p : IP) (j : nat) : nat :=
  match fuel with
  | O => j
  | S fuel' =>
      if Nat.ltb j IPv6len && (nth j p 0 =? 0) && (nth (j + 1) p 0 =? 0)
      then zero_run_end fuel' p (j + 2)
      else j
  end.

(** the search for the longest run of zero groups, [(e0, e1)] *)
Fixpoint longest_zero_run (fuel : nat) (p : IP) (i : nat) (e0 e1 : Z)
  : Z * Z :=
  match fuel with
  | O => (e0, e1)
  | S fuel' =>
      if Nat.ltb i IPv6len then
        let j := zero_run_end 8 p i in
        if Nat.ltb i j && (e1 - e0 <? Z.of_nat j - Z.of_nat i)
        then longest_zero_run fuel' p (j + 2) (Z.of_nat i) (Z.of_nat j)
        else longest_zero_run fuel' p (i + 2) e0 e1
      else (e0, e1)
  end.

Definition group16 (p : IP) (i : nat) : Z :=
  Z.lor (Z.shiftl (nth i p 0) 8) (nth (i + 1) p 0).

(** the printing loop, with [::] in place of the run [e0, e1) *)
Fixpoint print_groups (fuel : nat) (p : IP) (i : nat) (e0 e1 : Z) : string :=
  match fuel with
  | O => EmptyString
  | S fuel' =>
      if Nat.ltb i IPv6len then
        if Z.of_nat i =? e0 then
          let i' := Z.to_nat e1 in
          if Nat.leb IPv6len i' then "::"%string
          else ("::" ++ appendHex (group16 p i')
                ++ print_groups fuel' p (i' + 2) e0 e1)%string
        else ((if Nat.ltb 0 i then ":" else "") ++ appendHex (group16 p i)
              ++ print_groups fuel' p (i + 2) e0 e1)%string
      else EmptyString
  end.

(** [func (ip IP) String() string] *)
Definition IP_String (ip : IP) : string :=
  if Nat.eqb (length ip) 0 then "<nil>"%string
  else if Nat.eqb (length (To4 ip)) IPv4len then dotted (To4 ip)
  else if negb (Nat.eqb (length ip) IPv6len) then ("?" ++ hexString ip)%string
  else
    let '(e0, e1) := longest_zero_run 8 ip 0 (-1) (-1) in
    let '(e0, e1) := if e1 - e0 <=? 2 then (-1, -1) else (e0, e1) in
    print_groups 8 ip 0 e0 e1.

(** the bit count of one mask byte in [simpleMaskLength]:
    [for v&0x80 != 0 { n++; v <<= 1 }], returning the count and what is
    left of [v] *)
Fixpoint leading_ones (fuel : nat) (v : Z) (n : Z) : Z * Z :=
  match fuel with
  | O => (n, v)
  | S fuel' =>
      if negb (Z.land v 128 =? 0)
      then leading_ones fuel' (wrap8 (Z.shiftl v 1)) (n + 1)
      else (n, v)
  end.

(** [func simpleMaskLength(mask IPMask) int] *)
Fixpoint simpleMaskLength_from (mask : IPMask) (n : Z) : Z :=
  match mask with
  | [] => n
  | v :: rest =>
      if v =? 255 then simpleMaskLength_from rest (n + 8)
      else
        let '(n', v') := leading_ones 8 v n in
        if negb (v' =? 0) then -1
        else if isZeros rest then n' else -1
  end.

Definition simpleMaskLength (mask : IPMask) : Z :=
  simpleMaskLength_from mask 0.

(** [func (n *IPNet) String() string] *)
Definition IPNet_String (n : IPNet) : string :=
  let '(nn, m) := networkNumberAndMask n in
  if is_nil nn || is_nil m then "<nil>"%string
  else
    let l := simpleMaskLength m in
    if l =? -1 then (IP_String nn ++ "/" ++ hexString m)%string
    else (IP_String nn ++ "/" ++ uitoa l)%string.

(** *** Parsing *)

(** the loop of [parseIPv4], [k] octets still to read, [i] read so far *)
Fixpoint parseIPv4_loop (k i : nat) (s : string) (p : list Z)
  : option (list Z * string) :=
  match k with
  | O => Some (p, s)
  | S k' =>
      if Nat.eqb (len s) 0 then None
      else
        let dot_ok :=
          if Nat.ltb 0 i
          then if Ascii.eqb (char_at 0 s) "." then Some (drop 1 s) else None
          else Some s in
        match dot_ok with
        | None => None
        | Some s1 =>
            let '(n, c, ok) := dtoi s1 in
            if negb ok || (255 <? n) then None
            else if Nat.ltb 1 c && Ascii.eqb (char_at 0 s1) "0" then None
            else parseIPv4_loop k' (S i) (drop c s1) (p ++ [wrap8 n])
        end
  end.

(** [func parseIPv4(s string) IP] *)
Definition parseIPv4 (s : string) : option IP :=
  match parseIPv4_loop 4 0 s [] with
  | Some (p, rest) =>
      if negb (Nat.eqb (len rest) 0) then None
      else Some (IPv4 (nth 0 p 0) (nth 1 p 0) (nth 2 p 0) (nth 3 p 0))
  | None => None
  end.

(** the loop of [parseIPv6]: [ip] holds the [i = length ip] bytes read so
    far, [ellipsis] the position of [::] if one was seen.  [None] is the
    [return nil] of the source; [Some] is the state at the loop's exit. *)
Fixpoint parseIPv6_loop (fuel : nat) (s : string) (ip : list Z)
  (ellipsis : option nat) : option (list Z * option nat * string) :=
  match fuel with
  | O => None
  | S fuel' =>
      let i := length ip in
      if negb (Nat.ltb i IPv6len) then Some (ip, ellipsis, s)
      else
        let '(n, c, ok) := xtoi s in
        if negb ok || (65535 <? n) then None
        else if Nat.ltb c (len s) && Ascii.eqb (char_at c s) "." then
          if (match ellipsis with None => true | Some _ => false end)
             && negb (Nat.eqb i (IPv6len - IPv4len))
          then None
          else if Nat.ltb IPv6len (i + IPv4len) then None
          else match parseIPv4 s with
               | None => None
               | Some ip4 => Some (ip ++ skipn 12 ip4, ellipsis, EmptyString)
               end
        else
          let ip' := ip ++ [wrap8 (Z.shiftr n 8); wrap8 n] in
          let s1 := drop c s in
          if Nat.eqb (len s1) 0 then Some (ip', ellipsis, s1)
          else if negb (Ascii.eqb (char_at 0 s1) ":") || Nat.eqb (len s1) 1
          then None
          else
            let s2 := drop 1 s1 in
            if Ascii.eqb (char_at 0 s2) ":" then
              match ellipsis with
              | Some _ => None
              | None =>
                  let s3 := drop 1 s2 in
                  if Nat.eqb (len s3) 0 then Some (ip', Some (length ip'), s3)
                  else parseIPv6_loop fuel' s3 ip' (Some (length ip'))
              end
            else parseIPv6_loop fuel' s2 ip' ellipsis
  end.

(** the expansion of the ellipsis at the end of [parseIPv6] *)
Definition expand_ellipsis (ip : list Z) (ellipsis : option nat)
  : option IP :=
  if Nat.ltb (length ip) IPv6len then
    match ellipsis with
    | None => None
    | Some e =>
        Some (firstn e ip ++ repeat 0 (IPv6len - length ip) ++ skipn e ip)
    end
  else
    match ellipsis with
    | Some _ => None
    | None => Some ip
    end.

(** [func parseIPv6(s string) (ip IP)] *)
Definition parseIPv6 (s : string) : option IP :=
  let leading :=
    Nat.leb 2 (len s) && Ascii.eqb (char_at 0 s) ":"
    && Ascii.eqb (char_at 1 s) ":" in
  let s0 := if leading then drop 2 s else s in
  let ellipsis := if leading then Some O else None in
  if leading && Nat.eqb (len s0) 0 then Some (repeat 0 IPv6len)
  else
    match parseIPv6_loop 9 s0 [] ellipsis with
    | None => None
    | Some (ip, ellipsis, rest) =>
        if negb (Nat.eqb (len rest) 0) then None
        else expand_ellipsis ip ellipsis
    end.

(** [func ParseCIDR(s string) (IP, *IPNet, error)]; [None] is the
    [ParseError]. *)
Definition ParseCIDR (s : string) : option (IP * IPNet) :=
  match IndexByteString s "/" with
  | None => None
  | Some i =>
      let addr := take i s in
      let mask := drop (S i) s in
      let '(iplen, ip) :=
        match parseIPv4 addr with
        | Some ip => (IPv4len, Some ip)
        | None => (IPv6len, parseIPv6 addr)
        end in
      let '(n, c, ok) := dtoi mask in
      match ip with
      | None => None
      | Some ip =>
          if negb ok || negb (Nat.eqb c (len mask)) || (n <? 0)
             || (8 * Z.of_nat iplen <? n)
          then None
          else
            let m := CIDRMask n (8 * Z.of_nat iplen) in
            Some (ip, mkIPNet (Mask ip m) m)
      end
  end.

End net.

Import net.

(** ** The table [ips]

    [CREATE TABLE ips (id INTEGER PRIMARY KEY AUTOINCREMENT, cidr TEXT,
    tenant_name TEXT, ip_address TEXT, purpose TEXT,
    UNIQUE (cidr, tenant_name, ip_address))].  The rows are kept in rowid
    order, which is the order of insertion; [db_seq] is the largest id
    handed out so far.  The order of the list is the table's, not that of
    the answer to a query. *)

Record Row := mkRow {
  row_id : Z;
  row_cidr : string;
  row_tenant_name : string;
  row_ip_address : string;
  row_purpose : string
}.

Record DB := mkDB { ips : list Row; db_seq : Z }.

Definition empty_db : DB := mkDB [] 0.

(** The errors the engine returns: its own two messages, and what
    [db.Exec] and [net.ParseCIDR] report. *)
Inductive error :=
| ErrNoAvailableIP      (* "No available IP in the given CIDR" *)
| ErrAlreadyReserved    (* "IP already reserved for the given CIDR and tenant" *)
| ErrUniqueConstraint   (* UNIQUE constraint failed: ips.cidr, ... *)
| ErrStore              (* any other failure of the backend *)
| ErrParseCIDR.         (* net.ParseError *)

Definition same_key (cidr tenantName ip : string) (r : Row) : bool :=
  String.eqb (row_cidr r) cidr
  && String.eqb (row_tenant_name r) tenantName
  && String.eqb (row_ip_address r) ip.

(** [db.Exec("INSERT INTO ips (cidr, tenant_name, ip_address, purpose)
    VALUES (?, ?, ?, ?)", ...)].  [fault] says whether the backend fails
    for a reason of its own; a statement that fails changes nothing. *)
Definition exec_insert (fault : bool) (cidr tenantName ip purpose : string)
  (db : DB) : DB * option error :=
  if fault then (db, Some ErrStore)
  else if existsb (same_key cidr tenantName ip) (ips db)
  then (db, Some ErrUniqueConstraint)
  else (mkDB (ips db ++ [mkRow (db_seq db + 1) cidr tenantName ip purpose])
             (db_seq db + 1), None).

(** [db.Exec("DELETE FROM ips WHERE cidr = ? AND tenant_name = ? AND
    ip_address = ?", ...)] with the [RowsAffected] of its result, which
    the SQLite driver hands over together with a nil error. *)
Definition exec_delete (fault : bool) (cidr tenantName ip : string)
  (db : DB) : DB * Z * option error :=
  if fault then (db, 0, Some ErrStore)
  else
    let kept := filter (fun r => negb (same_key cidr tenantName ip r)) (ips db) in
    (mkDB kept (db_seq db),
     Z.of_nat (length (ips db)) - Z.of_nat (length kept), None).

(** [SELECT ip_address FROM ips WHERE cidr = ? AND ip_address = ?], with
    [AND tenant_name = ?] when [with_tenant].  Without that clause the
    statement has two placeholders and is still handed three arguments;
    the surplus one is taken to be ignored, as the SQLite driver does.
    The rows are listed in table order; every row the statement matches
    holds the same address, so the one [QueryRow] takes first does not
    depend on the order the store yields them in
    ([isIPReserved_any_order]). *)
Definition select_reserved (with_tenant : bool) (cidr ip tenantName : string)
  (db : DB) : list string :=
  map row_ip_address
    (filter (fun r =>
               String.eqb (row_cidr r) cidr
               && String.eqb (row_ip_address r) ip
               && (if with_tenant
                   then String.eqb (row_tenant_name r) tenantName
                   else true))
            (ips db)).

(** [SELECT ip_address FROM ips WHERE cidr = ?].  The statement has no
    ORDER BY, so the order of its rows is the store's choice: [order]
    arranges the matching rows. *)
Definition select_by_cidr (order : list Row -> list Row) (cidr : string)
  (db : DB) : list string :=
  map row_ip_address
    (order (filter (fun r => String.eqb (row_cidr r) cidr) (ips db))).

(** How a query for several rows can go wrong: [db.Query] or a
    [rows.Scan] returns an error, or [rows.Next] reports the end of the
    rows after [k] of them because of an error that only [rows.Err]
    would tell. *)
Inductive query_fault :=
| QueryOK
| QueryFails
| RowsEndEarly (k : nat).

(** ** The engine *)

(** [func isIPReserved(ip, cidr, tenantName string) bool].  [QueryRow]
    yields the first matching row; [Scan] leaves [storedIP] empty when
    there is none, and also when the query fails ([qfault]): an error
    other than [sql.ErrNoRows] is logged and the comparison is made all
    the same. *)
Definition isIPReserved (qfault : bool) (ip cidr tenantName : string)
  (db : DB) : bool :=
  let with_tenant := negb (String.eqb tenantName "") in
  let storedIP :=
    if qfault then EmptyString
    else
      match select_reserved with_tenant cidr ip tenantName db with
      | s :: _ => s
      | [] => EmptyString
      end in
  String.eqb storedIP ip.

(** [ip[j] = b] *)
Fixpoint set_nth (j : nat) (b : Z) (ip : IP) : IP :=
  match ip, j with
  | [], _ => []
  | _ :: t, O => b :: t
  | x :: t, S j' => x :: set_nth j' b t
  end.

(** the loop of [incrementIP], about to handle index [j - 1] *)
Fixpoint incrementIP_from (j : nat) (ip : IP) : IP :=
  match j with
  | O => ip
  | S j' =>
      let b := wrap8 (nth j' ip 0 + 1) in
      let ip' := set_nth j' b ip in
      if 0 <? b then ip' else incrementIP_from j' ip'
  end.

(** [func incrementIP(ip net.IP) net.IP] *)
Definition incrementIP (ip : IP) : IP := incrementIP_from (length ip) ip.

(** The [for] loop of [findAvailableIP] over an is-taken predicate:
    [for ip := ...; ipNet.Contains(ip); incrementIP(ip)].  The predicate
    is asked once per candidate; [taken i s] is its answer when the
    question number [i] of the run is about [s].  A store whose queries
    can fail is such a predicate: its answer depends on the address and on
    whether that query goes through. *)
Fixpoint scan (fuel : nat) (taken : nat -> string -> bool) (ipNet : IPNet)
  (ip : IP) (i : nat) : option (string * bool) :=
  match fuel with
  | O => None
  | S fuel' =>
      if Contains ipNet ip then
        let ipString := IP_String ip in
        if negb (taken i ipString) then Some (ipString, true)
        else scan fuel' taken ipNet (incrementIP ip) (S i)
      else Some (EmptyString, false)
  end.

(** The same loop, recording the addresses handed to the predicate. *)
Fixpoint scan_log (fuel : nat) (taken : nat -> string -> bool)
  (ipNet : IPNet) (ip : IP) (i : nat) (queried : list IP)
  : option (string * bool * list IP) :=
  match fuel with
  | O => None
  | S fuel' =>
      if Contains ipNet ip then
        let ipString := IP_String ip in
        if negb (taken i ipString) then Some (ipString, true, queried ++ [ip])
        else scan_log fuel' taken ipNet (incrementIP ip) (S i)
               (queried ++ [ip])
      else Some (EmptyString, false, queried)
  end.

(** [findAvailableIP] with its predicate abstracted *)
Definition scan_block (fuel : nat) (taken : nat -> string -> bool)
  (cidr : string) : option (string * bool) :=
  match ParseCIDR cidr with
  | None => Some (EmptyString, false)
  | Some (ip, ipNet) =>
      scan fuel taken ipNet (incrementIP (Mask ip (IPNet_Mask ipNet))) O
  end.

(** the same, recording the addresses handed to the predicate *)
Definition scan_block_log (fuel : nat) (taken : nat -> string -> bool)
  (cidr : string) : option (string * bool * list IP) :=
  match ParseCIDR cidr with
  | None => Some (EmptyString, false, [])
  | Some (ip, ipNet) =>
      scan_log fuel taken ipNet (incrementIP (Mask ip (IPNet_Mask ipNet))) O []
  end.

(** The Address Scanner: [findAvailableIP] over an is-taken predicate on
    addresses, one that answers the same whenever it is asked. *)
Definition Scanner (fuel : nat) (taken : string -> bool) (cidr : string)
  : option (string * bool) :=
  scan_block fuel (fun _ => taken) cidr.

(** no query fails *)
Definition no_fault : nat -> bool := fun _ => false.

(** [func findAvailableIP(cidr, tenantName string) (string, bool)].
    [qfault i] says whether the query number [i] of the loop fails. *)
Definition findAvailableIP (fuel : nat) (qfault : nat -> bool)
  (cidr tenantName : string) (db : DB) : option (string * bool) :=
  scan_block fuel
    (fun i ipString => isIPReserved (qfault i) ipString cidr tenantName db)
    cidr.

(** [func reserveIP(cidr, tenantName, purpose string) (string, bool, error)],
    returning the store it leaves as well.  [qfault] is for the queries of
    the scan, [rfault] for the query of the re-check and [fault] for the
    INSERT. *)
Definition reserveIP (fuel : nat) (qfault : nat -> bool) (rfault fault : bool)
  (cidr tenantName purpose : string) (db : DB)
  : option (string * bool * option error * DB) :=
  match findAvailableIP fuel qfault cidr tenantName db with
  | None => None
  | Some (ip, available) =>
      if negb available
      then Some (EmptyString, false, Some ErrNoAvailableIP, db)
      else if isIPReserved rfault ip cidr tenantName db
      then Some (EmptyString, false, Some ErrAlreadyReserved, db)
      else
        match exec_insert fault cidr tenantName ip purpose db with
        | (db', Some err) => Some (EmptyString, false, Some err, db')
        | (db', None) => Some (ip, true, None, db')
        end
  end.

(** [func releaseReservedIP(cidr, tenantName, ipAddress string) (bool, error)] *)
Definition releaseReservedIP (fault : bool) (cidr tenantName ipAddress : string)
  (db : DB) : bool * option error * DB :=
  match exec_delete fault cidr tenantName ipAddress db with
  | (db', _, Some err) => (false, Some err, db')
  | (db', rowsAffected, None) => (0 <? rowsAffected, None, db')
  end.

(** the [rows.Next()] loop of [getIPsInSubnet] *)
Definition collect_rows (rows : list string) : list string :=
  fold_left (fun ips ipAddress => ips ++ [ipAddress]) rows [].

(** [func getIPsInSubnet(subnet string) ([]string, error)].  The loop
    ends when [rows.Next] reports the end; the code does not ask
    [rows.Err] why. *)
Definition getIPsInSubnet (qfault : query_fault)
  (order : list Row -> list Row) (subnet : string) (db : DB)
  : list string * option error :=
  match ParseCIDR subnet with
  | None => ([], Some ErrParseCIDR)
  | Some (_, ipNet) =>
      let rows := select_by_cidr order (IPNet_String ipNet) db in
      match qfault with
      | QueryOK => (collect_rows rows, None)
      | QueryFails => ([], Some ErrStore)
      | RowsEndEarly k => (collect_rows (firstn k rows), None)
      end
  end.

(** The subnet normalisation of [GetIPsInSubnetHandler]:
    [if !strings.Contains(subnet, "/") { subnet += "/32" }]. *)
Definition normalize_subnet (subnetQueryParam : string) : string :=
  if negb (strings_Contains_slash subnetQueryParam)
  then (subnetQueryParam ++ "/32")%string
  else subnetQueryParam.

Inductive response :=
| MethodNotAllowed
| BadRequest
| InternalServerError (err : error)
| StatusOK (ips : list string).

(** [func GetIPsInSubnetHandler(w, r)], on the request's method and its
    [subnet] query parameter. *)
Definition GetIPsInSubnetHandler (qfault : query_fault)
  (order : list Row -> list Row) (method subnetQueryParam : string) (db : DB)
  : response :=
  if negb (String.eqb method "GET") then MethodNotAllowed
  else if String.eqb subnetQueryParam "" then BadRequest
  else
    match getIPsInSubnet qfault order (normalize_subnet subnetQueryParam)
            db with
    | (_, Some err) => InternalServerError err
    | (ips, None) => StatusOK ips
    end.

(** ** Notions the statements use *)

(** the number an address stands for, most significant byte first *)
Definition ip_val (ip : IP) : Z := fold_left (fun a b => a * 256 + b) ip 0.

(** the prefix length of a network, [ones, _ := n.Mask.Size()] *)
Definition prefix_len (n : IPNet) : Z := simpleMaskLength (IPNet_Mask n).

(** [k] increments in a row *)
Fixpoint increments (k : nat) (ip : IP) : IP :=
  match k with
  | O => ip
  | S k' => increments k' (incrementIP ip)
  end.

(** the store yields the rows of a query in some order of its own *)
Definition arranges (order : list Row -> list Row) : Prop :=
  forall rows, Permutation (order rows) rows.

(** the uniqueness constraint of the table *)
Definition key_of (r : Row) : string * string * string :=
  (row_cidr r, row_tenant_name r, row_ip_address r).

Definition unique_keys (db : DB) : Prop := NoDup (map key_of (ips db)).

(** the normalisation as the interface describes it: the single-host
    prefix length of the address family, /32 for IPv4 and /128 for IPv6 *)
Definition single_host_suffix (addr : string) : string :=
  match parseIPv4 addr with
  | Some _ => "/32"%string
  | None => "/128"%string
  end.

Definition normalize_single_host (subnetQueryParam : string) : string :=
  if negb (strings_Contains_slash subnetQueryParam)
  then (subnetQueryParam ++ single_host_suffix subnetQueryParam)%string
  else subnetQueryParam.

(** what [ParseCIDR] hands over: the address [ip] as written and a
    network of [L] bytes, 4 or 16, with a prefix of [p] bits whose number
    is the masked address *)
Definition block_shape (ip : IP) (n : IPNet) (L : nat) (p : Z) : Prop :=
  (L = 4%nat \/ L = 16%nat) /\ 0 <= p <= 8 * Z.of_nat L /\
  IPNet_Mask n = CIDRMask_loop L p /\
  Mask ip (IPNet_Mask n) = IPNet_IP n /\
  exists a, length a = L /\ bytes_ok a /\
            IPNet_IP n = and_bytes a (CIDRMask_loop L p).

(** the test of [To4] on a 16-byte address: is it IPv4-mapped, ::ffff:a.b.c.d *)
Definition is_v4mapped (ip : IP) : bool :=
  isZeros (firstn 10 ip) && (nth 10 ip 0 =? 255) && (nth 11 ip 0 =? 255).

(** An IPv6 network whose range of numbers holds the IPv4-mapped addresses
    while its own number is not one of them.  [Contains] turns every
    IPv4-mapped address into its 4-byte form and then rejects it for its
    length, so such a network does not contain the whole of its range. *)
Definition covers_mapped (n : IPNet) : bool :=
  Nat.eqb (length (IPNet_IP n)) IPv6len
  && is_nil (To4 (IPNet_IP n))
  && same_masked (IPNet_IP n) (IPNet_Mask n) (IPv4 0 0 0 0).

(** how many numbers the range of a [p]-bit prefix on [L] bytes holds *)
Definition block_size (L : nat) (p : Z) : Z := 2 ^ (8 * Z.of_nat L - p).

(** The scan started at [ip] with question number [i] stops at its
    [k]-th candidate with result [r]: the candidates before it were
    contained and reported as taken, and it is either contained and
    reported as free, or not contained. *)
Inductive stops_at (taken : nat -> string -> bool) (n : IPNet)
  : IP -> nat -> nat -> string * bool -> Prop :=
| stop_found ip i :
    Contains n ip = true -> taken i (IP_String ip) = false ->
    stops_at taken n ip i O (IP_String ip, true)
| stop_left ip i :
    Contains n ip = false ->
    stops_at taken n ip i O (EmptyString, false)
| stop_next ip i k r :
    Contains n ip = true -> taken i (IP_String ip) = true ->
    stops_at taken n (incrementIP ip) (S i) k r ->
    stops_at taken n ip i (S k) r.

(** the candidates the scan has handed to the predicate when it stops at
    its [k]-th candidate *)
Definition queried_upto (ip : IP) (k : nat) (found : bool) : list IP :=
  map (fun j => increments j ip) (seq 0 (if found then S k else k)).

(** [a] is an address of the block's family that lies above the network
    address, is contained in the block, and is reported as not taken *)
Definition free_in (n : IPNet) (taken : string -> bool) (a : IP) : Prop :=
  length a = length (IPNet_IP n) /\ bytes_ok a /\
  ip_val (IPNet_IP n) < ip_val a /\
  Contains n a = true /\ taken (IP_String a) = false.

(** the Scanner returns [r]: with enough fuel the loop ends with [r] *)
Definition Scanner_returns (taken : string -> bool) (cidr : string)
  (r : string * bool) : Prop :=
  exists fuel0, forall fuel, (fuel0 <= fuel)%nat ->
                             Scanner fuel taken cidr = Some r.

(** [r] is the smallest free address of the block, or exhaustion when the
    block has no free address *)
Definition smallest_free_or_exhausted (n : IPNet) (taken : string -> bool)
  (r : string * bool) : Prop :=
  (exists a, r = (IP_String a, true) /\ free_in n taken a
             /\ forall b, free_in n taken b -> ip_val a <= ip_val b)
  \/ (r = (EmptyString, false) /\ forall b, ~ free_in n taken b).

(** the 256 byte values, for facts about one byte settled by evaluation *)
Definition all_bytes : list Z := map Z.of_nat (seq 0 256).

Definition land_mask_check (p : Z) : bool :=
  forallb (fun x => Z.land x (255 - Z.shiftr 255 p)
                    =? 2 ^ (8 - p) * (x / 2 ^ (8 - p))) all_bytes.

(** every byte but 0 prints with a leading digit other than 0 *)
Definition uitoa_head_check : bool :=
  forallb (fun x => match uitoa x with
                    | String c _ => (x =? 0) || negb (Ascii.eqb c "0")
                    | EmptyString => false
                    end) all_bytes.

(** ** The request handlers

    Routing, the JSON codec and the response writer are outside the
    model: a handler takes the request's method and its body as decoded
    ([None] when [Decode] fails; a field the body leaves out is the empty
    string) and returns the response it writes, with the store it leaves.
    [json.Marshal] of these response structs does not fail. *)

Record reserve_request := mkReserveRequest {
  req_cidr : string;
  req_tenant_name : string;
  req_purpose : string
}.

Inductive reserve_response :=
| ReserveMethodNotAllowed                       (* 405 *)
| ReserveBadRequest                             (* 400 *)
| ReserveInternalServerError (err : error)      (* 500, "Error reserving IP: ..." *)
| ReserveOK (ip_address : string) (reserved : bool).   (* 200 *)

(** [func ReserveIPHandler(w, r)]; the mutex is held around [reserveIP],
    so the call runs on its own. *)
Definition ReserveIPHandler (fuel : nat) (qfault : nat -> bool)
  (rfault fault : bool) (method : string)
  (body : option reserve_request) (db : DB)
  : option (reserve_response * DB) :=
  if negb (String.eqb method "POST") then Some (ReserveMethodNotAllowed, db)
  else
    match body with
    | None => Some (ReserveBadRequest, db)
    | Some requestPayload =>
        match reserveIP fuel qfault rfault fault (req_cidr requestPayload)
                (req_tenant_name requestPayload)
                (req_purpose requestPayload) db with
        | None => None
        | Some (_, _, Some err, db') =>
            Some (ReserveInternalServerError err, db')
        | Some (ip, reserved, None, db') => Some (ReserveOK ip reserved, db')
        end
    end.

Record release_request := mkReleaseRequest {
  rel_cidr : string;
  rel_tenant_name : string;
  rel_ip_address : string
}.

Inductive release_response :=
| ReleaseMethodNotAllowed                       (* 405 *)
| ReleaseBadRequest                             (* 400 *)
| ReleaseInternalServerError (err : error)      (* 500, "Error releasing IP: ..." *)
| ReleaseOK (success : bool).                   (* 200 *)

(** [func ReleaseIPHandler(w, r)] *)
Definition ReleaseIPHandler (fault : bool) (method : string)
  (body : option release_request) (db : DB) : release_response * DB :=
  if negb (String.eqb method "POST") then (ReleaseMethodNotAllowed, db)
  else
    match body with
    | None => (ReleaseBadRequest, db)
    | Some requestPayload =>
        match releaseReservedIP fault (rel_cidr requestPayload)
                (rel_tenant_name requestPayload)
                (rel_ip_address requestPayload) db with
        | (_, Some err, db') => (ReleaseInternalServerError err, db')
        | (success, None, db') => (ReleaseOK success, db')
        end
    end.

(** the status codes of the responses *)
Definition reserve_status (r : reserve_response) : Z :=
  match r with
  | ReserveMethodNotAllowed => 405
  | ReserveBadRequest => 400
  | ReserveInternalServerError _ => 500
  | ReserveOK _ _ => 200
  end.

Definition release_status (r : release_response) : Z :=
  match r with
  | ReleaseMethodNotAllowed => 405
  | ReleaseBadRequest => 400
  | ReleaseInternalServerError _ => 500
  | ReleaseOK _ => 200
  end.

Definition list_status (r : response) : Z :=
  match r with
  | MethodNotAllowed => 405
  | BadRequest => 400
  | InternalServerError _ => 500
  | StatusOK _ => 200
  end.

(** ** The Terraform provider

    The provider talks to the server over HTTP.  The model runs it
    against the handlers above: a request that gets through reaches its
    handler with the payload the provider marshalled, and a response that
    gets through comes back as written.  What the transport does to one
    exchange is an input of each call ([transport]).  [json.Marshal] of
    the request payloads, maps from string to string, does not fail.  The
    [subnet] query parameter of the read is written into the URL without
    escaping; it is taken to arrive as written, which holds for every
    text that has none of the characters a query string treats
    specially. *)

Module provider.

(** the fields of [schema.ResourceData] the resource uses *)
Record ResourceData := mkResourceData {
  cidr : string;
  tenant_name : string;
  purpose : string;
  ip_address : string;
  Id : string
}.

(** what happens to one exchange with the server *)
Inductive transport :=
| Delivered      (* the request reaches the handler, its response the provider *)
| RequestLost    (* http.Post or http.Get fails, the handler has not run *)
| ResponseLost   (* the handler has run, http.Post or http.Get fails all the same *)
| BodyLost.      (* the status arrives, the body cannot be read or decoded *)

(** the errors of one call of the server *)
Inductive call_error :=
| TransportError             (* the error of http.Post or http.Get *)
| StatusCode (status : Z)    (* "..., status code: %d" *)
| BodyError.                 (* the error of ReadAll, Unmarshal or Decode *)

(** the diagnostics the resource functions return *)
Inductive diag :=
| ReserveFailed (e : call_error)   (* "failed to reserve IP: %s" *)
| ReleaseFailed (e : call_error)   (* "failed to release IP: %s" *)
| FetchFailed (e : call_error)     (* "failed to fetch IPs in subnet ..." *)
| NotInSubnet (ip cidr : string).  (* "IP address %s does not exist in subnet %s" *)

(** [func reserveIP(serverURL, cidr, tenantName, purpose string) (string, error)].
    A 200 response of another shape than this server's unmarshals to the
    empty address. *)
Definition reserveIP (fuel : nat) (qfault : nat -> bool) (rfault fault : bool)
  (t : transport) (cidr tenantName purpose : string) (db : DB)
  : option (string * option call_error * DB) :=
  match t with
  | RequestLost => Some (EmptyString, Some TransportError, db)
  | _ =>
      match ReserveIPHandler fuel qfault rfault fault "POST"
              (Some (mkReserveRequest cidr tenantName purpose)) db with
      | None => None
      | Some (resp, db') =>
          match t with
          | ResponseLost => Some (EmptyString, Some TransportError, db')
          | _ =>
              if negb (reserve_status resp =? 200)
              then Some (EmptyString,
                         Some (StatusCode (reserve_status resp)), db')
              else
                match t, resp with
                | BodyLost, _ => Some (EmptyString, Some BodyError, db')
                | _, ReserveOK ip _ => Some (ip, None, db')
                | _, _ => Some (EmptyString, None, db')
                end
          end
      end
  end.

(** [func releaseIP(serverURL, cidr, tenantName, ipAddress string) error];
    the body of the response is not read. *)
Definition releaseIP (fault : bool) (t : transport)
  (cidr tenantName ipAddress : string) (db : DB)
  : option call_error * DB :=
  match t with
  | RequestLost => (Some TransportError, db)
  | _ =>
      match ReleaseIPHandler fault "POST"
              (Some (mkReleaseRequest cidr tenantName ipAddress)) db with
      | (resp, db') =>
          match t with
          | ResponseLost => (Some TransportError, db')
          | _ =>
              if negb (release_status resp =? 200)
              then (Some (StatusCode (release_status resp)), db')
              else (None, db')
          end
      end
  end.

(** [func resourceIPCreate(ctx, d, m) diag.Diagnostics] *)
Definition resourceIPCreate (fuel : nat) (qfault : nat -> bool)
  (rfault fault : bool) (t : transport) (d : ResourceData) (db : DB)
  : option (ResourceData * option diag * DB) :=
  match reserveIP fuel qfault rfault fault t
          (cidr d) (tenant_name d) (purpose d) db with
  | None => None
  | Some (_, Some err, db') => Some (d, Some (ReserveFailed err), db')
  | Some (ipAddress, None, db') =>
      Some (mkResourceData (cidr d) (tenant_name d) (purpose d)
              ipAddress ipAddress, None, db')
  end.

(** the loop of [resourceIPRead] over the addresses of the response *)
Fixpoint ip_exists (ips : list string) (ipAddress : string) : bool :=
  match ips with
  | [] => false
  | ip :: rest => if String.eqb ip ipAddress then true
                  else ip_exists rest ipAddress
  end.

(** [func resourceIPRead(ctx, d, m) diag.Diagnostics].  A 200 response
    of another shape than this server's decodes to no addresses. *)
Definition resourceIPRead (qfault : query_fault)
  (order : list Row -> list Row) (t : transport) (d : ResourceData) (db : DB)
  : option diag :=
  match t with
  | RequestLost | ResponseLost => Some (FetchFailed TransportError)
  | _ =>
      let resp := GetIPsInSubnetHandler qfault order "GET" (cidr d) db in
      if negb (list_status resp =? 200)
      then Some (FetchFailed (StatusCode (list_status resp)))
      else
        match t with
        | BodyLost => Some (FetchFailed BodyError)
        | _ =>
            let ips := match resp with StatusOK ips => ips | _ => [] end in
            if negb (ip_exists ips (ip_address d))
            then Some (NotInSubnet (ip_address d) (cidr d))
            else None
        end
  end.

(** [func resourceIPDelete(ctx, d, m) diag.Diagnostics] *)
Definition resourceIPDelete (fault : bool) (t : transport)
  (d : ResourceData) (db : DB) : option diag * DB :=
  match releaseIP fault t (cidr d) (tenant_name d) (Id d) db with
  | (Some err, db') => (Some (ReleaseFailed err), db')
  | (None, db') => (None, db')
  end.

End provider.

(** ** Stores the engine can reach *)

(** one call of the engine: a reservation or a release *)
Inductive engine_step : DB -> DB -> Prop :=
| step_reserve fuel qfault rfault fault cidr tenantName purpose db s ok err
    db' :
    reserveIP fuel qfault rfault fault cidr tenantName purpose db
    = Some (s, ok, err, db') ->
    engine_step db db'
| step_release fault cidr tenantName ipAddress db b err db' :
    releaseReservedIP fault cidr tenantName ipAddress db = (b, err, db') ->
    engine_step db db'.

Inductive reachable : DB -> Prop :=
| reach_empty : reachable empty_db
| reach_step db db' : reachable db -> engine_step db db' -> reachable db'.

(** the row holds an address that its own block contains *)
Definition row_in_block (r : Row) : Prop :=
  exists ip n a,
    ParseCIDR (row_cidr r) = Some (ip, n)
    /\ Contains n a = true
    /\ row_ip_address r = IP_String a.

(* ================================================================== *)
(** * Part II: properties *)
(* ================================================================== *)

(** ** Addresses as numbers *)

Lemma fold_val_acc (ip : IP) (a : Z) :
  fold_left (fun a b => a * 256 + b) ip a
  = a * 256 ^ Z.of_nat (length ip) + ip_val ip.
Proof.
  unfold ip_val. revert a.
  induction ip as [|x ip IH]; intro a.
  - simpl. lia.
  - cbn [fold_left length]. rewrite IH, (IH (0 * 256 + x)).
    rewrite Nat2Z.inj_succ, Z.pow_succ_r by lia. ring.
Qed.

Lemma ip_val_cons (x : Z) (ip : IP) :
  ip_val (x :: ip) = x * 256 ^ Z.of_nat (length ip) + ip_val ip.
Proof.
  unfold ip_val at 1. cbn [fold_left]. rewrite fold_val_acc. ring.
Qed.

Lemma ip_val_snoc (ip : IP) (x : Z) :
  ip_val (ip ++ [x]) = ip_val ip * 256 + x.
Proof. unfold ip_val. rewrite fold_left_app. reflexivity. Qed.

Lemma ip_val_app (a b : IP) :
  ip_val (a ++ b) = ip_val a * 256 ^ Z.of_nat (length b) + ip_val b.
Proof.
  unfold ip_val at 1. rewrite fold_left_app. apply fold_val_acc.
Qed.

Lemma ip_val_range (ip : IP) :
  bytes_ok ip -> 0 <= ip_val ip < 256 ^ Z.of_nat (length ip).
Proof.
  induction 1 as [|x ip Hx _ IH].
  - cbn. lia.
  - rewrite ip_val_cons. cbn [length].
    rewrite Nat2Z.inj_succ, Z.pow_succ_r by lia.
    unfold is_byte in Hx. nia.
Qed.

Lemma bytes_ok_app (a b : list Z) :
  bytes_ok (a ++ b) <-> bytes_ok a /\ bytes_ok b.
Proof. apply Forall_app. Qed.

(** two addresses of one length that stand for one number are equal *)
Lemma ip_val_inj (a b : IP) :
  length a = length b -> bytes_ok a -> bytes_ok b ->
  ip_val a = ip_val b -> a = b.
Proof.
  revert b. induction a as [|x a IH]; intros [|y b] Hl Ha Hb Hv;
    try discriminate; [reflexivity|].
  inversion Ha as [|? ? Hx Ha']; inversion Hb as [|? ? Hy Hb']; subst.
  injection Hl as Hl.
  rewrite !ip_val_cons, Hl in Hv.
  pose proof (ip_val_range a Ha') as Ra.
  pose proof (ip_val_range b Hb') as Rb.
  rewrite Hl in Ra.
  assert (x = y) by nia. subst y.
  f_equal. apply IH; auto. lia.
Qed.

(** ** [incrementIP] *)

Lemma nth_middle_len (pre suf : list Z) (x d : Z) :
  nth (length pre) (pre ++ x :: suf) d = x.
Proof. induction pre; simpl; auto. Qed.

Lemma set_nth_middle (pre suf : list Z) (x b : Z) :
  set_nth (length pre) b (pre ++ x :: suf) = pre ++ b :: suf.
Proof. induction pre; simpl; congruence. Qed.

Lemma set_nth_length (j : nat) (b : Z) (ip : IP) :
  length (set_nth j b ip) = length ip.
Proof.
  revert j. induction ip as [|x ip IH]; intros [|j]; simpl; auto.
Qed.

Lemma incrementIP_from_length (j : nat) (ip : IP) :
  length (incrementIP_from j ip) = length ip.
Proof.
  revert ip. induction j as [|j IH]; intro ip; cbn [incrementIP_from]; auto.
  destruct (0 <? _); [|rewrite IH]; apply set_nth_length.
Qed.

Lemma incrementIP_length (ip : IP) : length (incrementIP ip) = length ip.
Proof. apply incrementIP_from_length. Qed.

Lemma incrementIP_from_step (pre suf : list Z) (x : Z) :
  incrementIP_from (S (length pre)) (pre ++ x :: suf)
  = if 0 <? wrap8 (x + 1) then pre ++ wrap8 (x + 1) :: suf
    else incrementIP_from (length pre) (pre ++ wrap8 (x + 1) :: suf).
Proof.
  cbn [incrementIP_from]. rewrite nth_middle_len, set_nth_middle. reflexivity.
Qed.

(** the bytes behind the position the loop works on are left alone *)
Lemma incrementIP_from_app (pre suf : list Z) :
  incrementIP_from (length pre) (pre ++ suf) = incrementIP pre ++ suf.
Proof.
  revert suf. induction pre as [|x pre IH] using rev_ind; intro suf.
  - reflexivity.
  - unfold incrementIP.
    rewrite length_app, Nat.add_1_r, <- app_assoc. cbn [app].
    rewrite incrementIP_from_step.
    rewrite <- (app_nil_r (pre ++ [x])) at 1.
    rewrite <- app_assoc. cbn [app]. rewrite incrementIP_from_step.
    destruct (0 <? wrap8 (x + 1)).
    + rewrite <- app_assoc. reflexivity.
    + rewrite !IH, <- app_assoc. reflexivity.
Qed.

(** the last byte is bumped; a carry moves to the bytes before it *)
Lemma incrementIP_snoc (pre : list Z) (x : Z) :
  incrementIP (pre ++ [x])
  = if 0 <? wrap8 (x + 1) then pre ++ [wrap8 (x + 1)]
    else incrementIP pre ++ [wrap8 (x + 1)].
Proof.
  unfold incrementIP at 1.
  rewrite length_app, Nat.add_1_r, incrementIP_from_step.
  destruct (0 <? wrap8 (x + 1)); [reflexivity|apply incrementIP_from_app].
Qed.

Lemma incrementIP_nil : incrementIP [] = [].
Proof. reflexivity. Qed.

Lemma wrap8_byte (z : Z) : is_byte (wrap8 z).
Proof. unfold is_byte, wrap8. apply Z.mod_pos_bound. lia. Qed.

Lemma incrementIP_bytes_ok (ip : IP) : bytes_ok ip -> bytes_ok (incrementIP ip).
Proof.
  induction ip as [|x pre IH] using rev_ind; intro H.
  - constructor.
  - apply bytes_ok_app in H as [Hp _]. rewrite incrementIP_snoc.
    destruct (0 <? wrap8 (x + 1)); apply bytes_ok_app; split; auto;
      repeat constructor; apply wrap8_byte.
Qed.

Lemma incrementIP_val (ip : IP) :
  bytes_ok ip ->
  ip_val (incrementIP ip) = (ip_val ip + 1) mod 256 ^ Z.of_nat (length ip).
Proof.
  induction ip as [|x pre IH] using rev_ind; intro H.
  - reflexivity.
  - apply bytes_ok_app in H as [Hp Hx].
    inversion Hx as [|? ? Hx' _]; subst. unfold is_byte in Hx'.
    pose proof (ip_val_range pre Hp) as R.
    rewrite incrementIP_snoc, length_app, Nat.add_1_r, Nat2Z.inj_succ,
      Z.pow_succ_r, ip_val_snoc by lia.
    set (P := 256 ^ Z.of_nat (length pre)) in *.
    unfold wrap8.
    destruct (Z.eq_dec x 255) as [->|Hne].
    + change ((255 + 1) mod 256) with 0. cbn [Z.ltb Z.compare].
      rewrite ip_val_snoc, IH by assumption.
      replace (ip_val pre * 256 + 255 + 1) with ((ip_val pre + 1) * 256) by ring.
      rewrite (Z.mul_comm 256 P), Z.mul_mod_distr_r by lia. ring.
    + rewrite (Z.mod_small (x + 1)) by lia.
      replace (0 <? x + 1) with true by (symmetry; apply Z.ltb_lt; lia).
      rewrite ip_val_snoc, Z.mod_small; [ring|nia].
Qed.

Lemma increments_length (k : nat) (ip : IP) :
  length (increments k ip) = length ip.
Proof.
  revert ip. induction k as [|k IH]; intro ip; cbn [increments]; auto.
  rewrite IH. apply incrementIP_length.
Qed.

Lemma increments_bytes_ok (k : nat) (ip : IP) :
  bytes_ok ip -> bytes_ok (increments k ip).
Proof.
  revert ip. induction k as [|k IH]; intros ip H; cbn [increments]; auto.
  apply IH, incrementIP_bytes_ok, H.
Qed.

Lemma increments_val (k : nat) (ip : IP) :
  bytes_ok ip ->
  ip_val (increments k ip)
  = (ip_val ip + Z.of_nat k) mod 256 ^ Z.of_nat (length ip).
Proof.
  revert ip. induction k as [|k IH]; intros ip H.
  - cbn [increments]. rewrite Z.add_0_r, Z.mod_small; auto.
    apply ip_val_range, H.
  - cbn [increments].
    rewrite IH, incrementIP_val, incrementIP_length by auto using incrementIP_bytes_ok.
    rewrite Zplus_mod_idemp_l. f_equal. lia.
Qed.

(** ** What [ParseCIDR] returns *)

Ltac solve_bytes :=
  repeat (apply Forall_cons || apply Forall_nil);
  try apply wrap8_byte; try (unfold is_byte; lia).

Lemma nth_is_byte (k : nat) (p : list Z) : bytes_ok p -> is_byte (nth k p 0).
Proof.
  intro H. destruct (Nat.lt_ge_cases k (length p)) as [Hk|Hk].
  - eapply Forall_forall; [exact H|]. apply nth_In, Hk.
  - rewrite nth_overflow by exact Hk. unfold is_byte. lia.
Qed.

Lemma parseIPv4_loop_bytes (k i : nat) (s : string) (p : list Z)
  (p' : list Z) (s' : string) :
  bytes_ok p -> parseIPv4_loop k i s p = Some (p', s') -> bytes_ok p'.
Proof.
  revert i s p. induction k as [|k IH]; intros i s p Hp; cbn [parseIPv4_loop].
  - intro H. injection H as <- _. exact Hp.
  - destruct (Nat.eqb (len s) 0); [discriminate|].
    destruct (if Nat.ltb 0 i then _ else _) as [s1|]; [|discriminate].
    destruct (dtoi s1) as [[n c] ok].
    destruct (negb ok || (255 <? n)); [discriminate|].
    destruct (Nat.ltb 1 c && _); [discriminate|].
    apply IH. apply bytes_ok_app. split; [exact Hp|]. solve_bytes.
Qed.

Lemma parseIPv4_shape (s : string) (ip : IP) :
  parseIPv4 s = Some ip ->
  exists a, ip = v4InV6Prefix ++ a /\ length a = 4%nat /\ bytes_ok a.
Proof.
  unfold parseIPv4.
  destruct (parseIPv4_loop 4 0 s []) as [[p rest]|] eqn:E; [|discriminate].
  destruct (negb _); [discriminate|]. intro H. injection H as <-.
  apply parseIPv4_loop_bytes in E; [|constructor].
  eexists. split; [reflexivity|]. split; [reflexivity|].
  repeat apply Forall_cons; try apply Forall_nil; apply nth_is_byte, E.
Qed.

Lemma bytes_ok_skipn (k : nat) (l : list Z) : bytes_ok l -> bytes_ok (skipn k l).
Proof.
  intro H. rewrite <- (firstn_skipn k l) in H.
  apply bytes_ok_app in H. tauto.
Qed.

Lemma bytes_ok_firstn (k : nat) (l : list Z) : bytes_ok l -> bytes_ok (firstn k l).
Proof.
  intro H. rewrite <- (firstn_skipn k l) in H.
  apply bytes_ok_app in H. tauto.
Qed.

Lemma bytes_ok_repeat0 (k : nat) : bytes_ok (repeat 0 k).
Proof.
  induction k; cbn [repeat]; constructor; auto. unfold is_byte. lia.
Qed.

(** the loop of [parseIPv6] reads whole groups and never more than 16 bytes *)
Lemma parseIPv6_loop_ok (fuel : nat) :
  forall (s : string) (ip : list Z) (e : option nat)
         (ip' : list Z) (e' : option nat) (s' : string),
    bytes_ok ip -> Nat.Even (length ip) -> (length ip <= 16)%nat ->
    parseIPv6_loop fuel s ip e = Some (ip', e', s') ->
    bytes_ok ip' /\ (length ip' <= 16)%nat.
Proof.
  induction fuel as [|fuel IH]; intros s ip e ip' e' s' Hb Hev Hle;
    cbn [parseIPv6_loop]; [discriminate|].
  unfold IPv6len, IPv4len.
  destruct (Nat.ltb (length ip) 16) eqn:Hlt; cbn [negb].
  2:{ intro H. injection H as <- _ _. auto. }
  apply Nat.ltb_lt in Hlt.
  assert (Hle2 : (length ip + 2 <= 16)%nat).
  { destruct Hev as [k Hk]. lia. }
  destruct (xtoi s) as [[n c] ok].
  destruct (negb ok || (65535 <? n)); [discriminate|].
  assert (Hb' : bytes_ok (ip ++ [wrap8 (Z.shiftr n 8); wrap8 n])).
  { apply bytes_ok_app. split; auto. solve_bytes. }
  assert (Hlen' : length (ip ++ [wrap8 (Z.shiftr n 8); wrap8 n])
                  = (length ip + 2)%nat).
  { rewrite length_app. reflexivity. }
  assert (Hev' : Nat.Even (length (ip ++ [wrap8 (Z.shiftr n 8); wrap8 n]))).
  { rewrite Hlen'. destruct Hev as [k Hk]. exists (S k). lia. }
  destruct (Nat.ltb c (len s) && _).
  - destruct (_ && negb (Nat.eqb (length ip) (16 - 4))); [discriminate|].
    destruct (Nat.ltb 16 (length ip + 4)) eqn:H4; [discriminate|].
    apply Nat.ltb_ge in H4.
    destruct (parseIPv4 s) as [ip4|] eqn:E4; [|discriminate].
    intro H. injection H as <- _ _.
    apply parseIPv4_shape in E4 as (a & -> & Ha & Hba).
    unfold v4InV6Prefix. cbn [app skipn].
    split; [apply bytes_ok_app; auto|]. rewrite length_app. lia.
  - destruct (Nat.eqb (len (drop c s)) 0).
    { intro H. injection H as <- _ _. split; auto. lia. }
    destruct (negb _ || _); [discriminate|].
    destruct (Ascii.eqb _ ":").
    + destruct e; [discriminate|].
      destruct (Nat.eqb (len _) 0).
      * intro H. injection H as <- _ _. split; auto. lia.
      * apply IH; auto. lia.
    + apply IH; auto. lia.
Qed.

Lemma expand_ellipsis_shape (ip1 : list Z) (e1 : option nat) (ip : IP) :
  bytes_ok ip1 -> (length ip1 <= 16)%nat ->
  expand_ellipsis ip1 e1 = Some ip -> length ip = 16%nat /\ bytes_ok ip.
Proof.
  intros Hb Hle. unfold expand_ellipsis.
  destruct (Nat.ltb (length ip1) IPv6len) eqn:Hlt.
  - apply Nat.ltb_lt in Hlt. destruct e1 as [e|]; [|discriminate].
    remember (IPv6len - length ip1)%nat as k eqn:Hk.
    intro H. injection H as <-. split.
    + rewrite !length_app, repeat_length.
      pose proof (f_equal (@length Z) (firstn_skipn e ip1)) as F.
      rewrite length_app in F. unfold IPv6len in *. lia.
    + repeat (apply bytes_ok_app; split);
        auto using bytes_ok_firstn, bytes_ok_skipn, bytes_ok_repeat0.
  - apply Nat.ltb_ge in Hlt. destruct e1; [discriminate|].
    intro H. injection H as <-. unfold IPv6len in *. split; [lia|auto].
Qed.

Lemma parseIPv6_shape (s : string) (ip : IP) :
  parseIPv6 s = Some ip -> length ip = 16%nat /\ bytes_ok ip.
Proof.
  unfold parseIPv6.
  set (leading := Nat.leb 2 (len s) && _ && _).
  destruct (leading && _).
  { intro H. injection H as <-. split; [reflexivity|apply (bytes_ok_repeat0 16)]. }
  destruct (parseIPv6_loop _ _ _ _) as [[[ip1 e1] rest]|] eqn:E; [|discriminate].
  apply parseIPv6_loop_ok in E as [Hb Hle];
    [|constructor|exists O; reflexivity|cbn; lia].
  destruct (negb _); [discriminate|].
  apply expand_ellipsis_shape; assumption.
Qed.

Lemma CIDRMask_loop_length (l : nat) (p : Z) : length (CIDRMask_loop l p) = l.
Proof.
  revert p. induction l as [|l IH]; intro p; cbn [CIDRMask_loop]; auto.
  destruct (8 <=? p); cbn [length]; rewrite IH; reflexivity.
Qed.

Lemma CIDRMask_loop_zero (l : nat) : CIDRMask_loop l 0 = repeat 0 l.
Proof.
  induction l as [|l IH]; cbn [CIDRMask_loop repeat]; auto.
  change (8 <=? 0) with false. cbv iota. rewrite IH. reflexivity.
Qed.

Lemma Mask_v4 (a : IP) (m : IPMask) :
  length a = 4%nat -> length m = 4%nat ->
  Mask (v4InV6Prefix ++ a) m = and_bytes a m.
Proof.
  intros Ha Hm.
  destruct a as [|a0 [|a1 [|a2 [|a3 [|]]]]]; try discriminate.
  destruct m as [|m0 [|m1 [|m2 [|m3 [|]]]]]; try discriminate.
  reflexivity.
Qed.

Lemma Mask_v6 (ip : IP) (m : IPMask) :
  length ip = 16%nat -> length m = 16%nat -> Mask ip m = and_bytes ip m.
Proof.
  intros Hi Hm. unfold Mask, IPv4len, IPv6len. cbv zeta.
  repeat (first [rewrite Hm | rewrite Hi]; cbn [Nat.eqb andb negb]). reflexivity.
Qed.

Lemma ParseCIDR_shape (s : string) (ip : IP) (n : IPNet) :
  ParseCIDR s = Some (ip, n) -> exists L p, block_shape ip n L p.
Proof.
  unfold ParseCIDR.
  destruct (IndexByteString s "/") as [i|]; [|discriminate].
  destruct (dtoi (drop (S i) s)) as [[k c] ok].
  destruct (parseIPv4 (take i s)) as [ip4|] eqn:E4.
  - apply parseIPv4_shape in E4 as (a & -> & Ha & Hb).
    destruct (negb ok || _ || (k <? 0) || (8 * Z.of_nat IPv4len <? k)) eqn:C;
      [discriminate|].
    apply orb_false_elim in C as [C C2]. apply orb_false_elim in C as [_ C1].
    apply Z.ltb_ge in C1, C2. change (8 * Z.of_nat IPv4len) with 32 in *.
    intro H. injection H as <- <-.
    assert (Em : CIDRMask k 32 = CIDRMask_loop 4 k).
    { unfold CIDRMask. change (32 =? 32) with true. cbn [negb andb].
      replace (k <? 0) with false by (symmetry; apply Z.ltb_ge; lia).
      replace (32 <? k) with false by (symmetry; apply Z.ltb_ge; lia).
      reflexivity. }
    exists 4%nat, k. unfold block_shape. cbn [IPNet_IP IPNet_Mask].
    rewrite Em. repeat split; auto; try lia.
    exists a. repeat split; auto.
    apply Mask_v4; auto. apply CIDRMask_loop_length.
  - destruct (parseIPv6 (take i s)) as [ip6|] eqn:E6; [|discriminate].
    apply parseIPv6_shape in E6 as [Hl Hb].
    destruct (negb ok || _ || (k <? 0) || (8 * Z.of_nat IPv6len <? k)) eqn:C;
      [discriminate|].
    apply orb_false_elim in C as [C C2]. apply orb_false_elim in C as [_ C1].
    apply Z.ltb_ge in C1, C2. change (8 * Z.of_nat IPv6len) with 128 in *.
    intro H. injection H as <- <-.
    assert (Em : CIDRMask k 128 = CIDRMask_loop 16 k).
    { unfold CIDRMask. change (128 =? 32) with false. change (128 =? 128) with true.
      cbn [negb andb].
      replace (k <? 0) with false by (symmetry; apply Z.ltb_ge; lia).
      replace (128 <? k) with false by (symmetry; apply Z.ltb_ge; lia).
      reflexivity. }
    exists 16%nat, k. unfold block_shape. cbn [IPNet_IP IPNet_Mask].
    rewrite Em. repeat split; auto; try lia.
    exists ip6. repeat split; auto.
    apply Mask_v6; auto. apply CIDRMask_loop_length.
Qed.

(** ** Masks and containment as arithmetic *)

Lemma in_all_bytes (x : Z) : is_byte x -> In x all_bytes.
Proof.
  intros [H0 H1]. unfold all_bytes.
  replace x with (Z.of_nat (Z.to_nat x)) by lia.
  apply in_map, in_seq. lia.
Qed.

(** a mask byte with [p] leading ones clears the low [8 - p] bits *)
Lemma land_mask_byte (p x : Z) :
  0 <= p < 8 -> is_byte x ->
  Z.land x (255 - Z.shiftr 255 p) = 2 ^ (8 - p) * (x / 2 ^ (8 - p)).
Proof.
  intros Hp Hx.
  assert (C : land_mask_check p = true).
  { assert (p = 0 \/ p = 1 \/ p = 2 \/ p = 3 \/ p = 4 \/ p = 5 \/ p = 6 \/ p = 7)
      as H by lia.
    repeat (destruct H as [->|H]); try subst p; vm_compute; reflexivity. }
  unfold land_mask_check in C. rewrite forallb_forall in C.
  apply Z.eqb_eq, C, in_all_bytes, Hx.
Qed.

Lemma land_255 (x : Z) : is_byte x -> Z.land x 255 = x.
Proof.
  intros [H0 H1]. change 255 with (Z.ones 8).
  rewrite Z.land_ones by lia. apply Z.mod_small. change (2 ^ 8) with 256. lia.
Qed.

Lemma pow256 (L : nat) : 256 ^ Z.of_nat L = 2 ^ (8 * Z.of_nat L).
Proof. change 256 with (2 ^ 8). rewrite <- Z.pow_mul_r by lia. reflexivity. Qed.

Lemma ip_val_repeat0 (l : nat) : ip_val (repeat 0 l) = 0.
Proof.
  induction l as [|l IH]; [reflexivity|].
  cbn [repeat]. rewrite ip_val_cons, IH. lia.
Qed.

Lemma and_bytes_zeros (a : list Z) :
  and_bytes a (repeat 0 (length a)) = repeat 0 (length a).
Proof.
  induction a as [|x a IH]; [reflexivity|].
  cbn [length repeat and_bytes]. rewrite IH, Z.land_0_r. reflexivity.
Qed.

Lemma same_masked_zeros (nn c : list Z) :
  length nn = length c -> same_masked nn (repeat 0 (length c)) c = true.
Proof.
  revert c. induction nn as [|x nn IH]; intros [|y c] H; try discriminate;
    [reflexivity|].
  cbn [length repeat same_masked]. rewrite !Z.land_0_r. cbn. apply IH.
  injection H. auto.
Qed.

(** The network number cut out by a [p]-bit mask is the start of a run of
    [2 ^ (bits - p)] numbers that fits below [2 ^ bits], and the masked
    comparison of [Contains] holds exactly on that run. *)
Lemma masked_network (L : nat) :
  forall (p : Z) (a : IP),
    0 <= p <= 8 * Z.of_nat L -> length a = L -> bytes_ok a ->
    let m := CIDRMask_loop L p in
    let nn := and_bytes a m in
    length nn = L /\ bytes_ok nn /\
    ip_val nn + 2 ^ (8 * Z.of_nat L - p) <= 256 ^ Z.of_nat L /\
    (exists t, 0 <= t /\ ip_val nn = t * 2 ^ (8 * Z.of_nat L - p)) /\
    forall c, length c = L -> bytes_ok c ->
      (same_masked nn m c = true <->
       ip_val nn <= ip_val c < ip_val nn + 2 ^ (8 * Z.of_nat L - p)).
Proof.
  induction L as [|L IH]; intros p a Hp Ha Hb.
  - destruct a; [|discriminate].
    assert (p = 0) by (cbn in Hp; lia). subst p. cbn.
    split; [reflexivity|]. split; [constructor|]. split; [lia|].
    split; [exists 0; cbn; lia|].
    intros [|y c] Hc _; [cbn; intuition lia|discriminate].
  - destruct a as [|x a]; [discriminate|]. injection Ha as Ha.
    inversion Hb as [|? ? Hx Hb']; subst.
    set (P := 256 ^ Z.of_nat (length a)).
    assert (HP : 0 < P) by (apply Z.pow_pos_nonneg; lia).
    assert (HSP : 256 ^ Z.of_nat (S (length a)) = 256 * P).
    { rewrite Nat2Z.inj_succ, Z.pow_succ_r by lia. reflexivity. }
    cbn [CIDRMask_loop]. destruct (8 <=? p) eqn:E8.
    + apply Z.leb_le in E8.
      destruct (IH (p - 8) a ltac:(lia) eq_refl Hb')
        as (Hl & Hok & Hfit & (t & Ht & Hal) & Hin).
      cbn zeta in *. cbn [and_bytes]. rewrite land_255 by assumption.
      set (nn := and_bytes a (CIDRMask_loop (length a) (p - 8))) in *.
      replace (8 * Z.of_nat (S (length a)) - p)
        with (8 * Z.of_nat (length a) - (p - 8)) by lia.
      set (K := 2 ^ (8 * Z.of_nat (length a) - (p - 8))) in *.
      assert (HK : 0 < K) by (apply Z.pow_pos_nonneg; lia).
      pose proof (ip_val_range nn Hok) as Rn. rewrite Hl in Rn. fold P in Rn.
      unfold is_byte in Hx.
      split; [cbn [length]; congruence|].
      split; [constructor; assumption|].
      rewrite ip_val_cons, Hl, HSP. fold P.
      split; [nia|].
      split.
      { exists (x * 2 ^ (p - 8) + t). split; [nia|].
        assert (HPK : P = 2 ^ (p - 8) * K).
        { unfold P, K. rewrite pow256, <- Z.pow_add_r by lia. f_equal. lia. }
        rewrite Hal, HPK. ring. }
      intros [|y c] Hc Hcb; [discriminate|]. injection Hc as Hc.
      inversion Hcb as [|? ? Hy Hcb']; subst.
      pose proof (ip_val_range c Hcb') as Rc. rewrite Hc in Rc. fold P in Rc.
      unfold is_byte in Hy.
      cbn [same_masked]. rewrite !land_255 by assumption.
      rewrite ip_val_cons, Hc. fold P.
      rewrite andb_true_iff, Z.eqb_eq, (Hin c Hc Hcb').
      split.
      * intros [-> H]. lia.
      * intros [H1 H2]. assert (x = y) by nia. subst y. split; [reflexivity|lia].
    + apply Z.leb_gt in E8.
      rewrite CIDRMask_loop_zero. cbn [and_bytes].
      rewrite and_bytes_zeros, land_mask_byte by (assumption || lia).
      set (q := 2 ^ (8 - p)).
      assert (Hq : 0 < q) by (apply Z.pow_pos_nonneg; lia).
      assert (Hq256 : q * 2 ^ p = 256).
      { unfold q. rewrite <- Z.pow_add_r by lia.
        replace (8 - p + p) with 8 by lia. reflexivity. }
      assert (H2p : 0 < 2 ^ p) by (apply Z.pow_pos_nonneg; lia).
      replace (2 ^ (8 * Z.of_nat (S (length a)) - p)) with (q * P).
      2:{ unfold q, P. rewrite pow256, <- Z.pow_add_r by lia. f_equal. lia. }
      unfold is_byte in Hx.
      pose proof (Z.div_mod x q ltac:(lia)) as Dx.
      pose proof (Z.mod_pos_bound x q Hq) as Mx.
      set (t := x / q) in *.
      assert (Ht : 0 <= t) by (apply Z.div_pos; lia).
      assert (Htq : q * (t + 1) <= 256).
      { assert (t < 2 ^ p) by nia. nia. }
      split; [cbn [length]; rewrite repeat_length; reflexivity|].
      split.
      { constructor; [unfold is_byte; nia|apply bytes_ok_repeat0]. }
      rewrite ip_val_cons, ip_val_repeat0, repeat_length, HSP. fold P.
      split; [nia|].
      split; [exists t; split; [assumption|ring]|].
      intros [|y c] Hc Hcb; [discriminate|]. injection Hc as Hc.
      inversion Hcb as [|? ? Hy Hcb']; subst.
      pose proof (ip_val_range c Hcb') as Rc. rewrite Hc in Rc. fold P in Rc.
      cbn [same_masked].
      rewrite <- Hc at 1 2. rewrite same_masked_zeros
        by (rewrite repeat_length; reflexivity).
      rewrite andb_true_r, Z.eqb_eq.
      assert (Hqt : is_byte (q * t)) by (unfold is_byte; nia).
      rewrite (land_mask_byte p (q * t)), (land_mask_byte p y) by (assumption || lia).
      fold q. rewrite (Z.mul_comm q t), Z.div_mul by lia.
      rewrite ip_val_cons, Hc. fold P.
      unfold is_byte in Hy.
      pose proof (Z.div_mod y q ltac:(lia)) as Dy.
      pose proof (Z.mod_pos_bound y q Hq) as My.
      set (u := y / q) in *.
      split.
      * intro H. assert (u = t) by nia. subst u. nia.
      * intros [H1 H2]. assert (Hu : u = t); [|rewrite Hu; reflexivity].
        assert (t < u + 1) by nia. assert (u < t + 1) by nia. lia.
Qed.

(** ** [To4] and [Contains] on addresses of a known length *)

Ltac explode l :=
  repeat (let b := fresh "b" in destruct l as [|b l]; try discriminate).

Lemma To4_len4 (x : IP) : length x = 4%nat -> To4 x = x.
Proof. intro H. unfold To4. rewrite H. reflexivity. Qed.

Lemma To4_len16 (x : IP) :
  length x = 16%nat -> To4 x = if is_v4mapped x then skipn 12 x else [].
Proof. intro H. unfold To4, is_v4mapped. rewrite H. reflexivity. Qed.

Lemma Contains_len4 (n : IPNet) (c : IP) :
  length (IPNet_IP n) = 4%nat -> length (IPNet_Mask n) = 4%nat ->
  length c = 4%nat ->
  Contains n c = same_masked (IPNet_IP n) (IPNet_Mask n) c.
Proof.
  destruct n as [nn m]. cbn [IPNet_IP IPNet_Mask]. intros Hn Hm Hc.
  explode nn. explode m. explode c. reflexivity.
Qed.

Lemma Contains_len16 (n : IPNet) (c : IP) :
  length (IPNet_IP n) = 16%nat -> length (IPNet_Mask n) = 16%nat ->
  length c = 16%nat ->
  Contains n c =
  if is_v4mapped (IPNet_IP n)
  then if is_v4mapped c
       then same_masked (skipn 12 (IPNet_IP n)) (skipn 12 (IPNet_Mask n))
                        (skipn 12 c)
       else false
  else if is_v4mapped c then false
       else same_masked (IPNet_IP n) (IPNet_Mask n) c.
Proof.
  destruct n as [nn m]. cbn [IPNet_IP IPNet_Mask]. intros Hn Hm Hc.
  unfold Contains, networkNumberAndMask. cbn [IPNet_IP IPNet_Mask].
  rewrite (To4_len16 nn Hn), (To4_len16 c Hc).
  remember (is_v4mapped nn) as bn. remember (is_v4mapped c) as bc.
  clear Heqbn Heqbc.
  explode nn. explode m. explode c.
  destruct bn, bc; reflexivity.
Qed.

Lemma v4mapped_range (x : IP) :
  length x = 16%nat -> bytes_ok x ->
  (is_v4mapped x = true <-> 65535 * 2 ^ 32 <= ip_val x < 65536 * 2 ^ 32).
Proof.
  intros Hx Hb. explode x. unfold bytes_ok in Hb.
  repeat match goal with
         | H : Forall is_byte (_ :: _) |- _ =>
             let Hh := fresh "Hb" in
             inversion H as [|? ? Hh ?]; clear H; subst; unfold is_byte in Hh
         end.
  unfold is_v4mapped, isZeros, ip_val.
  cbn [firstn forallb nth fold_left].
  rewrite !andb_true_iff, !Z.eqb_eq.
  change (2 ^ 32) with 4294967296.
  split.
  - intros [[(E0 & E1 & E2 & E3 & E4 & E5 & E6 & E7 & E8 & E9 & _) E10] E11].
    subst. lia.
  - intros [Hlo Hhi].
    assert (b = 0) by lia. subst b.
    assert (b0 = 0) by lia. subst b0.
    assert (b1 = 0) by lia. subst b1.
    assert (b2 = 0) by lia. subst b2.
    assert (b3 = 0) by lia. subst b3.
    assert (b4 = 0) by lia. subst b4.
    assert (b5 = 0) by lia. subst b5.
    assert (b6 = 0) by lia. subst b6.
    assert (b7 = 0) by lia. subst b7.
    assert (b8 = 0) by lia. subst b8.
    assert (b9 = 255) by lia. subst b9.
    assert (b10 = 255) by lia. subst b10.
    repeat split; reflexivity.
Qed.

Lemma is_v4mapped_prefix (x : IP) :
  length x = 16%nat -> is_v4mapped x = true ->
  x = v4InV6Prefix ++ skipn 12 x.
Proof.
  intros Hx. explode x.
  unfold is_v4mapped, isZeros. cbn [firstn forallb nth].
  rewrite !andb_true_iff, !Z.eqb_eq.
  intros [[(E0 & E1 & E2 & E3 & E4 & E5 & E6 & E7 & E8 & E9 & _) E10] E11].
  subst. reflexivity.
Qed.

Lemma same_masked_refl (x m : list Z) :
  length x = length m -> same_masked x m x = true.
Proof.
  revert m. induction x as [|a x IH]; intros [|k m] H; try discriminate;
    [reflexivity|].
  cbn [same_masked]. rewrite Z.eqb_refl. apply IH. injection H. auto.
Qed.

Lemma same_masked_app (n1 m1 c1 n2 m2 c2 : list Z) :
  length n1 = length m1 -> length c1 = length m1 ->
  same_masked (n1 ++ n2) (m1 ++ m2) (c1 ++ c2)
  = same_masked n1 m1 c1 && same_masked n2 m2 c2.
Proof.
  revert m1 c1. induction n1 as [|a n1 IH]; intros [|k m1] [|y c1] H1 H2;
    try discriminate; [reflexivity|].
  cbn [app same_masked]. rewrite IH, andb_assoc; auto.
Qed.

(** nested or apart: two aligned runs of sizes [2 ^ i <= 2 ^ j] that share
    a number lie one inside the other *)
Lemma dyadic_nested (i j t F x : Z) :
  0 <= i <= j ->
  t * 2 ^ i <= x < t * 2 ^ i + 2 ^ i ->
  F * 2 ^ j <= x < F * 2 ^ j + 2 ^ j ->
  F * 2 ^ j <= t * 2 ^ i /\ t * 2 ^ i + 2 ^ i <= F * 2 ^ j + 2 ^ j.
Proof.
  intros Hij Hx Hy.
  replace (2 ^ j) with (2 ^ (j - i) * 2 ^ i) in *
    by (rewrite <- Z.pow_add_r by lia; f_equal; lia).
  assert (0 < 2 ^ i) by (apply Z.pow_pos_nonneg; lia).
  assert (0 < 2 ^ (j - i)) by (apply Z.pow_pos_nonneg; lia).
  set (K := 2 ^ i) in *. set (e := 2 ^ (j - i)) in *.
  assert (t < F * e + e) by nia.
  assert (F * e < t + 1) by nia.
  nia.
Qed.

Section Block.

Variables (ip : IP) (n : IPNet) (L : nat) (p : Z).
Hypothesis Hshape : block_shape ip n L p.

Lemma shape_facts :
  length (IPNet_IP n) = L /\ length (IPNet_Mask n) = L /\
  bytes_ok (IPNet_IP n) /\
  ip_val (IPNet_IP n) + block_size L p <= 256 ^ Z.of_nat L /\
  (exists t, 0 <= t /\ ip_val (IPNet_IP n) = t * block_size L p) /\
  forall c, length c = L -> bytes_ok c ->
    (same_masked (IPNet_IP n) (IPNet_Mask n) c = true <->
     ip_val (IPNet_IP n) <= ip_val c < ip_val (IPNet_IP n) + block_size L p).
Proof.
  destruct Hshape as (_ & Hp & Hm & _ & a & Ha & Hb & Hn).
  destruct (masked_network L p a Hp Ha Hb) as (H1 & H2 & H3 & H4 & H5).
  cbv zeta in *. rewrite Hn, Hm. unfold block_size.
  rewrite CIDRMask_loop_length. repeat split; auto; apply H5; auto.
Qed.

Lemma block_size_pos : 0 < block_size L p.
Proof.
  destruct Hshape as (_ & Hp & _). unfold block_size.
  apply Z.pow_pos_nonneg; lia.
Qed.

(** [Contains] never accepts an address outside the range of the block *)
Lemma Contains_in_range (c : IP) :
  length c = L -> bytes_ok c -> Contains n c = true ->
  ip_val (IPNet_IP n) <= ip_val c < ip_val (IPNet_IP n) + block_size L p.
Proof.
  intros Hc Hcb HC.
  destruct shape_facts as (Hl & Hml & Hok & Hfit & Hal & Hraw).
  apply Hraw; auto.
  destruct Hshape as ([->| ->] & _).
  - rewrite Contains_len4 in HC; auto.
  - rewrite Contains_len16 in HC; auto.
    destruct (is_v4mapped (IPNet_IP n)) eqn:En, (is_v4mapped c) eqn:Ec;
      try discriminate; auto.
    rewrite (is_v4mapped_prefix _ Hl En), (is_v4mapped_prefix _ Hc Ec).
    rewrite <- (firstn_skipn 12 (IPNet_Mask n)).
    rewrite same_masked_app, same_masked_refl, HC; auto;
      rewrite length_firstn, Hml; reflexivity.
Qed.

(** ... and accepts the whole of it, unless the network covers the
    IPv4-mapped addresses *)
Lemma Contains_range (c : IP) :
  covers_mapped n = false -> length c = L -> bytes_ok c ->
  (Contains n c = true <->
   ip_val (IPNet_IP n) <= ip_val c < ip_val (IPNet_IP n) + block_size L p).
Proof.
  intros Hcov Hc Hcb. split; [apply Contains_in_range; auto|].
  intro Hr.
  destruct shape_facts as (Hl & Hml & Hok & Hfit & (t & Ht & Hal) & Hraw).
  pose proof (proj2 (Hraw c Hc Hcb) Hr) as Hs.
  destruct Hshape as ([->| ->] & Hp & _).
  - rewrite Contains_len4; auto.
  - rewrite Contains_len16; auto.
    pose proof (v4mapped_range _ Hl Hok) as Vn.
    pose proof (v4mapped_range _ Hc Hcb) as Vc.
    unfold block_size in *.
    change (8 * Z.of_nat 16) with 128 in *.
    set (k := 128 - p) in *. rewrite Hal in *.
    destruct (is_v4mapped (IPNet_IP n)) eqn:En, (is_v4mapped c) eqn:Ec; auto.
    + rewrite (is_v4mapped_prefix _ Hl En), (is_v4mapped_prefix _ Hc Ec) in Hs.
      rewrite <- (firstn_skipn 12 (IPNet_Mask n)) in Hs.
      rewrite same_masked_app, same_masked_refl in Hs; auto;
        rewrite length_firstn, Hml; reflexivity.
    + (* the network is IPv4-mapped, the address is not *)
      exfalso. pose proof (proj1 Vn eq_refl) as Rn.
      assert (0 < 2 ^ k) by (apply Z.pow_pos_nonneg; lia).
      destruct (Z.le_gt_cases k 32) as [Hk|Hk].
      * pose proof (dyadic_nested k 32 t 65535 (t * 2 ^ k)
                      ltac:(lia) ltac:(lia) ltac:(lia)) as [A B].
        assert (false = true) by (apply Vc; lia). discriminate.
      * pose proof (dyadic_nested 32 k 65535 t (t * 2 ^ k)
                      ltac:(lia) ltac:(lia) ltac:(lia)) as [A B].
        replace (2 ^ k) with (2 * 2 ^ (k - 33) * 2 ^ 32) in *
          by (rewrite <- (Z.pow_1_r 2) at 1;
              rewrite <- !Z.pow_add_r by lia; f_equal; lia).
        set (w := 2 ^ (k - 33)) in *. change (2 ^ 32) with 4294967296 in *.
        assert (t * (2 * w * 4294967296) = 65535 * 4294967296) by lia.
        assert (2 * (t * w) = 65535) by nia. lia.
    + (* the address is IPv4-mapped, the network is not *)
      exfalso. pose proof (proj1 Vc eq_refl) as Rc.
      assert (0 < 2 ^ k) by (apply Z.pow_pos_nonneg; lia).
      destruct (Z.le_gt_cases 32 k) as [Hk|Hk].
      * pose proof (dyadic_nested 32 k 65535 t (ip_val c)
                      ltac:(lia) ltac:(lia) ltac:(lia)) as [A B].
        unfold covers_mapped in Hcov. rewrite Hl, (To4_len16 _ Hl), En in Hcov.
        cbn [Nat.eqb IPv6len is_nil andb] in Hcov.
        assert (Hm0 : same_masked (IPNet_IP n) (IPNet_Mask n) (IPv4 0 0 0 0) = true).
        { apply Hraw; [reflexivity| |].
          - unfold IPv4, v4InV6Prefix. cbn [app]. solve_bytes.
          - change (ip_val (IPv4 0 0 0 0)) with (65535 * 2 ^ 32). lia. }
        congruence.
      * pose proof (dyadic_nested k 32 t 65535 (ip_val c)
                      ltac:(lia) ltac:(lia) ltac:(lia)) as [A B].
        assert (false = true) by (apply Vn; lia). discriminate.
Qed.

End Block.

(** ** The scan loop *)

Lemma increments_S (k : nat) (ip : IP) :
  increments (S k) ip = incrementIP (increments k ip).
Proof.
  revert ip. induction k as [|k IH]; intro ip; [reflexivity|].
  change (increments (S (S k)) ip) with (increments (S k) (incrementIP ip)).
  rewrite IH. reflexivity.
Qed.

Lemma scan_complete (taken : nat -> string -> bool) (n : IPNet) (ip : IP)
  (i k : nat) (r : string * bool) :
  stops_at taken n ip i k r ->
  forall fuel, (k < fuel)%nat -> scan fuel taken n ip i = Some r.
Proof.
  induction 1 as [ip i HC HT|ip i HC|ip i k r HC HT _ IH]; intros [|fuel] Hf;
    try lia; cbn [scan]; rewrite HC; try rewrite HT; cbn [negb]; auto.
  apply IH. lia.
Qed.

Lemma scan_sound (taken : nat -> string -> bool) (n : IPNet) (fuel : nat) :
  forall (ip : IP) (i : nat) (r : string * bool),
    scan fuel taken n ip i = Some r ->
    exists k, (k < fuel)%nat /\ stops_at taken n ip i k r.
Proof.
  induction fuel as [|fuel IH]; intros ip i r; cbn [scan]; [discriminate|].
  destruct (Contains n ip) eqn:HC.
  - destruct (taken i (IP_String ip)) eqn:HT; cbn [negb].
    + intro H. apply IH in H as (k & Hk & Hs).
      exists (S k). split; [lia|]. apply stop_next; assumption.
    + intro H. injection H as <-. exists O. split; [lia|].
      apply stop_found; assumption.
  - intro H. injection H as <-. exists O. split; [lia|].
    apply stop_left; assumption.
Qed.

(** where a scan stops, and with what, is determined *)
Lemma stops_at_unique (taken : nat -> string -> bool) (n : IPNet) (ip : IP)
  (i k k' : nat) (r r' : string * bool) :
  stops_at taken n ip i k r -> stops_at taken n ip i k' r' ->
  k = k' /\ r = r'.
Proof.
  intros H H'.
  pose proof (scan_complete _ _ _ _ _ _ H (S (k + k')) ltac:(lia)) as E.
  pose proof (scan_complete _ _ _ _ _ _ H' (S (k + k')) ltac:(lia)) as E'.
  assert (r = r') by congruence. subst r'. split; [|reflexivity].
  clear E E'. revert k' H'.
  induction H as [ip i HC HT|ip i HC|ip i k r HC HT _ IH]; intros k' H';
    inversion H'; subst; try congruence.
  f_equal. apply IH. assumption.
Qed.

(** what stopping at the [k]-th candidate says about the candidates *)
Lemma stops_at_inv (taken : nat -> string -> bool) (n : IPNet) (ip : IP)
  (i k : nat) (r : string * bool) :
  stops_at taken n ip i k r ->
  (forall j, (j < k)%nat ->
     Contains n (increments j ip) = true
     /\ taken (i + j)%nat (IP_String (increments j ip)) = true)
  /\ ((Contains n (increments k ip) = true
       /\ taken (i + k)%nat (IP_String (increments k ip)) = false
       /\ r = (IP_String (increments k ip), true))
      \/ (Contains n (increments k ip) = false /\ r = (EmptyString, false))).
Proof.
  induction 1 as [ip i HC HT|ip i HC|ip i k r HC HT _ [IH1 IH2]].
  - split; [intros j Hj; lia|]. left. rewrite Nat.add_0_r. auto.
  - split; [intros j Hj; lia|]. right. auto.
  - split.
    + intros [|j] Hj; [rewrite Nat.add_0_r; auto|].
      rewrite Nat.add_succ_r. apply IH1. lia.
    + rewrite Nat.add_succ_r. exact IH2.
Qed.

(** the same for a predicate that answers the same whenever it is asked *)
Lemma stops_at_inv_const (taken : string -> bool) (n : IPNet) (ip : IP)
  (i k : nat) (r : string * bool) :
  stops_at (fun _ => taken) n ip i k r ->
  (forall j, (j < k)%nat ->
     Contains n (increments j ip) = true
     /\ taken (IP_String (increments j ip)) = true)
  /\ ((Contains n (increments k ip) = true
       /\ taken (IP_String (increments k ip)) = false
       /\ r = (IP_String (increments k ip), true))
      \/ (Contains n (increments k ip) = false /\ r = (EmptyString, false))).
Proof. apply (stops_at_inv (fun _ => taken)). Qed.

(** the scan stops at the latest where a candidate is not contained *)
Lemma stops_within (taken : nat -> string -> bool) (n : IPNet) (k : nat) :
  forall ip i, Contains n (increments k ip) = false ->
               exists j r, (j <= k)%nat /\ stops_at taken n ip i j r.
Proof.
  induction k as [|k IH]; intros ip i H.
  - exists O, (EmptyString, false). split; [lia|]. apply stop_left, H.
  - destruct (Contains n ip) eqn:HC.
    + destruct (taken i (IP_String ip)) eqn:HT.
      * destruct (IH _ (S i) H) as (j & r & Hj & Hs).
        exists (S j), r. split; [lia|]. apply stop_next; assumption.
      * exists O, (IP_String ip, true). split; [lia|].
        apply stop_found; assumption.
    + exists O, (EmptyString, false). split; [lia|]. apply stop_left, HC.
Qed.

Lemma queried_shift (ip : IP) (m : nat) :
  map (fun j => increments j ip) (seq 0 (S m))
  = ip :: map (fun j => increments j (incrementIP ip)) (seq 0 m).
Proof. cbn [seq map increments]. rewrite <- seq_shift, map_map. reflexivity. Qed.

(** the recording loop takes the same path and records its candidates *)
Lemma scan_log_complete (taken : nat -> string -> bool) (n : IPNet) (ip : IP)
  (i k : nat) (r : string * bool) :
  stops_at taken n ip i k r ->
  forall fuel q, (k < fuel)%nat ->
    scan_log fuel taken n ip i q
    = Some (fst r, snd r, q ++ queried_upto ip k (snd r)).
Proof.
  unfold queried_upto.
  induction 1 as [ip i HC HT|ip i HC|ip i k r HC HT _ IH]; intros [|fuel] q Hf;
    try lia; cbn [scan_log]; rewrite HC; try rewrite HT; cbn [negb fst snd].
  - reflexivity.
  - cbn. rewrite app_nil_r. reflexivity.
  - rewrite IH by lia. rewrite <- app_assoc. do 3 f_equal.
    destruct (snd r); rewrite (queried_shift ip); reflexivity.
Qed.

Lemma scan_log_scan (taken : nat -> string -> bool) (n : IPNet) (fuel : nat) :
  forall (ip : IP) (i : nat) (q : list IP) (x : string * bool * list IP),
    scan_log fuel taken n ip i q = Some x ->
    exists r, scan fuel taken n ip i = Some r.
Proof.
  induction fuel as [|fuel IH]; intros ip i q x; cbn [scan scan_log];
    [discriminate|].
  destruct (Contains n ip); [|eauto].
  destruct (negb (taken i (IP_String ip))); [eauto|]. apply IH.
Qed.

Lemma scan_log_sound (taken : nat -> string -> bool) (n : IPNet) (fuel : nat)
  (ip : IP) (i : nat) (q : list IP) (s : string) (ok : bool) (q' : list IP) :
  scan_log fuel taken n ip i q = Some (s, ok, q') ->
  exists k, (k < fuel)%nat /\ stops_at taken n ip i k (s, ok)
            /\ q' = q ++ queried_upto ip k ok.
Proof.
  intro H. destruct (scan_log_scan _ _ _ _ _ _ _ H) as [r Hr].
  apply scan_sound in Hr as (k & Hk & Hs).
  rewrite (scan_log_complete _ _ _ _ _ _ Hs fuel q Hk) in H.
  injection H as <- <- <-.
  exists k. destruct r. auto.
Qed.

(** ** The scan of a parsed block *)

Section BlockScan.

Variables (ip : IP) (n : IPNet) (L : nat) (p : Z).
Hypothesis Hshape : block_shape ip n L p.

Local Abbreviation net := (IPNet_IP n).
Local Abbreviation K := (block_size L p).
Local Abbreviation start := (incrementIP (IPNet_IP n)).

Lemma start_is_first : incrementIP (Mask ip (IPNet_Mask n)) = start.
Proof. destruct Hshape as (_ & _ & _ & -> & _). reflexivity. Qed.

Lemma cand_length (j : nat) : length (increments j start) = L.
Proof.
  rewrite increments_length, incrementIP_length.
  apply (shape_facts ip n L p Hshape).
Qed.

Lemma cand_bytes_ok (j : nat) : bytes_ok (increments j start).
Proof.
  apply increments_bytes_ok, incrementIP_bytes_ok.
  apply (shape_facts ip n L p Hshape).
Qed.

Lemma cand_val_mod (j : nat) :
  ip_val (increments j start)
  = (ip_val net + 1 + Z.of_nat j) mod 256 ^ Z.of_nat L.
Proof.
  destruct (shape_facts ip n L p Hshape) as (Hl & _ & Hok & _).
  change (increments j start) with (increments (S j) net).
  rewrite increments_val by exact Hok. rewrite Hl.
  f_equal. lia.
Qed.

(** below the end of the range the candidates count up without wrapping *)
Lemma cand_val (j : nat) :
  Z.of_nat j < K - 1 ->
  ip_val (increments j start) = ip_val net + 1 + Z.of_nat j.
Proof.
  intro Hj.
  destruct (shape_facts ip n L p Hshape) as (Hl & _ & Hok & Hfit & _).
  pose proof (ip_val_range _ Hok) as R.
  rewrite cand_val_mod. apply Z.mod_small. lia.
Qed.

Lemma size_doubles : 1 <= p -> 2 * K <= 256 ^ Z.of_nat L.
Proof.
  intro Hp. destruct Hshape as (_ & Hp' & _).
  unfold block_size. rewrite pow256.
  replace (8 * Z.of_nat L) with ((8 * Z.of_nat L - p) + p) at 2 by lia.
  rewrite Z.pow_add_r by lia.
  assert (0 < 2 ^ (8 * Z.of_nat L - p)) by (apply Z.pow_pos_nonneg; lia).
  assert (2 ^ 1 <= 2 ^ p) by (apply Z.pow_le_mono_r; lia).
  change (2 ^ 1) with 2 in *. nia.
Qed.

(** with a prefix of at least one bit, the candidate after the last
    number of the range is outside the block *)
Lemma cand_exit :
  1 <= p -> Contains n (increments (Z.to_nat (K - 1)) start) = false.
Proof.
  intro Hp.
  destruct (shape_facts ip n L p Hshape) as (Hl & _ & Hok & Hfit & _).
  pose proof (ip_val_range _ Hok) as R.
  pose proof (block_size_pos ip n L p Hshape) as HK.
  pose proof (size_doubles Hp) as H2.
  destruct (Contains n (increments (Z.to_nat (K - 1)) start)) eqn:HC; auto.
  exfalso.
  apply (Contains_in_range ip n L p Hshape) in HC;
    auto using cand_length, cand_bytes_ok.
  rewrite cand_val_mod in HC.
  replace (ip_val net + 1 + Z.of_nat (Z.to_nat (K - 1)))
    with (ip_val net + K) in HC by lia.
  destruct (Z.eq_dec (ip_val net + K) (256 ^ Z.of_nat L)) as [E|E].
  - rewrite E, Z_mod_same_full in HC. lia.
  - rewrite Z.mod_small in HC by lia. lia.
Qed.

(** every address of the range above the network address is a candidate *)
Lemma range_is_candidate (b : IP) :
  length b = L -> bytes_ok b ->
  ip_val net < ip_val b < ip_val net + K ->
  exists j, Z.of_nat j = ip_val b - ip_val net - 1
            /\ b = increments j start.
Proof.
  intros Hb Hbo Hr.
  exists (Z.to_nat (ip_val b - ip_val net - 1)). split; [lia|].
  apply ip_val_inj; auto using cand_bytes_ok.
  - rewrite cand_length. exact Hb.
  - rewrite cand_val by lia. lia.
Qed.

(** with a prefix of at least one bit the scan stops, and before it stops
    it has only seen numbers above the network address *)
Lemma block_scan_stops (taken : nat -> string -> bool) (i : nat) :
  1 <= p ->
  exists k r, Z.of_nat k <= K - 1 /\ stops_at taken n start i k r.
Proof.
  intro Hp.
  pose proof (block_size_pos ip n L p Hshape) as HK.
  destruct (stops_within taken n _ _ i (cand_exit Hp)) as (j & r & Hj & Hs).
  exists j, r. split; [lia|exact Hs].
Qed.

End BlockScan.

(** ** The prefix length of a parsed block *)

Lemma isZeros_repeat0 (l : nat) : isZeros (repeat 0 l) = true.
Proof. induction l; cbn; auto. Qed.

Lemma leading_ones_acc (fuel : nat) :
  forall v acc,
    leading_ones fuel v acc
    = (acc + fst (leading_ones fuel v 0), snd (leading_ones fuel v 0)).
Proof.
  induction fuel as [|fuel IH]; intros v acc; cbn [leading_ones].
  - cbn. f_equal. lia.
  - destruct (negb (Z.land v 128 =? 0)).
    + rewrite IH, (IH _ (0 + 1)). cbn [fst snd]. f_equal. lia.
    + cbn. f_equal. lia.
Qed.

Lemma leading_ones_mask (p acc : Z) :
  0 <= p < 8 ->
  leading_ones 8 (255 - Z.shiftr 255 p) acc = (acc + p, 0)
  /\ (255 - Z.shiftr 255 p =? 255) = false.
Proof.
  intro Hp. rewrite leading_ones_acc.
  assert (p = 0 \/ p = 1 \/ p = 2 \/ p = 3 \/ p = 4 \/ p = 5 \/ p = 6 \/ p = 7)
    as H by lia.
  repeat (destruct H as [->|H]); try subst p; split; reflexivity.
Qed.

Lemma simpleMaskLength_from_CIDRMask (L : nat) :
  forall p acc, 0 <= p <= 8 * Z.of_nat L ->
                simpleMaskLength_from (CIDRMask_loop L p) acc = acc + p.
Proof.
  induction L as [|L IH]; intros p acc Hp.
  - cbn in *. lia.
  - cbn [CIDRMask_loop]. destruct (8 <=? p) eqn:E8.
    + apply Z.leb_le in E8. cbn [simpleMaskLength_from].
      change (255 =? 255) with true. cbv iota. rewrite IH by lia. lia.
    + apply Z.leb_gt in E8. cbn [simpleMaskLength_from].
      destruct (leading_ones_mask p acc ltac:(lia)) as [-> ->].
      change (0 =? 0) with true. cbn [negb].
      rewrite CIDRMask_loop_zero, isZeros_repeat0. reflexivity.
Qed.

Lemma prefix_len_shape (ip : IP) (n : IPNet) (L : nat) (p : Z) :
  block_shape ip n L p -> prefix_len n = p.
Proof.
  intros (_ & Hp & Hm & _). unfold prefix_len, simpleMaskLength.
  rewrite Hm. apply simpleMaskLength_from_CIDRMask, Hp.
Qed.

(** ** The smallest free address *)

Section Smallest.

Variables (ip : IP) (n : IPNet) (L : nat) (p : Z).
Hypothesis Hshape : block_shape ip n L p.
Variable taken : string -> bool.

Local Abbreviation net := (IPNet_IP n).
Local Abbreviation K := (block_size L p).
Local Abbreviation start := (incrementIP (IPNet_IP n)).

Lemma block_scan_smallest :
  1 <= p -> covers_mapped n = false ->
  exists k r, stops_at (fun _ => taken) n start O k r
              /\ smallest_free_or_exhausted n taken r.
Proof.
  intros Hp Hcov.
  destruct (shape_facts ip n L p Hshape) as (Hl & _ & Hok & Hfit & _).
  destruct (block_scan_stops ip n L p Hshape (fun _ => taken) O Hp)
    as (k & r & Hk & Hs).
  exists k, r. split; [exact Hs|].
  destruct (stops_at_inv_const _ _ _ _ _ _ Hs) as [Hprev Hend].
  pose proof (cand_exit ip n L p Hshape Hp) as Hexit.
  (* a free address is a candidate the scan has not passed *)
  assert (Hfree : forall b, free_in n taken b ->
            exists j, (k <= j)%nat /\ Z.of_nat j < K - 1
                      /\ ip_val b = ip_val net + 1 + Z.of_nat j).
  { intros b (Hbl & Hbo & Hgt & HbC & HbT). rewrite Hl in Hbl.
    pose proof (Contains_in_range ip n L p Hshape b Hbl Hbo HbC) as Hr.
    destruct (range_is_candidate ip n L p Hshape b Hbl Hbo ltac:(lia))
      as (j & Hj & ->).
    exists j. split; [|lia].
    destruct (Nat.le_gt_cases k j) as [|Hlt]; [assumption|].
    destruct (Hprev j Hlt) as [_ HT]. congruence. }
  destruct Hend as [(HC & HT & ->)|(HC & ->)].
  - left. exists (increments k start).
    assert (Hlt : Z.of_nat k < K - 1).
    { destruct (Z.eq_dec (Z.of_nat k) (K - 1)) as [E|E]; [|lia].
      rewrite <- E, Nat2Z.id in Hexit. congruence. }
    pose proof (cand_val ip n L p Hshape k Hlt) as Hv.
    split; [reflexivity|]. split.
    + unfold free_in. rewrite Hl, Hv.
      split; [apply (cand_length ip n L p Hshape)|].
      split; [apply (cand_bytes_ok ip n L p Hshape)|].
      split; [lia|]. split; assumption.
    + intros b Hb. destruct (Hfree b Hb) as (j & Hkj & _ & ->). lia.
  - right. split; [reflexivity|].
    intros b Hb. destruct (Hfree b Hb) as (j & Hkj & Hj & _).
    assert (Contains n (increments k start) = true); [|congruence].
    apply (Contains_range ip n L p Hshape); auto.
    + apply (cand_length ip n L p Hshape).
    + apply (cand_bytes_ok ip n L p Hshape).
    + rewrite (cand_val ip n L p Hshape) by lia. lia.
Qed.

End Smallest.

Lemma scan_block_parsed (fuel : nat) (taken : nat -> string -> bool)
  (cidr : string) (ip : IP) (n : IPNet) :
  ParseCIDR cidr = Some (ip, n) ->
  scan_block fuel taken cidr
  = scan fuel taken n (incrementIP (IPNet_IP n)) O.
Proof.
  intro H. unfold scan_block. rewrite H.
  destruct (ParseCIDR_shape _ _ _ H) as (L & p & Hs).
  rewrite (start_is_first ip n L p Hs). reflexivity.
Qed.

Lemma Scanner_parsed (fuel : nat) (taken : string -> bool) (cidr : string)
  (ip : IP) (n : IPNet) :
  ParseCIDR cidr = Some (ip, n) ->
  Scanner fuel taken cidr
  = scan fuel (fun _ => taken) n (incrementIP (IPNet_IP n)) O.
Proof. apply scan_block_parsed. Qed.

(** without a failing query, [findAvailableIP] is the Scanner over the
    answers of the store *)
Lemma findAvailableIP_Scanner (fuel : nat) (cidr tenantName : string)
  (db : DB) :
  findAvailableIP fuel no_fault cidr tenantName db
  = Scanner fuel (fun s => isIPReserved false s cidr tenantName db) cidr.
Proof. reflexivity. Qed.

Lemma Scanner_returns_stop (taken : string -> bool) (cidr : string)
  (ip : IP) (n : IPNet) (k : nat) (r : string * bool) :
  ParseCIDR cidr = Some (ip, n) ->
  stops_at (fun _ => taken) n (incrementIP (IPNet_IP n)) O k r ->
  Scanner_returns taken cidr r.
Proof.
  intros H Hs. exists (S k). intros fuel Hf.
  rewrite (Scanner_parsed _ _ _ _ _ H).
  apply (scan_complete _ _ _ _ _ _ Hs). lia.
Qed.

(** the whole IPv4 space, with every address taken: the loop runs on *)
Lemma scan_slash0_runs_on (fuel : nat) :
  forall c i, length c = 4%nat ->
              scan fuel (fun _ _ => true)
                (mkIPNet [0; 0; 0; 0] [0; 0; 0; 0]) c i
              = None.
Proof.
  induction fuel as [|fuel IH]; intros c i Hc; [reflexivity|].
  cbn [scan]. rewrite Contains_len4 by auto.
  change (IPNet_IP _) with (repeat 0 4) at 1.
  cbn [IPNet_IP IPNet_Mask].
  change [0; 0; 0; 0] with (repeat 0 4). rewrite <- Hc at 2.
  rewrite same_masked_zeros by (rewrite Hc; reflexivity).
  cbn [negb]. apply IH. rewrite incrementIP_length. exact Hc.
Qed.

(** C1 (amended).  For every valid block with a prefix of at least one
    bit whose range [Contains] accepts in full (every IPv4 block; an IPv6
    block unless it covers the IPv4-mapped addresses without being one of
    their networks), and for every is-taken predicate, the Scanner returns
    the numerically smallest address that is strictly greater than the
    block's network address, contained in the block and reported as not
    taken; if the block has no such address it reports exhaustion. *)
Theorem C1_scanner_smallest_free (cidr : string) (ip : IP) (n : IPNet)
  (taken : string -> bool) :
  ParseCIDR cidr = Some (ip, n) ->
  1 <= prefix_len n ->
  covers_mapped n = false ->
  exists r, Scanner_returns taken cidr r
            /\ smallest_free_or_exhausted n taken r.
Proof.
  intros HP Hp Hcov.
  destruct (ParseCIDR_shape _ _ _ HP) as (L & p & Hs).
  rewrite (prefix_len_shape _ _ _ _ Hs) in Hp.
  destruct (block_scan_smallest ip n L p Hs taken Hp Hcov) as (k & r & Hst & Hr).
  exists r. split; [|exact Hr].
  eapply Scanner_returns_stop; eassumption.
Qed.

Lemma C1_scanner_smallest_free_witness :
  exists r,
    Scanner_returns (fun s => String.eqb s "10.0.0.1") "10.0.0.0/30" r
    /\ smallest_free_or_exhausted
         (mkIPNet [10; 0; 0; 0] [255; 255; 255; 252])
         (fun s => String.eqb s "10.0.0.1") r.
Proof.
  apply (C1_scanner_smallest_free "10.0.0.0/30" (IPv4 10 0 0 0)).
  - reflexivity.
  - vm_compute. discriminate.
  - reflexivity.
Defined.

(** On the block 0.0.0.0/0 with every address taken, the block has no
    free address, yet the Scanner never reports exhaustion, because no
    increment ever leaves the block. *)
Lemma whole_space_never_exhausted :
  exists ip n,
    ParseCIDR "0.0.0.0/0" = Some (ip, n)
    /\ ~ exists r, Scanner_returns (fun _ => true) "0.0.0.0/0" r
                   /\ smallest_free_or_exhausted n (fun _ => true) r.
Proof.
  exists (IPv4 0 0 0 0), (mkIPNet [0; 0; 0; 0] [0; 0; 0; 0]).
  split; [reflexivity|].
  intros (r & (fuel0 & Hf) & _).
  specialize (Hf fuel0 (Nat.le_refl _)).
  rewrite (Scanner_parsed fuel0 (fun _ => true) "0.0.0.0/0" (IPv4 0 0 0 0)
             (mkIPNet [0; 0; 0; 0] [0; 0; 0; 0]) eq_refl) in Hf.
  rewrite scan_slash0_runs_on in Hf by reflexivity. discriminate.
Qed.

(** The second way the unrestricted claim fails.  The network ::/1 has a
    prefix of one bit and covers the IPv4-mapped addresses; [Contains]
    rejects ::ffff:0:0 and accepts 0:1::, which lies beyond it; and the
    scan ends at ::ffff:0:0 at the latest, whatever is taken. *)
Lemma scan_ends_at_mapped_addresses (taken : nat -> string -> bool) :
  let n := mkIPNet (repeat 0 16) (128 :: repeat 0 15) in
  ParseCIDR "::/1" = Some (repeat 0 16, n)
  /\ prefix_len n = 1
  /\ covers_mapped n = true
  /\ Contains n (IPv4 0 0 0 0) = false
  /\ Contains n (0 :: 1 :: repeat 0 14) = true
  /\ exists k r, Z.of_nat k < 65535 * 2 ^ 32
                 /\ stops_at taken n (incrementIP (repeat 0 16)) O k r.
Proof.
  intro n.
  split; [reflexivity|]. split; [reflexivity|]. split; [reflexivity|].
  split; [reflexivity|]. split; [reflexivity|].
  set (start := incrementIP (repeat 0 16)).
  assert (Hs : bytes_ok start).
  { apply incrementIP_bytes_ok, (bytes_ok_repeat0 16). }
  remember (Z.to_nat (65535 * 2 ^ 32 - 1)) as k0 eqn:Ek.
  assert (Hk : Z.of_nat k0 = 65535 * 2 ^ 32 - 1) by (subst k0; lia).
  clear Ek.
  assert (E : increments k0 start = IPv4 0 0 0 0).
  { apply ip_val_inj.
    - rewrite increments_length. reflexivity.
    - apply increments_bytes_ok, Hs.
    - unfold IPv4, v4InV6Prefix. cbn [app]. solve_bytes.
    - rewrite increments_val by exact Hs.
      change (ip_val start) with 1. change (length start) with 16%nat.
      rewrite Hk. reflexivity. }
  assert (HC : Contains n (increments k0 start) = false)
    by (rewrite E; reflexivity).
  destruct (stops_within taken n k0 start O HC) as (j & r & Hj & Hst).
  exists j, r. split; [lia|exact Hst].
Qed.

(** ** The whole IPv4 space *)

Lemma uitoa_head (x : Z) :
  is_byte x ->
  exists c u, uitoa x = String c u /\ (x = 0 \/ c <> "0"%char).
Proof.
  intro Hx.
  assert (C : uitoa_head_check = true) by (vm_compute; reflexivity).
  unfold uitoa_head_check in C. rewrite forallb_forall in C.
  specialize (C x (in_all_bytes x Hx)).
  destruct (uitoa x) as [|c u]; [discriminate|].
  exists c, u. split; [reflexivity|].
  apply orb_true_iff in C as [C|C].
  - left. apply Z.eqb_eq, C.
  - right. apply negb_true_iff, Ascii.eqb_neq in C. exact C.
Qed.

(** a byte whose text, followed by [rest], starts with "0" and goes on
    with [t], is the byte 0, and [rest] is [t] *)
Lemma uitoa_zero_prefix (x : Z) (rest t : string) :
  is_byte x ->
  (uitoa x ++ rest)%string = String "0" t -> x = 0 /\ rest = t.
Proof.
  intros Hx H. destruct (uitoa_head x Hx) as (c & u & E & Hc).
  rewrite E in H. cbn [append] in H. injection H as Hc0 Hu.
  destruct Hc as [->|Hc]; [|congruence].
  change (uitoa 0) with "0"%string in E. injection E as _ <-.
  split; [reflexivity|exact Hu].
Qed.

Lemma uitoa_zero (x : Z) : is_byte x -> uitoa x = "0"%string -> x = 0.
Proof.
  intros Hx H. destruct (uitoa_head x Hx) as (c & u & E & [->|Hc]);
    [reflexivity|].
  rewrite E in H. injection H as Hc0 _. congruence.
Qed.

(** only 0.0.0.0 prints as "0.0.0.0" *)
Lemma dotted_zero (a : IP) :
  length a = 4%nat -> bytes_ok a ->
  IP_String a = "0.0.0.0"%string -> a = [0; 0; 0; 0].
Proof.
  intros Ha Hb. explode a. unfold bytes_ok in Hb.
  repeat match goal with
         | H : Forall is_byte (_ :: _) |- _ =>
             let Hh := fresh "Hb" in
             inversion H as [|? ? Hh ?]; clear H; subst
         end.
  change (IP_String [b; b0; b1; b2])
    with (uitoa b ++ String "." (uitoa b0 ++ String "." (uitoa b1
            ++ String "." (uitoa b2))))%string.
  intro H.
  apply uitoa_zero_prefix in H as [-> H]; [|assumption]. injection H as H.
  apply uitoa_zero_prefix in H as [-> H]; [|assumption]. injection H as H.
  apply uitoa_zero_prefix in H as [-> H]; [|assumption]. injection H as H.
  apply uitoa_zero in H; [|assumption]. subst. reflexivity.
Qed.

(** a run of taken candidates inside the block, then a stop *)
Lemma stops_at_after_run (taken : nat -> string -> bool) (n : IPNet)
  (k : nat) :
  forall ip i r,
    (forall j, (j < k)%nat ->
       Contains n (increments j ip) = true
       /\ taken (i + j)%nat (IP_String (increments j ip)) = true) ->
    stops_at taken n (increments k ip) (i + k) O r ->
    stops_at taken n ip i k r.
Proof.
  induction k as [|k IH]; intros ip i r Hrun Hstop.
  - rewrite Nat.add_0_r in Hstop. exact Hstop.
  - destruct (Hrun O ltac:(lia)) as [HC HT]. rewrite Nat.add_0_r in HT.
    apply stop_next; [exact HC|exact HT|].
    apply IH.
    + intros j Hj. rewrite Nat.add_succ_comm. apply (Hrun (S j)). lia.
    + rewrite Nat.add_succ_comm. exact Hstop.
Qed.

Lemma Scanner_returns_unique (taken : string -> bool) (cidr : string)
  (r r' : string * bool) :
  Scanner_returns taken cidr r -> Scanner_returns taken cidr r' -> r = r'.
Proof.
  intros [f Hf] [f' Hf'].
  specialize (Hf (Nat.max f f') (Nat.le_max_l _ _)).
  specialize (Hf' (Nat.max f f') (Nat.le_max_r _ _)).
  congruence.
Qed.

(** In 0.0.0.0/0 with every address but 0.0.0.0 taken, the scan passes
    255.255.255.255, wraps, and returns the network address itself. *)
Lemma scan_slash0_returns_network :
  let taken := fun s => negb (String.eqb s "0.0.0.0") in
  exists k,
    Z.of_nat k = 2 ^ 32 - 1
    /\ stops_at (fun _ => taken) (mkIPNet [0; 0; 0; 0] [0; 0; 0; 0])
         [0; 0; 0; 1] O k ("0.0.0.0"%string, true).
Proof.
  intro taken. set (n := mkIPNet [0; 0; 0; 0] [0; 0; 0; 0]).
  assert (HC : forall c, length c = 4%nat -> Contains n c = true).
  { intros c Hc. rewrite Contains_len4 by auto. cbn [n IPNet_IP IPNet_Mask].
    change [0; 0; 0; 0] with (repeat 0 4) at 2. rewrite <- Hc.
    apply same_masked_zeros. rewrite Hc. reflexivity. }
  assert (Hs : bytes_ok [0; 0; 0; 1]) by solve_bytes.
  remember (Z.to_nat (2 ^ 32 - 1)) as k0 eqn:Ek.
  assert (Hk : Z.of_nat k0 = 2 ^ 32 - 1) by (subst k0; lia).
  clear Ek. exists k0. split; [exact Hk|].
  assert (Hval : forall j, ip_val (increments j [0; 0; 0; 1])
                           = (1 + Z.of_nat j) mod 2 ^ 32).
  { intro j. rewrite increments_val by exact Hs. reflexivity. }
  apply stops_at_after_run.
  - intros j Hj. split; [apply HC, increments_length|].
    unfold taken. apply negb_true_iff.
    destruct (String.eqb_spec (IP_String (increments j [0; 0; 0; 1]))
                "0.0.0.0") as [E|E]; [|reflexivity].
    exfalso. apply dotted_zero in E;
      [|apply increments_length|apply increments_bytes_ok, Hs].
    pose proof (Hval j) as V. rewrite E in V.
    change (ip_val [0; 0; 0; 0]) with 0 in V.
    rewrite Z.mod_small in V by lia. lia.
  - assert (E : increments k0 [0; 0; 0; 1] = [0; 0; 0; 0]).
    { apply ip_val_inj;
        [rewrite increments_length; reflexivity
        |apply increments_bytes_ok, Hs|solve_bytes|].
      rewrite Hval, Hk.
      replace (1 + (2 ^ 32 - 1)) with (2 ^ 32) by lia.
      rewrite Z_mod_same_full. reflexivity. }
    rewrite E. apply (stop_found (fun _ => taken) n [0; 0; 0; 0]);
      [|reflexivity].
    apply HC. reflexivity.
Qed.

(** C1, as stated, fails on the block 0.0.0.0/0 in a second way: with
    every address but 0.0.0.0 taken, the block has no free address above
    its network address, yet the Scanner returns an address, the network
    address 0.0.0.0 itself. *)
Lemma C1_counterexample_returns_network_address :
  let taken := fun s => negb (String.eqb s "0.0.0.0") in
  exists ip n,
    ParseCIDR "0.0.0.0/0" = Some (ip, n)
    /\ Scanner_returns taken "0.0.0.0/0" (IP_String (IPNet_IP n), true)
    /\ (forall b, ~ free_in n taken b)
    /\ ~ exists r, Scanner_returns taken "0.0.0.0/0" r
                   /\ smallest_free_or_exhausted n taken r.
Proof.
  intro taken.
  exists (IPv4 0 0 0 0), (mkIPNet [0; 0; 0; 0] [0; 0; 0; 0]).
  assert (HP : ParseCIDR "0.0.0.0/0"
               = Some (IPv4 0 0 0 0, mkIPNet [0; 0; 0; 0] [0; 0; 0; 0]))
    by reflexivity.
  assert (Hret : Scanner_returns taken "0.0.0.0/0" ("0.0.0.0"%string, true)).
  { destruct scan_slash0_returns_network as (k & _ & Hk).
    apply (Scanner_returns_stop _ _ _ _ k _ HP). exact Hk. }
  assert (Hnone : forall b,
             ~ free_in (mkIPNet [0; 0; 0; 0] [0; 0; 0; 0]) taken b).
  { intros b (Hl & Hb & Hgt & _ & HT). cbn [IPNet_IP] in Hl, Hgt.
    unfold taken in HT. apply negb_false_iff, String.eqb_eq in HT.
    apply dotted_zero in HT; auto. subst b.
    change (ip_val [0; 0; 0; 0]) with 0 in Hgt. lia. }
  split; [exact HP|]. split; [exact Hret|]. split; [exact Hnone|].
  intros (r & Hr & [(a & _ & Ha & _)|(E & _)]).
  - exact (Hnone a Ha).
  - pose proof (Scanner_returns_unique _ _ _ _ Hr Hret). congruence.
Qed.

(** ** Leaving the block *)

Section Leaving.

Variables (ip : IP) (n : IPNet) (L : nat) (p : Z).
Hypothesis Hshape : block_shape ip n L p.

Local Abbreviation net := (IPNet_IP n).
Local Abbreviation K := (block_size L p).


End Leaving.

(** a run of the recording loop is a run of the scan from the network
    address incremented by one *)
Lemma scan_block_log_run (cidr : string) (ip : IP) (n : IPNet)
  (taken : nat -> string -> bool) :
  ParseCIDR cidr = Some (ip, n) ->
  (forall f, scan_block_log f taken cidr
             = scan_log f taken n (incrementIP (IPNet_IP n)) O [])
  /\ forall fuel s ok queried,
       scan_block_log fuel taken cidr = Some (s, ok, queried) ->
       exists k, (k < fuel)%nat
                 /\ stops_at taken n (incrementIP (IPNet_IP n)) O k (s, ok)
                 /\ queried = queried_upto (incrementIP (IPNet_IP n)) k ok.
Proof.
  intro HP.
  destruct (ParseCIDR_shape _ _ _ HP) as (L & p & Hs).
  assert (Hlog : forall f, scan_block_log f taken cidr
                 = scan_log f taken n (incrementIP (IPNet_IP n)) O []).
  { intro f. unfold scan_block_log. rewrite HP, (start_is_first ip n L p Hs).
    reflexivity. }
  split; [exact Hlog|].
  intros fuel s ok queried Hrun. rewrite Hlog in Hrun.
  apply scan_log_sound in Hrun as (k & Hk & Hst & ->). eauto.
Qed.

(** C10.  For every parseable CIDR block whose prefix length is at least
    1, repeated increment from the network address reaches, without
    wrapping around, an address that the block does not contain, and so
    findAvailableIP returns for every is-taken predicate, with a free
    address of the block or with exhaustion, and for every store,
    whichever of its queries fail. *)
Theorem C10_scan_terminates (cidr : string) (ip : IP) (n : IPNet) :
  ParseCIDR cidr = Some (ip, n) ->
  1 <= prefix_len n ->
  (exists k,
      Contains n (increments (S k) (IPNet_IP n)) = false
      /\ forall j, (j < k)%nat ->
           ip_val (increments (S j) (IPNet_IP n))
           = ip_val (IPNet_IP n) + 1 + Z.of_nat j)
  /\ (forall taken,
        exists r, Scanner_returns taken cidr r
                  /\ (r = (EmptyString, false)
                      \/ exists a, r = (IP_String a, true)
                                   /\ Contains n a = true
                                   /\ taken (IP_String a) = false))
  /\ (forall qfault tenantName db,
        exists r fuel0, forall fuel, (fuel0 <= fuel)%nat ->
          findAvailableIP fuel qfault cidr tenantName db = Some r).
Proof.
  intros HP Hp.
  destruct (ParseCIDR_shape _ _ _ HP) as (L & p & Hs).
  rewrite (prefix_len_shape _ _ _ _ Hs) in Hp.
  pose proof (block_size_pos ip n L p Hs) as HK.
  assert (Hsc : forall taken,
            exists r, Scanner_returns taken cidr r
                      /\ (r = (EmptyString, false)
                          \/ exists a, r = (IP_String a, true)
                                       /\ Contains n a = true
                                       /\ taken (IP_String a) = false)).
  { intro taken.
    destruct (block_scan_stops ip n L p Hs (fun _ => taken) O Hp)
      as (k & r & _ & Hst).
    exists r. split; [eapply Scanner_returns_stop; eassumption|].
    destruct (stops_at_inv_const _ _ _ _ _ _ Hst)
      as [_ [(HC & HT & ->)|(HC & ->)]];
      [right; eauto|left; reflexivity]. }
  split; [|split; [exact Hsc|]].
  - exists (Z.to_nat (block_size L p - 1)). split.
    + apply (cand_exit ip n L p Hs Hp).
    + intros j Hj. apply (cand_val ip n L p Hs). lia.
  - intros qfault tenantName db.
    destruct (block_scan_stops ip n L p Hs
                (fun i s => isIPReserved (qfault i) s cidr tenantName db)
                O Hp) as (k & r & _ & Hst).
    exists r, (S k). intros fuel Hf.
    unfold findAvailableIP. rewrite (scan_block_parsed _ _ _ _ _ HP).
    apply (scan_complete _ _ _ _ _ _ Hst). lia.
Qed.

Lemma C10_scan_terminates_witness :
  (exists k,
      Contains (mkIPNet [10; 0; 0; 0] [255; 255; 255; 252])
               (increments (S k) [10; 0; 0; 0]) = false
      /\ forall j, (j < k)%nat ->
           ip_val (increments (S j) [10; 0; 0; 0])
           = ip_val [10; 0; 0; 0] + 1 + Z.of_nat j)
  /\ (forall taken,
        exists r, Scanner_returns taken "10.0.0.0/30" r
                  /\ (r = (EmptyString, false)
                      \/ exists a, r = (IP_String a, true)
                                   /\ Contains (mkIPNet [10; 0; 0; 0]
                                                  [255; 255; 255; 252]) a = true
                                   /\ taken (IP_String a) = false))
  /\ (forall qfault tenantName db,
        exists r fuel0, forall fuel, (fuel0 <= fuel)%nat ->
          findAvailableIP fuel qfault "10.0.0.0/30" tenantName db = Some r).
Proof.
  apply (C10_scan_terminates "10.0.0.0/30" (IPv4 10 0 0 0)
           (mkIPNet [10; 0; 0; 0] [255; 255; 255; 252])).
  - reflexivity.
  - vm_compute. discriminate.
Defined.

(** the last address of a /24 and its increment: 10.0.0.255 goes to
    10.0.1.0 and 255.255.255.255 wraps to 0.0.0.0, both outside their
    block, so the scan ends before either is handed to the predicate *)
Example last_of_slash24 :
  incrementIP [10; 0; 0; 255] = [10; 0; 1; 0]
  /\ Contains (mkIPNet [10; 0; 0; 0] [255; 255; 255; 0]) [10; 0; 0; 255] = true
  /\ Contains (mkIPNet [10; 0; 0; 0] [255; 255; 255; 0]) [10; 0; 1; 0] = false
  /\ incrementIP [255; 255; 255; 255] = [0; 0; 0; 0]
  /\ Contains (mkIPNet [255; 255; 255; 0] [255; 255; 255; 0]) [0; 0; 0; 0]
     = false
  /\ option_map (fun x => List.last (snd x) [])
       (scan_block_log 300 (fun _ _ => true) "255.255.255.0/24")
     = Some [255; 255; 255; 255]
  /\ Scanner 300 (fun _ => true) "255.255.255.0/24" = Some (EmptyString, false).
Proof. repeat split; vm_compute; reflexivity. Qed.




(** C7.  incrementIP maps an address of n bytes, for every n and so for 4
    and for 16, to the big-endian bytes of (value + 1) mod 2^(8n); and the
    first candidate of the Scanner is the block's network address
    incremented by one. *)
Theorem C7_increment_big_endian (a : IP) (cidr : string) (ip : IP)
  (n : IPNet) (taken : nat -> string -> bool) (fuel : nat) :
  bytes_ok a ->
  ParseCIDR cidr = Some (ip, n) ->
  (length (incrementIP a) = length a
   /\ bytes_ok (incrementIP a)
   /\ ip_val (incrementIP a)
      = (ip_val a + 1) mod 2 ^ (8 * Z.of_nat (length a)))
  /\ scan_block fuel taken cidr
     = scan fuel taken n (incrementIP (IPNet_IP n)) O
  /\ (forall s ok q queried,
        scan_block_log fuel taken cidr = Some (s, ok, q :: queried) ->
        q = incrementIP (IPNet_IP n))
  /\ ip_val (incrementIP (IPNet_IP n))
     = (ip_val (IPNet_IP n) + 1) mod 2 ^ (8 * Z.of_nat (length (IPNet_IP n))).
Proof.
  intros Ha HP.
  split; [|split; [|split]].
  - rewrite <- pow256.
    auto using incrementIP_length, incrementIP_bytes_ok, incrementIP_val.
  - apply (scan_block_parsed _ _ _ _ _ HP).
  - intros s ok q queried Hrun.
    destruct (scan_block_log_run _ _ _ taken HP) as [_ Hsound].
    apply Hsound in Hrun as (k & _ & _ & E).
    unfold queried_upto in E.
    destruct ok; [|destruct k; [discriminate|]];
      cbn [seq map increments] in E; injection E as E _; exact E.
  - destruct (ParseCIDR_shape _ _ _ HP) as (L & p & Hs).
    destruct (shape_facts ip n L p Hs) as (_ & _ & Hok & _).
    rewrite <- pow256. apply incrementIP_val, Hok.
Qed.

Lemma C7_increment_big_endian_witness :
  ip_val (incrementIP [10; 0; 0; 255]) = (ip_val [10; 0; 0; 255] + 1) mod 2 ^ 32
  /\ ip_val (incrementIP (repeat 255 16)) = 0.
Proof.
  split.
  - apply (C7_increment_big_endian [10; 0; 0; 255] "10.0.0.0/24"
             (IPv4 10 0 0 0) (mkIPNet [10; 0; 0; 0] [255; 255; 255; 0])
             (fun _ _ => true) 1).
    + unfold bytes_ok, is_byte. repeat constructor; lia.
    + reflexivity.
  - reflexivity.
Defined.

(** ** The store *)

Lemma eqb_empty_false (ip : string) :
  ip <> EmptyString -> String.eqb EmptyString ip = false.
Proof. destruct ip; [congruence|reflexivity]. Qed.

Lemma append_nonempty (s t : string) :
  t <> EmptyString -> (s ++ t)%string <> EmptyString.
Proof.
  intro H. destruct s; cbn [append]; [exact H|discriminate].
Qed.

(** no address prints as the empty string *)
Lemma IP_String_nonempty (a : IP) : IP_String a <> EmptyString.
Proof.
  unfold IP_String.
  destruct (Nat.eqb (length a) 0); [discriminate|].
  destruct (Nat.eqb (length (To4 a)) IPv4len).
  { unfold dotted. apply append_nonempty. discriminate. }
  destruct (negb _); [discriminate|].
  destruct (longest_zero_run 8 a 0 (-1) (-1)) as [e0 e1].
  destruct (if e1 - e0 <=? 2 then _ else _) as [f0 f1].
  cbn [print_groups]. change (Nat.ltb 0 IPv6len) with true. cbv iota.
  destruct (Z.of_nat 0 =? f0).
  { destruct (Nat.leb IPv6len (Z.to_nat f1)); discriminate. }
  change (Nat.ltb 0 0) with false. cbv iota.
  cbn [append]. apply append_nonempty.
  change (Nat.ltb (0 + 2) IPv6len) with true. cbv iota.
  destruct (Z.of_nat (0 + 2) =? f0).
  { destruct (Nat.leb IPv6len (Z.to_nat f1)); discriminate. }
  change (Nat.ltb 0 (0 + 2)) with true. cbv iota. discriminate.
Qed.

(** what the existence check answers when its query goes through, for an
    address that is not the empty string *)
Lemma isIPReserved_spec (ip cidr tenantName : string) (db : DB) :
  ip <> EmptyString ->
  (isIPReserved false ip cidr tenantName db = true <->
   exists r, In r (ips db) /\ row_cidr r = cidr /\ row_ip_address r = ip
             /\ (tenantName = EmptyString \/ row_tenant_name r = tenantName)).
Proof.
  intro Hip. unfold isIPReserved, select_reserved.
  set (f := fun r : Row => _).
  assert (Hf : forall r, f r = true <->
             row_cidr r = cidr /\ row_ip_address r = ip
             /\ (tenantName = EmptyString \/ row_tenant_name r = tenantName)).
  { intro r. unfold f. rewrite !andb_true_iff, !String.eqb_eq.
    destruct (String.eqb_spec tenantName EmptyString) as [E|E]; cbn [negb].
    - intuition.
    - rewrite String.eqb_eq. intuition. }
  destruct (filter f (ips db)) as [|r0 rest] eqn:E; cbn [map].
  - rewrite eqb_empty_false by exact Hip. split; [discriminate|].
    intros (r & Hin & Hr). exfalso.
    assert (In r (filter f (ips db))) as Hin'
      by (apply filter_In; split; [exact Hin|apply Hf, Hr]).
    rewrite E in Hin'. exact Hin'.
  - assert (In r0 (filter f (ips db))) as Hin by (rewrite E; left; reflexivity).
    apply filter_In in Hin as [Hin Hr0]. apply Hf in Hr0.
    split.
    + intros _. exists r0. tauto.
    + intros _. apply String.eqb_eq. tauto.
Qed.

(** a query that fails is answered with "not reserved" *)
Lemma isIPReserved_fault (ip cidr tenantName : string) (db : DB) :
  ip <> EmptyString -> isIPReserved true ip cidr tenantName db = false.
Proof. intro H. unfold isIPReserved. apply eqb_empty_false, H. Qed.

(** an answer "reserved" comes from a query that went through *)
Lemma isIPReserved_true (qfault : bool) (ip cidr tenantName : string)
  (db : DB) :
  ip <> EmptyString ->
  isIPReserved qfault ip cidr tenantName db = true ->
  qfault = false /\ isIPReserved false ip cidr tenantName db = true.
Proof.
  intros Hip H. destruct qfault; [|auto].
  rewrite isIPReserved_fault in H by exact Hip. discriminate.
Qed.

(** the answer does not depend on the order of the rows *)
Lemma isIPReserved_existsb (ip cidr tenantName : string) (db : DB) :
  isIPReserved false ip cidr tenantName db
  = existsb (fun r =>
               String.eqb (row_cidr r) cidr
               && String.eqb (row_ip_address r) ip
               && (if negb (String.eqb tenantName "")
                   then String.eqb (row_tenant_name r) tenantName
                   else true)) (ips db)
    || String.eqb EmptyString ip.
Proof.
  unfold isIPReserved, select_reserved.
  set (f := fun r : Row => _).
  induction (ips db) as [|r rows IH]; [reflexivity|].
  cbn [filter existsb]. destruct (f r) eqn:E; [|exact IH].
  cbn [map orb]. unfold f in E.
  rewrite !andb_true_iff in E. tauto.
Qed.

Lemma isIPReserved_any_order (qfault : bool) (ip cidr tenantName : string)
  (db db' : DB) :
  Permutation (ips db) (ips db') ->
  isIPReserved qfault ip cidr tenantName db
  = isIPReserved qfault ip cidr tenantName db'.
Proof.
  intro HP. destruct qfault; [reflexivity|].
  rewrite !isIPReserved_existsb. f_equal.
  apply eq_true_iff_eq. rewrite !existsb_exists.
  split; intros (r & Hin & Hr); exists r; (split; [|exact Hr]).
  - apply (Permutation_in _ HP Hin).
  - apply (Permutation_in _ (Permutation_sym HP) Hin).
Qed.



(** a matching row makes the existence check answer true, if its query
    goes through *)
Lemma isIPReserved_of_row (ip cidr tenantName : string) (db : DB) (r : Row) :
  In r (ips db) -> row_cidr r = cidr -> row_ip_address r = ip ->
  tenantName = EmptyString \/ row_tenant_name r = tenantName ->
  isIPReserved false ip cidr tenantName db = true.
Proof.
  intros Hin Hc Hi Ht. rewrite isIPReserved_existsb.
  apply orb_true_iff. left. apply existsb_exists. exists r.
  split; [exact Hin|].
  rewrite !andb_true_iff, !String.eqb_eq.
  split; [split; assumption|].
  destruct Ht as [->|Ht]; [reflexivity|].
  destruct (negb (String.eqb tenantName EmptyString)); [|reflexivity].
  apply String.eqb_eq, Ht.
Qed.

(** what the check reports as not reserved, its query having gone
    through, has no row under its key *)
Lemma not_reserved_no_key (ip cidr tenantName : string) (db : DB) :
  isIPReserved false ip cidr tenantName db = false ->
  existsb (same_key cidr tenantName ip) (ips db) = false.
Proof.
  intro H. destruct (existsb _ _) eqn:E; [|reflexivity].
  apply existsb_exists in E as (r & Hin & Hk).
  unfold same_key in Hk. rewrite !andb_true_iff, !String.eqb_eq in Hk.
  destruct Hk as [[Hc Ht] Hi].
  rewrite (isIPReserved_of_row ip cidr tenantName db r) in H; auto.
Qed.

(** what findAvailableIP returns is the text of a candidate that the
    block contains, reached over candidates that were contained and
    reported as reserved, and itself reported as not reserved *)
Lemma findAvailableIP_found (fuel : nat) (qfault : nat -> bool)
  (cidr tenantName : string) (db : DB) (s : string) :
  findAvailableIP fuel qfault cidr tenantName db = Some (s, true) ->
  exists ip n k,
    ParseCIDR cidr = Some (ip, n) /\ (k < fuel)%nat
    /\ stops_at (fun i x => isIPReserved (qfault i) x cidr tenantName db) n
         (incrementIP (IPNet_IP n)) O k (s, true)
    /\ s = IP_String (increments k (incrementIP (IPNet_IP n)))
    /\ Contains n (increments k (incrementIP (IPNet_IP n))) = true
    /\ isIPReserved (qfault k) s cidr tenantName db = false.
Proof.
  unfold findAvailableIP. intro H.
  destruct (ParseCIDR cidr) as [[ip n]|] eqn:HP.
  2:{ unfold scan_block in H. rewrite HP in H. discriminate. }
  rewrite (scan_block_parsed _ _ _ _ _ HP) in H.
  apply scan_sound in H as (k & Hk & Hst).
  exists ip, n, k. split; [reflexivity|]. split; [exact Hk|].
  split; [exact Hst|].
  destruct (stops_at_inv _ _ _ _ _ _ Hst) as [_ [(HC & HT & E)|(_ & E)]];
    [|discriminate].
  injection E as ->. cbn beta in HT. auto.
Qed.

(** without a failing query, the address findAvailableIP returns is not
    reserved *)
Lemma findAvailableIP_free (fuel : nat) (qfault : nat -> bool)
  (cidr tenantName : string) (db : DB) (ip : string) :
  (forall i, qfault i = false) ->
  findAvailableIP fuel qfault cidr tenantName db = Some (ip, true) ->
  isIPReserved false ip cidr tenantName db = false.
Proof.
  intros Hq H.
  destruct (findAvailableIP_found _ _ _ _ _ _ H)
    as (_ & _ & k & _ & _ & _ & _ & _ & Hfree).
  rewrite Hq in Hfree. exact Hfree.
Qed.

(** the ways a call of reserveIP can end *)
Lemma reserveIP_cases (fuel : nat) (qfault : nat -> bool)
  (rfault fault : bool) (cidr tenantName purpose : string) (db : DB)
  (s : string) (ok : bool) (err : option error) (db' : DB) :
  reserveIP fuel qfault rfault fault cidr tenantName purpose db
  = Some (s, ok, err, db') ->
  (exists x, findAvailableIP fuel qfault cidr tenantName db = Some (x, false)
             /\ s = EmptyString /\ ok = false
             /\ err = Some ErrNoAvailableIP /\ db' = db)
  \/ exists ip,
       findAvailableIP fuel qfault cidr tenantName db = Some (ip, true)
       /\ ((isIPReserved rfault ip cidr tenantName db = true
            /\ s = EmptyString /\ ok = false
            /\ err = Some ErrAlreadyReserved /\ db' = db)
           \/ (isIPReserved rfault ip cidr tenantName db = false
               /\ ((fault = true /\ s = EmptyString /\ ok = false
                    /\ err = Some ErrStore /\ db' = db)
                   \/ (fault = false
                       /\ existsb (same_key cidr tenantName ip) (ips db)
                          = true
                       /\ s = EmptyString /\ ok = false
                       /\ err = Some ErrUniqueConstraint /\ db' = db)
                   \/ (fault = false
                       /\ existsb (same_key cidr tenantName ip) (ips db)
                          = false
                       /\ s = ip /\ ok = true /\ err = None
                       /\ db' = mkDB (ips db
                                      ++ [mkRow (db_seq db + 1) cidr
                                            tenantName ip purpose])
                                     (db_seq db + 1))))).
Proof.
  unfold reserveIP.
  destruct (findAvailableIP fuel qfault cidr tenantName db)
    as [[ip [|]]|] eqn:E; cbn [negb]; try discriminate.
  - intro H. right. exists ip. split; [reflexivity|].
    destruct (isIPReserved rfault ip cidr tenantName db).
    + injection H as <- <- <- <-. left. auto 6.
    + right. split; [reflexivity|]. unfold exec_insert in H.
      destruct fault.
      * injection H as <- <- <- <-. left. auto 6.
      * destruct (existsb _ _).
        -- injection H as <- <- <- <-. right. left. auto 8.
        -- injection H as <- <- <- <-. right. right. auto 8.
  - intro H. injection H as <- <- <- <-. left. eauto 6.
Qed.

(** the error "IP already reserved": the query of the re-check went
    through and found a row, and the last query of the scan, the one
    about the address returned, had failed *)
Lemma already_reserved_after_failed_query (fuel : nat) (qfault : nat -> bool)
  (rfault : bool) (cidr tenantName : string) (db : DB) (ip : string) :
  findAvailableIP fuel qfault cidr tenantName db = Some (ip, true) ->
  isIPReserved rfault ip cidr tenantName db = true ->
  rfault = false
  /\ isIPReserved false ip cidr tenantName db = true
  /\ exists a n k,
       ParseCIDR cidr = Some (a, n)
       /\ ip = IP_String (increments k (incrementIP (IPNet_IP n)))
       /\ qfault k = true.
Proof.
  intros Hf Hr.
  destruct (findAvailableIP_found _ _ _ _ _ _ Hf)
    as (a & n & k & HP & _ & _ & Hs & _ & Hfree).
  assert (Hne : ip <> EmptyString)
    by (rewrite Hs; apply IP_String_nonempty).
  destruct (isIPReserved_true _ _ _ _ _ Hne Hr) as [-> Hr'].
  split; [reflexivity|]. split; [exact Hr'|].
  exists a, n, k. split; [exact HP|]. split; [exact Hs|].
  destruct (qfault k); [reflexivity|congruence].
Qed.

(** C9 (amended).  As long as no query of the scan fails, the address
    findAvailableIP returns passes the re-check of reserveIP against the
    same store, and reserveIP does not return the error "IP already
    reserved".  The error is returned only when the query of the re-check
    goes through and finds a row for the returned address while the query
    of the scan about that address had failed, and had for that reason
    been answered with "not reserved". *)
Theorem C9_recheck_fires_only_after_failed_query (fuel : nat)
  (qfault : nat -> bool) (cidr tenantName : string) (db : DB) :
  ((forall i, qfault i = false) ->
   (forall ip,
       findAvailableIP fuel qfault cidr tenantName db = Some (ip, true) ->
       isIPReserved false ip cidr tenantName db = false)
   /\ (forall rfault fault purpose s ok err db',
         reserveIP fuel qfault rfault fault cidr tenantName purpose db
         = Some (s, ok, err, db') ->
         err <> Some ErrAlreadyReserved))
  /\ (forall rfault fault purpose s ok db',
        reserveIP fuel qfault rfault fault cidr tenantName purpose db
        = Some (s, ok, Some ErrAlreadyReserved, db') ->
        rfault = false /\ db' = db
        /\ exists ip a n k,
             findAvailableIP fuel qfault cidr tenantName db = Some (ip, true)
             /\ isIPReserved false ip cidr tenantName db = true
             /\ ParseCIDR cidr = Some (a, n)
             /\ ip = IP_String (increments k (incrementIP (IPNet_IP n)))
             /\ qfault k = true).
Proof.
  assert (G : forall rfault fault purpose s ok db',
             reserveIP fuel qfault rfault fault cidr tenantName purpose db
             = Some (s, ok, Some ErrAlreadyReserved, db') ->
             rfault = false /\ db' = db
             /\ exists ip a n k,
                  findAvailableIP fuel qfault cidr tenantName db
                  = Some (ip, true)
                  /\ isIPReserved false ip cidr tenantName db = true
                  /\ ParseCIDR cidr = Some (a, n)
                  /\ ip = IP_String (increments k (incrementIP (IPNet_IP n)))
                  /\ qfault k = true).
  { intros rfault fault purpose s ok db' H.
    destruct (reserveIP_cases _ _ _ _ _ _ _ _ _ _ _ _ H)
      as [(x & _ & _ & _ & E & _)
         |(ip & Hf & [(Hr & _ & _ & _ & Hd)
                     |(_ & [(_ & _ & _ & E & _)
                           |[(_ & _ & _ & _ & E & _)
                            |(_ & _ & _ & _ & E & _)]])])];
      try discriminate.
    destruct (already_reserved_after_failed_query _ _ _ _ _ _ _ Hf Hr)
      as (Hrf & Hr' & a & n & k & HP & Hs & Hq).
    split; [exact Hrf|]. split; [exact Hd|].
    exists ip, a, n, k. auto 6. }
  split; [|exact G].
  intro Hq. split; [intro ip; apply findAvailableIP_free, Hq|].
  intros rfault fault purpose s ok err db' H ->.
  destruct (G _ _ _ _ _ _ H) as (_ & _ & ip & a & n & k & _ & _ & _ & _ & Hk).
  rewrite Hq in Hk. discriminate.
Qed.

Lemma C9_recheck_fires_only_after_failed_query_witness :
  isIPReserved false "10.0.0.2" "10.0.0.0/30" "t"
    (mkDB [mkRow 1 "10.0.0.0/30" "t" "10.0.0.1" "p"] 1) = false.
Proof.
  destruct (C9_recheck_fires_only_after_failed_query 5 no_fault
              "10.0.0.0/30" "t"
              (mkDB [mkRow 1 "10.0.0.0/30" "t" "10.0.0.1" "p"] 1))
    as [H _].
  apply H; [intro i|]; reflexivity.
Defined.

(** C9, as stated, fails: the store holds 10.0.0.1 for the tenant, the
    first query of the scan fails and is answered with "not reserved", so
    findAvailableIP returns 10.0.0.1; the query of the re-check goes
    through and finds the row, and reserveIP returns the error "IP
    already reserved". *)
Lemma C9_counterexample_failed_query :
  let db := mkDB [mkRow 1 "10.0.0.0/30" "t" "10.0.0.1" "p"] 1 in
  let qfault := fun i => Nat.eqb i 0 in
  findAvailableIP 5 qfault "10.0.0.0/30" "t" db
  = Some ("10.0.0.1"%string, true)
  /\ isIPReserved false "10.0.0.1" "10.0.0.0/30" "t" db = true
  /\ reserveIP 5 qfault false false "10.0.0.0/30" "t" "q" db
     = Some (EmptyString, false, Some ErrAlreadyReserved, db).
Proof. cbv zeta. repeat split; reflexivity. Qed.

Lemma exec_insert_failure (fault : bool) (cidr tenantName ip purpose : string)
  (db db' : DB) (e : error) :
  exec_insert fault cidr tenantName ip purpose db = (db', Some e) -> db' = db.
Proof.
  unfold exec_insert. destruct fault; [congruence|].
  destruct (existsb _ _); [congruence|discriminate].
Qed.

(** C4.  Whenever reserveIP fails (no available address, the address
    already reserved, or a failure of the insert), the store is left as
    it was, whichever queries or statements of the backend failed. *)
Theorem C4_failed_reserve_leaves_store (fuel : nat) (qfault : nat -> bool)
  (rfault fault : bool) (cidr tenantName purpose : string) (db : DB)
  (s : string) (ok : bool) (err : option error) (db' : DB) :
  reserveIP fuel qfault rfault fault cidr tenantName purpose db
  = Some (s, ok, err, db') ->
  err <> None \/ ok = false ->
  db' = db /\ s = EmptyString /\ ok = false /\ err <> None.
Proof.
  intros H Hfail.
  destruct (reserveIP_cases _ _ _ _ _ _ _ _ _ _ _ _ H)
    as [(x & _ & -> & -> & -> & ->)
       |(ip & Hf & [(_ & -> & -> & -> & ->)
                   |(_ & [(_ & -> & -> & -> & ->)
                         |[(_ & _ & -> & -> & -> & ->)
                          |(_ & _ & _ & -> & -> & _)]])])];
    try (repeat split; discriminate).
  destruct Hfail as [Hf'|Hf']; congruence.
Qed.

Lemma C4_failed_reserve_leaves_store_witness :
  let db := mkDB [mkRow 1 "10.0.0.0/31" "t" "10.0.0.1" "p"] 1 in
  reserveIP 5 no_fault false false "10.0.0.0/31" "t" "p" db
  = Some (EmptyString, false, Some ErrNoAvailableIP, db)
  /\ (db = db /\ EmptyString = EmptyString /\ false = false
      /\ Some ErrNoAvailableIP <> None).
Proof.
  intro db. split; [reflexivity|].
  apply (C4_failed_reserve_leaves_store 5 no_fault false false
           "10.0.0.0/31" "t" "p" db).
  - reflexivity.
  - left. discriminate.
Defined.

(** a /30 fills up in order, then is exhausted; a released address is
    handed out again *)
Example reserve_release_slash30 :
  let step db := match reserveIP 8 no_fault false false
                         "10.0.0.0/30" "t" "p" db with
                 | Some (_, _, _, db') => db'
                 | None => db
                 end in
  let db3 := step (step (step empty_db)) in
  map row_ip_address (ips db3) = ["10.0.0.1"; "10.0.0.2"; "10.0.0.3"]%string
  /\ reserveIP 8 no_fault false false "10.0.0.0/30" "t" "p" db3
     = Some (EmptyString, false, Some ErrNoAvailableIP, db3)
  /\ (let '(released, err, db2) :=
         releaseReservedIP false "10.0.0.0/30" "t" "10.0.0.2" db3 in
       released = true /\ err = None
       /\ option_map (fun x => fst (fst (fst x)))
            (reserveIP 8 no_fault false false "10.0.0.0/30" "t" "p" db2)
          = Some "10.0.0.2"%string).
Proof. vm_compute. repeat split; reflexivity. Qed.

(** ** The uniqueness constraint *)

Lemma same_key_iff (cidr tenantName ip : string) (r : Row) :
  same_key cidr tenantName ip r = true <-> key_of r = (cidr, tenantName, ip).
Proof.
  unfold same_key, key_of. rewrite !andb_true_iff, !String.eqb_eq.
  split; [intros [[-> ->] ->]; reflexivity|].
  intro H. injection H as -> -> ->. auto.
Qed.

Lemma unique_keys_empty : unique_keys empty_db.
Proof. constructor. Qed.

Lemma exec_insert_unique (fault : bool) (cidr tenantName ip purpose : string)
  (db : DB) :
  unique_keys db ->
  unique_keys (fst (exec_insert fault cidr tenantName ip purpose db)).
Proof.
  unfold exec_insert, unique_keys. intro H.
  destruct fault; [exact H|].
  destruct (existsb _ _) eqn:E; [exact H|].
  cbn [fst ips]. rewrite map_app. cbn [map].
  apply NoDup_app; [exact H|repeat constructor; intros []|].
  intros k Hin [Hk|[]]. subst k.
  apply in_map_iff in Hin as (r & Hr & Hin).
  assert (existsb (same_key cidr tenantName ip) (ips db) = true); [|congruence].
  apply existsb_exists. exists r. split; [exact Hin|].
  apply same_key_iff. exact Hr.
Qed.

Lemma filter_keeps_unique (f : Row -> bool) (rows : list Row) :
  NoDup (map key_of rows) -> NoDup (map key_of (filter f rows)).
Proof.
  induction rows as [|r rows IH]; intro H; [constructor|].
  cbn [map] in H. inversion H as [|? ? Hn Hd]; subst.
  cbn [filter]. destruct (f r); [|auto].
  cbn [map]. constructor; [|auto].
  intro Hin. apply Hn. apply in_map_iff in Hin as (r' & E & Hin).
  apply filter_In in Hin as [Hin _]. apply in_map_iff. eauto.
Qed.

Lemma exec_delete_unique (fault : bool) (cidr tenantName ip : string)
  (db : DB) :
  unique_keys db ->
  unique_keys (fst (fst (exec_delete fault cidr tenantName ip db))).
Proof.
  unfold exec_delete, unique_keys. intro H.
  destruct fault; [exact H|]. cbn [fst ips]. apply filter_keeps_unique, H.
Qed.

(** the engine keeps the constraint *)
Lemma reserveIP_unique (fuel : nat) (qfault : nat -> bool)
  (rfault fault : bool) (cidr tenantName purpose : string) (db : DB)
  (s : string) (ok : bool) (err : option error) (db' : DB) :
  unique_keys db ->
  reserveIP fuel qfault rfault fault cidr tenantName purpose db
  = Some (s, ok, err, db') ->
  unique_keys db'.
Proof.
  intro H. unfold reserveIP.
  destruct (findAvailableIP fuel qfault cidr tenantName db) as [[ip avail]|];
    [|discriminate].
  destruct (negb avail); [congruence|].
  destruct (isIPReserved rfault ip cidr tenantName db); [congruence|].
  pose proof (exec_insert_unique fault cidr tenantName ip purpose db H) as U.
  destruct (exec_insert fault cidr tenantName ip purpose db) as [d [e|]];
    cbn [fst] in U; congruence.
Qed.

(** under the constraint a delete by key removes at most one row *)
Lemma delete_at_most_one (cidr tenantName ip : string) (rows : list Row) :
  NoDup (map key_of rows) ->
  let kept := filter (fun r => negb (same_key cidr tenantName ip r)) rows in
  (length kept = length rows
   /\ forall r, In r rows -> key_of r <> (cidr, tenantName, ip))
  \/ (S (length kept) = length rows
      /\ exists r, In r rows /\ key_of r = (cidr, tenantName, ip)).
Proof.
  induction rows as [|r rows IH]; intro H.
  - left. split; [reflexivity|intros r []].
  - cbn [map] in H. inversion H as [|? ? Hn Hd]; subst.
    cbn zeta in *. cbn [filter].
    destruct (same_key cidr tenantName ip r) eqn:E; cbn [negb].
    + right. apply same_key_iff in E.
      destruct (IH Hd) as [[Hl Hno]|[_ (r' & Hin & Hr')]].
      * split; [cbn [length]; congruence|]. exists r. split; [left|]; auto.
      * exfalso. apply Hn. rewrite E, <- Hr'. apply in_map, Hin.
    + assert (key_of r <> (cidr, tenantName, ip)).
      { intro K. apply same_key_iff in K. congruence. }
      destruct (IH Hd) as [[Hl Hno]|[Hl (r' & Hin & Hr')]].
      * left. split; [cbn [length]; congruence|].
        intros r' [<-|Hin]; auto.
      * right. split; [cbn [length]; congruence|].
        exists r'. split; [right|]; auto.
Qed.

(** C5.  releaseReservedIP returns true exactly when one matching row was
    removed and false, without an error, when none was; releasing an
    address that was never reserved changes nothing and returns false. *)
Theorem C5_release_reports_removal (cidr tenantName ipAddress : string)
  (db : DB) :
  unique_keys db ->
  exists b db',
    releaseReservedIP false cidr tenantName ipAddress db = (b, None, db')
    /\ ips db'
       = filter (fun r => negb (same_key cidr tenantName ipAddress r)) (ips db)
    /\ ((b = true /\ S (length (ips db')) = length (ips db)
         /\ exists r, In r (ips db)
                      /\ key_of r = (cidr, tenantName, ipAddress))
        \/ (b = false /\ db' = db
            /\ forall r, In r (ips db) ->
                         key_of r <> (cidr, tenantName, ipAddress))).
Proof.
  intro H. unfold releaseReservedIP, exec_delete.
  set (kept := filter _ (ips db)).
  eexists _, _. split; [reflexivity|]. split; [reflexivity|]. cbn [ips].
  destruct (delete_at_most_one cidr tenantName ipAddress (ips db) H)
    as [[Hl Hno]|[Hl Hex]]; fold kept in Hl.
  - right. split; [apply Z.ltb_ge; lia|]. split; [|exact Hno].
    destruct db as [rows sq]. cbn [ips db_seq] in *. f_equal.
    unfold kept. apply forallb_filter_id, forallb_forall.
    intros r Hin. apply negb_true_iff.
    destruct (same_key cidr tenantName ipAddress r) eqn:E; [|reflexivity].
    apply same_key_iff in E. destruct (Hno r Hin E).
  - left. split; [apply Z.ltb_lt; lia|]. split; [exact Hl|exact Hex].
Qed.

Lemma C5_release_reports_removal_witness :
  exists b db',
    releaseReservedIP false "10.0.0.0/24" "t" "10.0.0.9" empty_db
    = (b, None, db')
    /\ ips db' = [] /\ b = false.
Proof.
  destruct (C5_release_reports_removal "10.0.0.0/24" "t" "10.0.0.9" empty_db
              unique_keys_empty) as (b & db' & H1 & H2 & H3).
  exists b, db'. split; [exact H1|]. split; [exact H2|].
  destruct H3 as [(_ & _ & r & [] & _)|(H3 & _)]. exact H3.
Defined.

(** a failing backend is reported as an error, with [false] *)
Lemma release_backend_failure (cidr tenantName ipAddress : string) (db : DB) :
  releaseReservedIP true cidr tenantName ipAddress db
  = (false, Some ErrStore, db).
Proof. reflexivity. Qed.

(** ** Listing a subnet *)

Lemma collect_rows_id (rows : list string) : collect_rows rows = rows.
Proof.
  unfold collect_rows.
  assert (G : forall acc, fold_left (fun ips a => ips ++ [a]) rows acc
                          = acc ++ rows).
  { induction rows as [|a rows IH]; intro acc; cbn [fold_left].
    - rewrite app_nil_r. reflexivity.
    - rewrite IH, <- app_assoc. reflexivity. }
  apply G.
Qed.

Lemma getIPsInSubnet_parsed (order : list Row -> list Row)
  (subnet : string) (ip : IP) (n : IPNet) (db : DB) :
  ParseCIDR subnet = Some (ip, n) ->
  getIPsInSubnet QueryOK order subnet db
  = (map row_ip_address
       (order (filter (fun r => String.eqb (row_cidr r) (IPNet_String n))
                      (ips db))),
     None).
Proof.
  intro H. unfold getIPsInSubnet, select_by_cidr.
  rewrite H, collect_rows_id. reflexivity.
Qed.

(** the addresses listed are those of the matching rows, in some order *)
Lemma listing_permutation (order : list Row -> list Row)
  (subnet : string) (ip : IP) (n : IPNet) (db : DB) :
  arranges order ->
  ParseCIDR subnet = Some (ip, n) ->
  Permutation (fst (getIPsInSubnet QueryOK order subnet db))
    (map row_ip_address
       (filter (fun r => String.eqb (row_cidr r) (IPNet_String n)) (ips db))).
Proof.
  intros Ho HP. rewrite (getIPsInSubnet_parsed _ _ _ _ _ HP). cbn [fst].
  apply Permutation_map, Ho.
Qed.

Lemma listing_In (order : list Row -> list Row)
  (subnet : string) (ip : IP) (n : IPNet) (db : DB) (a : string) :
  arranges order ->
  ParseCIDR subnet = Some (ip, n) ->
  (In a (fst (getIPsInSubnet QueryOK order subnet db)) <->
   exists r, In r (ips db) /\ row_cidr r = IPNet_String n
             /\ row_ip_address r = a).
Proof.
  intros Ho HP.
  pose proof (listing_permutation order subnet ip n db Ho HP) as Hperm.
  split.
  - intro Hin. apply (Permutation_in _ Hperm) in Hin.
    apply in_map_iff in Hin as (r & Hr & Hin).
    apply filter_In in Hin as [Hin Hc]. apply String.eqb_eq in Hc.
    exists r. auto.
  - intros (r & Hin & Hc & Hr).
    apply (Permutation_in _ (Permutation_sym Hperm)).
    apply in_map_iff. exists r. split; [exact Hr|].
    apply filter_In. split; [exact Hin|]. apply String.eqb_eq, Hc.
Qed.

(** C6 (amended).  getIPsInSubnet, given a parseable subnet and a query
    that goes through, returns the addresses of the reservations whose
    stored cidr string equals the canonical form of that subnet, the
    network address and prefix length as IPNet.String prints them, one for
    each such row, in the order in which the store yields the rows; the
    query has no ORDER BY, so that order need not be the order of
    insertion.  Differently written forms of one network therefore list
    the same rows, and a row inserted under the canonical form is listed
    from then on.  A query that fails gives its error, and rows that end
    early give the addresses that came before. *)
Theorem C6_list_by_canonical_form (order : list Row -> list Row)
  (subnet : string) (ip : IP) (n : IPNet) (db : DB) :
  arranges order ->
  ParseCIDR subnet = Some (ip, n) ->
  (exists l,
      getIPsInSubnet QueryOK order subnet db = (l, None)
      /\ Permutation l
           (map row_ip_address
              (filter (fun r => String.eqb (row_cidr r) (IPNet_String n))
                      (ips db))))
  /\ (forall a,
        In a (fst (getIPsInSubnet QueryOK order subnet db)) <->
        exists r, In r (ips db) /\ row_cidr r = IPNet_String n
                  /\ row_ip_address r = a)
  /\ (forall subnet' ip',
        ParseCIDR subnet' = Some (ip', n) ->
        (forall qfault,
            getIPsInSubnet qfault order subnet' db
            = getIPsInSubnet qfault order subnet db)
        /\ (forall order',
              arranges order' ->
              Permutation (fst (getIPsInSubnet QueryOK order' subnet' db))
                (fst (getIPsInSubnet QueryOK order subnet db))))
  /\ (forall order' cidr tenantName a purpose db',
        arranges order' ->
        exec_insert false cidr tenantName a purpose db = (db', None) ->
        Permutation (fst (getIPsInSubnet QueryOK order' subnet db'))
          (fst (getIPsInSubnet QueryOK order subnet db)
           ++ (if String.eqb cidr (IPNet_String n) then [a] else [])))
  /\ getIPsInSubnet QueryFails order subnet db = ([], Some ErrStore)
  /\ (forall k,
        getIPsInSubnet (RowsEndEarly k) order subnet db
        = (firstn k (fst (getIPsInSubnet QueryOK order subnet db)), None)).
Proof.
  intros Ho HP.
  pose proof (listing_permutation order subnet ip n db Ho HP) as Hperm.
  split; [|split; [|split; [|split; [|split]]]].
  - rewrite (getIPsInSubnet_parsed _ _ _ _ _ HP) in *. cbn [fst] in Hperm.
    eexists. split; [reflexivity|exact Hperm].
  - intro a. apply (listing_In order subnet ip n db a Ho HP).
  - intros s' i' Hs'. split.
    + intro qfault. unfold getIPsInSubnet. rewrite Hs', HP. reflexivity.
    + intros order' Ho'.
      rewrite (listing_permutation order' s' i' n db Ho' Hs'), Hperm.
      reflexivity.
  - intros order' cidr tenantName a purpose db' Ho'. unfold exec_insert.
    destruct (existsb _ _); [discriminate|]. intro H. injection H as <-.
    rewrite (listing_permutation order' subnet ip n _ Ho' HP), Hperm.
    cbn [ips]. rewrite filter_app, map_app. cbn [filter row_cidr].
    destruct (String.eqb cidr (IPNet_String n)); reflexivity.
  - unfold getIPsInSubnet. rewrite HP. reflexivity.
  - intro k. unfold getIPsInSubnet. rewrite HP, !collect_rows_id.
    reflexivity.
Qed.

Lemma C6_list_by_canonical_form_witness :
  exists l,
    getIPsInSubnet QueryOK (@rev Row) "10.0.0.77/24"
      (mkDB [mkRow 1 "10.0.0.0/24" "t" "10.0.0.1" "p";
             mkRow 2 "10.0.0.77/24" "t" "10.0.0.2" "p";
             mkRow 3 "10.0.0.0/24" "u" "10.0.0.3" "p"] 3)
    = (l, None)
    /\ Permutation l ["10.0.0.1"; "10.0.0.3"]%string.
Proof.
  assert (Ho : arranges (@rev Row)).
  { intro rows. apply Permutation_sym, Permutation_rev. }
  destruct (C6_list_by_canonical_form (@rev Row) "10.0.0.77/24"
              (IPv4 10 0 0 77) (mkIPNet [10; 0; 0; 0] [255; 255; 255; 0])
              (mkDB [mkRow 1 "10.0.0.0/24" "t" "10.0.0.1" "p";
                     mkRow 2 "10.0.0.77/24" "t" "10.0.0.2" "p";
                     mkRow 3 "10.0.0.0/24" "u" "10.0.0.3" "p"] 3)
              Ho eq_refl) as [H _].
  exact H.
Defined.

(** C6, as stated, fails: a reservation is stored under the canonical
    10.0.0.0/24; the differently written, equivalent 10.0.0.77/24 does not
    string-match it, and still lists the reservation instead of nothing,
    in whatever order the store yields its rows. *)
Lemma C6_counterexample_equivalent_form :
  let db := mkDB [mkRow 1 "10.0.0.0/24" "t" "10.0.0.1" "p"] 1 in
  reserveIP 2 no_fault false false "10.0.0.0/24" "t" "p" empty_db
  = Some ("10.0.0.1"%string, true, None, db)
  /\ "10.0.0.77/24"%string <> "10.0.0.0/24"%string
  /\ option_map snd (ParseCIDR "10.0.0.77/24")
     = option_map snd (ParseCIDR "10.0.0.0/24")
  /\ forall order,
       arranges order ->
       getIPsInSubnet QueryOK order "10.0.0.77/24" db
       = (["10.0.0.1"%string], None)
       /\ fst (getIPsInSubnet QueryOK order "10.0.0.77/24" db) <> [].
Proof.
  cbv zeta. split; [reflexivity|]. split; [discriminate|].
  split; [reflexivity|].
  intros order Ho.
  assert (E : getIPsInSubnet QueryOK order "10.0.0.77/24"
                (mkDB [mkRow 1 "10.0.0.0/24" "t" "10.0.0.1" "p"] 1)
              = (["10.0.0.1"%string], None)).
  { rewrite (getIPsInSubnet_parsed order "10.0.0.77/24" (IPv4 10 0 0 77)
               (mkIPNet [10; 0; 0; 0] [255; 255; 255; 0]) _ eq_refl).
    change (filter _ _) with [mkRow 1 "10.0.0.0/24" "t" "10.0.0.1" "p"].
    rewrite (Permutation_length_1_inv (Permutation_sym (Ho _))).
    reflexivity. }
  rewrite E. split; [reflexivity|discriminate].
Qed.

(** ** The subnet parameter of the listing handler *)

(** C8 fails on the code for IPv6: the handler appends /32 whatever the
    address family, so the bare address 2001:db8::1 becomes
    2001:db8::1/32, the network 2001:db8::/32, where the single-host form
    is 2001:db8::1/128.  For a bare IPv4 address the two agree. *)
Theorem C8_bare_ipv6_gets_slash32 :
  normalize_subnet "2001:db8::1" = "2001:db8::1/32"%string
  /\ normalize_single_host "2001:db8::1" = "2001:db8::1/128"%string
  /\ option_map (fun x => IPNet_String (snd x))
       (ParseCIDR (normalize_subnet "2001:db8::1"))
     = Some "2001:db8::/32"%string
  /\ option_map (fun x => IPNet_String (snd x))
       (ParseCIDR (normalize_single_host "2001:db8::1"))
     = Some "2001:db8::1/128"%string
  /\ normalize_subnet "10.0.0.5" = normalize_single_host "10.0.0.5".
Proof. repeat split; reflexivity. Qed.

(** for a bare IPv4 address the handler appends the single-host length *)
Lemma normalize_subnet_ipv4 (s : string) (ip : IP) :
  parseIPv4 s = Some ip -> normalize_subnet s = normalize_single_host s.
Proof.
  intro H. unfold normalize_subnet, normalize_single_host, single_host_suffix.
  rewrite H. reflexivity.
Qed.

(* ================================================================== *)
(** * Part III: further properties of the engine and its callers *)
(* ================================================================== *)

(** ** Where [incrementIP] wraps *)

Lemma bytes_ok_repeat255 (k : nat) : bytes_ok (repeat 255 k).
Proof.
  induction k; cbn [repeat]; constructor; auto. unfold is_byte. lia.
Qed.

Lemma ip_val_repeat255 (k : nat) :
  ip_val (repeat 255 k) = 256 ^ Z.of_nat k - 1.
Proof.
  induction k as [|k IH]; [reflexivity|].
  cbn [repeat]. rewrite ip_val_cons, IH, repeat_length.
  rewrite Nat2Z.inj_succ, Z.pow_succ_r by lia. lia.
Qed.

(** X1.  incrementIP wraps to the all-zero address exactly at the
    all-ones address; on every other address it adds one to the number
    the bytes stand for, whatever the length. *)
Theorem incrementIP_wraps_only_at_all_ones (a : IP) :
  bytes_ok a ->
  (incrementIP a = repeat 0 (length a) <-> a = repeat 255 (length a))
  /\ (a <> repeat 255 (length a) ->
      ip_val (incrementIP a) = ip_val a + 1).
Proof.
  intro Ha.
  pose proof (ip_val_range a Ha) as R.
  pose proof (incrementIP_val a Ha) as V.
  set (P := 256 ^ Z.of_nat (length a)) in *.
  assert (Hall : a = repeat 255 (length a) <-> ip_val a = P - 1).
  { split.
    - intro E. rewrite E at 1. rewrite ip_val_repeat255. reflexivity.
    - intro E. apply ip_val_inj; auto using bytes_ok_repeat255.
      + rewrite repeat_length. reflexivity.
      + rewrite ip_val_repeat255. exact E. }
  assert (HP : 0 < P) by (apply Z.pow_pos_nonneg; lia).
  split; [split|].
  - intro E. apply Hall. rewrite E, ip_val_repeat0 in V.
    symmetry in V. apply Z.mod_divide in V; [|lia].
    destruct V as [q Hq]. clearbody P.
    assert (q = 1) by nia. subst q. lia.
  - intro E. apply Hall in E.
    apply ip_val_inj; auto using incrementIP_bytes_ok, bytes_ok_repeat0.
    + rewrite incrementIP_length, repeat_length. reflexivity.
    + rewrite V, ip_val_repeat0, E.
      replace (P - 1 + 1) with P by lia. apply Z_mod_same_full.
  - intro Hne. rewrite V. apply Z.mod_small.
    assert (ip_val a <> P - 1) by (intro E; apply Hne, Hall, E). lia.
Qed.

Lemma incrementIP_wraps_only_at_all_ones_witness :
  ip_val (incrementIP [10; 0; 255; 255]) = ip_val [10; 0; 255; 255] + 1.
Proof.
  apply (incrementIP_wraps_only_at_all_ones [10; 0; 255; 255]).
  - unfold bytes_ok, is_byte. repeat constructor; lia.
  - discriminate.
Defined.

(** ** Facts about the store *)

Lemma same_key_refl (id : Z) (cidr tenantName ip purpose : string) :
  same_key cidr tenantName ip (mkRow id cidr tenantName ip purpose) = true.
Proof. unfold same_key. cbn. rewrite !String.eqb_refl. reflexivity. Qed.

(** a successful reservation, step by step *)
Lemma reserveIP_success (fuel : nat) (qfault : nat -> bool)
  (rfault fault : bool) (cidr tenantName purpose : string) (db : DB)
  (s : string) (ok : bool) (db' : DB) :
  reserveIP fuel qfault rfault fault cidr tenantName purpose db
  = Some (s, ok, None, db') ->
  fault = false /\ ok = true
  /\ findAvailableIP fuel qfault cidr tenantName db = Some (s, true)
  /\ isIPReserved rfault s cidr tenantName db = false
  /\ existsb (same_key cidr tenantName s) (ips db) = false
  /\ db' = mkDB (ips db ++ [mkRow (db_seq db + 1) cidr tenantName s purpose])
                (db_seq db + 1).
Proof.
  intro H.
  destruct (reserveIP_cases _ _ _ _ _ _ _ _ _ _ _ _ H)
    as [(x & _ & _ & _ & E & _)
       |(ip & Hf & [(_ & _ & _ & E & _)
                   |(Hr & [(_ & _ & _ & E & _)
                          |[(_ & _ & _ & _ & E & _)
                           |(-> & Hk & -> & -> & _ & ->)]])])];
    try discriminate.
  auto 7.
Qed.

Lemma reserveIP_of_found (fuel : nat) (cidr tenantName purpose : string)
  (db : DB) (s : string) :
  findAvailableIP fuel no_fault cidr tenantName db = Some (s, true) ->
  reserveIP fuel no_fault false false cidr tenantName purpose db
  = Some (s, true, None,
          mkDB (ips db ++ [mkRow (db_seq db + 1) cidr tenantName s purpose])
               (db_seq db + 1)).
Proof.
  intro E. unfold reserveIP. rewrite E. cbn [negb].
  pose proof (findAvailableIP_free _ _ _ _ _ _ (fun _ => eq_refl) E) as Hfree.
  rewrite Hfree.
  unfold exec_insert. rewrite (not_reserved_no_key _ _ _ _ Hfree). reflexivity.
Qed.

(** the address of a successful reservation was not reserved, in the
    sense of the existence check, if the query of the re-check went
    through or no query of the scan failed *)
Lemma reserved_was_free (fuel : nat) (qfault : nat -> bool)
  (rfault fault : bool) (cidr tenantName purpose : string) (db : DB)
  (s : string) (ok : bool) (db' : DB) :
  reserveIP fuel qfault rfault fault cidr tenantName purpose db
  = Some (s, ok, None, db') ->
  rfault = false \/ (forall i, qfault i = false) ->
  isIPReserved false s cidr tenantName db = false.
Proof.
  intros H Hq.
  destruct (reserveIP_success _ _ _ _ _ _ _ _ _ _ _ H)
    as (_ & _ & Hf & Hr & _).
  destruct Hq as [->|Hq]; [exact Hr|].
  apply (findAvailableIP_free _ _ _ _ _ _ Hq Hf).
Qed.

Lemma no_key_no_row (cidr tenantName ip : string) (rows : list Row) :
  existsb (same_key cidr tenantName ip) rows = false <->
  forall r, In r rows -> key_of r <> (cidr, tenantName, ip).
Proof.
  split.
  - intros H r Hin K.
    assert (existsb (same_key cidr tenantName ip) rows = true); [|congruence].
    apply existsb_exists. exists r. split; [exact Hin|apply same_key_iff, K].
  - intro H. destruct (existsb _ _) eqn:E; [|reflexivity].
    apply existsb_exists in E as (r & Hin & K).
    apply same_key_iff in K. destruct (H r Hin K).
Qed.

(** the row a reservation has appended answers the existence check *)
Lemma appended_row_reserved (cidr tenantName s purpose : string) (db : DB)
  (rows : list Row) :
  isIPReserved false s cidr tenantName
    (mkDB (ips db ++ mkRow (db_seq db + 1) cidr tenantName s purpose :: rows)
          (db_seq db + 1)) = true.
Proof.
  eapply isIPReserved_of_row with
    (r := mkRow (db_seq db + 1) cidr tenantName s purpose);
    [cbn [ips]; apply in_or_app; right; left; reflexivity
    |reflexivity|reflexivity|right; reflexivity].
Qed.

(** ** What a reservation does to the store *)

(** X2.  A successful reserveIP appends exactly one row, holding the
    cidr, tenant and purpose as given and the returned address, which is
    not the empty string; no row held that cidr, tenant and address
    before the call, the address is reserved afterwards, and the
    uniqueness of keys is kept, whichever queries failed.  When the query
    of the re-check went through, or no query of the scan failed, the
    existence check answers "not reserved" for the address on the store
    before the call. *)
Theorem reserveIP_success_stores_the_address (fuel : nat)
  (qfault : nat -> bool) (rfault fault : bool)
  (cidr tenantName purpose : string) (db : DB)
  (s : string) (ok : bool) (db' : DB) :
  reserveIP fuel qfault rfault fault cidr tenantName purpose db
  = Some (s, ok, None, db') ->
  ok = true /\ s <> EmptyString
  /\ ips db' = ips db ++ [mkRow (db_seq db + 1) cidr tenantName s purpose]
  /\ (forall r, In r (ips db) -> key_of r <> (cidr, tenantName, s))
  /\ (rfault = false \/ (forall i, qfault i = false) ->
      isIPReserved false s cidr tenantName db = false)
  /\ isIPReserved false s cidr tenantName db' = true
  /\ (unique_keys db -> unique_keys db').
Proof.
  intro H.
  assert (U : unique_keys db -> unique_keys db').
  { intro Hu. exact (reserveIP_unique _ _ _ _ _ _ _ _ _ _ _ _ Hu H). }
  pose proof (reserved_was_free _ _ _ _ _ _ _ _ _ _ _ H) as Hfree.
  destruct (reserveIP_success _ _ _ _ _ _ _ _ _ _ _ H)
    as (_ & -> & Hf & _ & Hk & ->).
  destruct (findAvailableIP_found _ _ _ _ _ _ Hf)
    as (ip & n & k & _ & _ & _ & Hs & _).
  split; [reflexivity|].
  split; [rewrite Hs; apply IP_String_nonempty|].
  split; [reflexivity|]. split; [apply no_key_no_row, Hk|].
  split; [exact Hfree|]. split; [|exact U].
  apply appended_row_reserved.
Qed.

Lemma reserveIP_success_stores_the_address_witness :
  isIPReserved false "10.0.0.1" "10.0.0.0/24" "t"
    (mkDB [mkRow 1 "10.0.0.0/24" "t" "10.0.0.1" "p"] 1) = true.
Proof.
  apply (reserveIP_success_stores_the_address 3 no_fault false false
           "10.0.0.0/24" "t" "p" empty_db "10.0.0.1" true
           (mkDB [mkRow 1 "10.0.0.0/24" "t" "10.0.0.1" "p"] 1)).
  reflexivity.
Defined.

(** X3.  The errors of reserveIP, and when each of them occurs: "No
    available IP", exactly when findAvailableIP reports no address; a
    failure of the backend during the INSERT; "IP already reserved", only
    when the query of the scan about the returned address failed and the
    query of the re-check went through; and a violation of the UNIQUE
    constraint, only when both of these queries failed.  With queries
    that go through, reserveIP fails in the first two ways only, and the
    INSERT of a scanned address never violates the constraint. *)
Theorem reserveIP_errors (fuel : nat) (qfault : nat -> bool)
  (rfault fault : bool) (cidr tenantName purpose : string) (db : DB)
  (s : string) (ok : bool) (e : error) (db' : DB) :
  reserveIP fuel qfault rfault fault cidr tenantName purpose db
  = Some (s, ok, Some e, db') ->
  ((e = ErrNoAvailableIP
    /\ exists x, findAvailableIP fuel qfault cidr tenantName db
                 = Some (x, false))
   \/ (e = ErrStore /\ fault = true
       /\ exists x, findAvailableIP fuel qfault cidr tenantName db
                    = Some (x, true))
   \/ (e = ErrAlreadyReserved /\ rfault = false
       /\ exists x a n k,
            findAvailableIP fuel qfault cidr tenantName db = Some (x, true)
            /\ ParseCIDR cidr = Some (a, n)
            /\ x = IP_String (increments k (incrementIP (IPNet_IP n)))
            /\ qfault k = true)
   \/ (e = ErrUniqueConstraint /\ rfault = true /\ fault = false
       /\ exists x a n k,
            findAvailableIP fuel qfault cidr tenantName db = Some (x, true)
            /\ ParseCIDR cidr = Some (a, n)
            /\ x = IP_String (increments k (incrementIP (IPNet_IP n)))
            /\ qfault k = true
            /\ existsb (same_key cidr tenantName x) (ips db) = true))
  /\ ((forall i, qfault i = false) -> e = ErrNoAvailableIP \/ e = ErrStore).
Proof.
  intro H.
  assert (G :
    (e = ErrNoAvailableIP
     /\ exists x, findAvailableIP fuel qfault cidr tenantName db
                  = Some (x, false))
    \/ (e = ErrStore /\ fault = true
        /\ exists x, findAvailableIP fuel qfault cidr tenantName db
                     = Some (x, true))
    \/ (e = ErrAlreadyReserved /\ rfault = false
        /\ exists x a n k,
             findAvailableIP fuel qfault cidr tenantName db = Some (x, true)
             /\ ParseCIDR cidr = Some (a, n)
             /\ x = IP_String (increments k (incrementIP (IPNet_IP n)))
             /\ qfault k = true)
    \/ (e = ErrUniqueConstraint /\ rfault = true /\ fault = false
        /\ exists x a n k,
             findAvailableIP fuel qfault cidr tenantName db = Some (x, true)
             /\ ParseCIDR cidr = Some (a, n)
             /\ x = IP_String (increments k (incrementIP (IPNet_IP n)))
             /\ qfault k = true
             /\ existsb (same_key cidr tenantName x) (ips db) = true)).
  { destruct (reserveIP_cases _ _ _ _ _ _ _ _ _ _ _ _ H)
      as [(x & Hf & _ & _ & E & _)
         |(ip & Hf & [(Hr & _ & _ & E & _)
                     |(Hr & [(Hft & _ & _ & E & _)
                            |[(Hft & Hk & _ & _ & E & _)
                             |(_ & _ & _ & _ & E & _)]])])];
      try discriminate; injection E as <-.
    - left. eauto.
    - right. right. left.
      destruct (already_reserved_after_failed_query _ _ _ _ _ _ _ Hf Hr)
        as (Hrf & _ & a & n & k & HP & Hs & Hq).
      split; [reflexivity|]. split; [exact Hrf|]. exists ip, a, n, k. auto.
    - right. left. eauto.
    - right. right. right.
      destruct (findAvailableIP_found _ _ _ _ _ _ Hf)
        as (a & n & k & HP & _ & _ & Hs & _ & Hfree).
      assert (Ht : isIPReserved false ip cidr tenantName db = true).
      { destruct (isIPReserved false ip cidr tenantName db) eqn:E;
          [reflexivity|].
        rewrite (not_reserved_no_key _ _ _ _ E) in Hk. discriminate. }
      split; [reflexivity|].
      split; [destruct rfault; [reflexivity|congruence]|].
      split; [exact Hft|]. exists ip, a, n, k.
      split; [exact Hf|]. split; [exact HP|]. split; [exact Hs|].
      split; [destruct (qfault k); [reflexivity|congruence]|exact Hk]. }
  split; [exact G|].
  intro Hq.
  destruct G as [(-> & _)|[(-> & _)|[(_ & _ & x & a & n & k & _ & _ & _ & Hk)
                                    |(_ & _ & _ & x & a & n & k & _ & _ & _
                                      & Hk & _)]]];
    auto; rewrite Hq in Hk; discriminate.
Qed.

Lemma reserveIP_errors_witness :
  ErrNoAvailableIP = ErrNoAvailableIP \/ ErrNoAvailableIP = ErrStore.
Proof.
  apply (reserveIP_errors 3 no_fault false false "10.0.0.1/32" "t" "p"
           empty_db EmptyString false ErrNoAvailableIP empty_db).
  - reflexivity.
  - intro i. reflexivity.
Defined.

(** a violation of the UNIQUE constraint does occur: the store holds
    10.0.0.1 for the tenant, and both the query of the scan and the query
    of the re-check fail *)
Example unique_violation_after_two_failed_queries :
  let db := mkDB [mkRow 1 "10.0.0.0/30" "t" "10.0.0.1" "p"] 1 in
  reserveIP 5 (fun i => Nat.eqb i 0) true false "10.0.0.0/30" "t" "q" db
  = Some (EmptyString, false, Some ErrUniqueConstraint, db).
Proof. reflexivity. Qed.

(** X4.  A cidr without a "/" (the empty string, a bare address) is not
    normalised by the reserve path: findAvailableIP reports no address at
    once, before any query, reserveIP returns "No available IP" rather
    than a parse error and leaves the store alone, and getIPsInSubnet
    returns the parse error. *)
Theorem cidr_without_slash (fuel : nat) (qfault : nat -> bool)
  (rfault fault : bool) (lfault : query_fault)
  (order : list Row -> list Row)
  (cidr tenantName purpose : string) (db : DB) :
  strings_Contains_slash cidr = false ->
  findAvailableIP fuel qfault cidr tenantName db = Some (EmptyString, false)
  /\ reserveIP fuel qfault rfault fault cidr tenantName purpose db
     = Some (EmptyString, false, Some ErrNoAvailableIP, db)
  /\ getIPsInSubnet lfault order cidr db = ([], Some ErrParseCIDR).
Proof.
  intro H.
  assert (HP : ParseCIDR cidr = None).
  { unfold ParseCIDR. unfold strings_Contains_slash in H.
    destruct (IndexByteString cidr "/"); [discriminate|reflexivity]. }
  assert (HF : findAvailableIP fuel qfault cidr tenantName db
               = Some (EmptyString, false)).
  { unfold findAvailableIP, scan_block. rewrite HP. reflexivity. }
  split; [exact HF|]. split.
  - unfold reserveIP. rewrite HF. reflexivity.
  - unfold getIPsInSubnet. rewrite HP. reflexivity.
Qed.

Lemma cidr_without_slash_witness :
  reserveIP 0 no_fault false false "10.0.0.7" "t" "p" empty_db
  = Some (EmptyString, false, Some ErrNoAvailableIP, empty_db).
Proof.
  apply (cidr_without_slash 0 no_fault false false QueryOK (fun l => l)
           "10.0.0.7" "t" "p" empty_db).
  reflexivity.
Defined.

(** X5.  A single-host block, /32 for IPv4 or /128 for IPv6, has nothing
    to hand out: its first candidate is already outside the block, so
    findAvailableIP reports no address and reserveIP fails with "No
    available IP", whatever the store holds. *)
Theorem single_host_block_is_exhausted (cidr : string) (ip : IP) (n : IPNet)
  (fuel : nat) (qfault : nat -> bool) (rfault fault : bool)
  (tenantName purpose : string) (db : DB) :
  ParseCIDR cidr = Some (ip, n) ->
  prefix_len n = 8 * Z.of_nat (length (IPNet_IP n)) ->
  Contains n (incrementIP (IPNet_IP n)) = false
  /\ findAvailableIP (S fuel) qfault cidr tenantName db
     = Some (EmptyString, false)
  /\ reserveIP (S fuel) qfault rfault fault cidr tenantName purpose db
     = Some (EmptyString, false, Some ErrNoAvailableIP, db).
Proof.
  intros HP Hfull.
  destruct (ParseCIDR_shape _ _ _ HP) as (L & p & Hs).
  rewrite (prefix_len_shape _ _ _ _ Hs) in Hfull.
  destruct (shape_facts ip n L p Hs) as (Hl & _).
  rewrite Hl in Hfull.
  assert (Hp : 1 <= p) by (destruct Hs as ([->| ->] & _); lia).
  pose proof (cand_exit ip n L p Hs Hp) as Hexit.
  unfold block_size in Hexit.
  replace (8 * Z.of_nat L - p) with 0 in Hexit by lia.
  change (Z.to_nat (2 ^ 0 - 1)) with O in Hexit. cbn [increments] in Hexit.
  assert (HF : findAvailableIP (S fuel) qfault cidr tenantName db
               = Some (EmptyString, false)).
  { unfold findAvailableIP. rewrite (scan_block_parsed _ _ _ _ _ HP).
    cbn [scan]. rewrite Hexit. reflexivity. }
  split; [exact Hexit|]. split; [exact HF|].
  unfold reserveIP. rewrite HF. reflexivity.
Qed.

Lemma single_host_block_is_exhausted_witness :
  reserveIP 1 no_fault false false "2001:db8::1/128" "t" "p" empty_db
  = Some (EmptyString, false, Some ErrNoAvailableIP, empty_db).
Proof.
  apply (single_host_block_is_exhausted "2001:db8::1/128"
           [32; 1; 13; 184; 0; 0; 0; 0; 0; 0; 0; 0; 0; 0; 0; 1]
           (mkIPNet [32; 1; 13; 184; 0; 0; 0; 0; 0; 0; 0; 0; 0; 0; 0; 1]
                    (repeat 255 16))).
  - reflexivity.
  - reflexivity.
Defined.

(** X6.  Two reservations in a row with the same cidr and tenant, both
    successful, return two different addresses, and both are reserved
    afterwards: replaying a successful call allocates a second address,
    whichever queries failed. *)
Theorem successive_reservations_differ (fuel1 fuel2 : nat)
  (qfault1 qfault2 : nat -> bool) (rfault1 rfault2 fault1 fault2 : bool)
  (cidr tenantName purpose1 purpose2 : string)
  (db db1 db2 : DB) (s1 s2 : string) (ok1 ok2 : bool) :
  reserveIP fuel1 qfault1 rfault1 fault1 cidr tenantName purpose1 db
  = Some (s1, ok1, None, db1) ->
  reserveIP fuel2 qfault2 rfault2 fault2 cidr tenantName purpose2 db1
  = Some (s2, ok2, None, db2) ->
  s1 <> s2
  /\ isIPReserved false s1 cidr tenantName db2 = true
  /\ isIPReserved false s2 cidr tenantName db2 = true
  /\ length (ips db2) = S (S (length (ips db))).
Proof.
  intros H1 H2.
  destruct (reserveIP_success _ _ _ _ _ _ _ _ _ _ _ H1)
    as (_ & _ & _ & _ & _ & E1).
  destruct (reserveIP_success _ _ _ _ _ _ _ _ _ _ _ H2)
    as (_ & _ & _ & _ & K2 & E2).
  split.
  { intro E. subst s2 db1. cbn [ips] in K2.
    rewrite existsb_app in K2. cbn [existsb] in K2.
    rewrite same_key_refl, orb_true_r in K2. discriminate. }
  subst db2. split; [|split].
  - subst db1. cbn [ips db_seq]. rewrite <- app_assoc. cbn [app].
    apply (appended_row_reserved cidr tenantName s1 purpose1 db).
  - apply (appended_row_reserved cidr tenantName s2 purpose2 db1 []).
  - subst db1. cbn [ips]. rewrite !length_app. cbn [length]. lia.
Qed.

Lemma successive_reservations_differ_witness :
  "10.0.0.1"%string <> "10.0.0.2"%string.
Proof.
  apply (successive_reservations_differ 3 3 no_fault no_fault
           false false false false "10.0.0.0/24" "t"
           "p" "q" empty_db
           (mkDB [mkRow 1 "10.0.0.0/24" "t" "10.0.0.1" "p"] 1)
           (mkDB [mkRow 1 "10.0.0.0/24" "t" "10.0.0.1" "p";
                  mkRow 2 "10.0.0.0/24" "t" "10.0.0.2" "q"] 2)
           "10.0.0.1" "10.0.0.2" true true).
  - reflexivity.
  - reflexivity.
Defined.

(** ** Releasing *)

Lemma filter_none_matching (cidr tenantName ip : string) (rows : list Row) :
  existsb (same_key cidr tenantName ip) rows = false ->
  filter (fun r => negb (same_key cidr tenantName ip r)) rows = rows.
Proof.
  intro H. apply forallb_filter_id, forallb_forall. intros r Hin.
  apply negb_true_iff.
  destruct (same_key cidr tenantName ip r) eqn:E; [|reflexivity].
  assert (existsb (same_key cidr tenantName ip) rows = true); [|congruence].
  apply existsb_exists. eauto.
Qed.

Lemma filter_idem (f : Row -> bool) (rows : list Row) :
  filter f (filter f rows) = filter f rows.
Proof.
  apply forallb_filter_id, forallb_forall.
  intros r Hin. apply filter_In in Hin. tauto.
Qed.

(** the release of what a reservation has just returned *)
Lemma release_after_reserve (fuel : nat) (qfault : nat -> bool)
  (rfault fault : bool) (cidr tenantName purpose : string) (db db1 : DB)
  (s : string) (ok : bool) :
  reserveIP fuel qfault rfault fault cidr tenantName purpose db
  = Some (s, ok, None, db1) ->
  exists db2,
    releaseReservedIP false cidr tenantName s db1 = (true, None, db2)
    /\ ips db2 = ips db.
Proof.
  intro H.
  destruct (reserveIP_success _ _ _ _ _ _ _ _ _ _ _ H)
    as (_ & _ & _ & _ & Hno & ->).
  unfold releaseReservedIP, exec_delete. cbn [ips db_seq].
  rewrite filter_app, (filter_none_matching _ _ _ _ Hno).
  cbn [filter]. rewrite same_key_refl. cbn [negb].
  rewrite app_nil_r, length_app. cbn [length].
  replace (0 <? Z.of_nat (length (ips db) + 1) - Z.of_nat (length (ips db)))
    with true by (symmetry; apply Z.ltb_lt; lia).
  eexists. split; reflexivity.
Qed.

(** a release repeated on the store the first one left *)
Lemma release_repeated (cidr tenantName ipAddress : string) (db db1 : DB)
  (b : bool) (e : option error) :
  releaseReservedIP false cidr tenantName ipAddress db = (b, e, db1) ->
  releaseReservedIP false cidr tenantName ipAddress db1 = (false, None, db1).
Proof.
  unfold releaseReservedIP, exec_delete. intro H. injection H as _ _ <-.
  cbn [ips db_seq]. rewrite filter_idem, Z.sub_diag. reflexivity.
Qed.

(** X7.  Releasing the address a reservation has just returned, with the
    same cidr and tenant, returns true and leaves the rows of the store
    exactly as they were before the reservation, whichever queries of the
    reservation failed; no row holds that cidr, tenant and address
    afterwards, and the existence check answers "not reserved" for it if
    the query of the re-check had gone through or no query of the scan
    had failed. *)
Theorem reserve_then_release_restores_rows (fuel : nat)
  (qfault : nat -> bool) (rfault fault : bool)
  (cidr tenantName purpose : string) (db db1 : DB) (s : string) (ok : bool) :
  reserveIP fuel qfault rfault fault cidr tenantName purpose db
  = Some (s, ok, None, db1) ->
  exists db2,
    releaseReservedIP false cidr tenantName s db1 = (true, None, db2)
    /\ ips db2 = ips db
    /\ (forall r, In r (ips db2) -> key_of r <> (cidr, tenantName, s))
    /\ (rfault = false \/ (forall i, qfault i = false) ->
        isIPReserved false s cidr tenantName db2 = false).
Proof.
  intro H.
  destruct (release_after_reserve _ _ _ _ _ _ _ _ _ _ _ H)
    as (db2 & H1 & H2).
  exists db2. split; [exact H1|]. split; [exact H2|]. split.
  - rewrite H2. apply no_key_no_row.
    apply (reserveIP_success _ _ _ _ _ _ _ _ _ _ _ H).
  - intro Hq.
    pose proof (reserved_was_free _ _ _ _ _ _ _ _ _ _ _ H Hq) as Hfree.
    unfold isIPReserved, select_reserved in *. rewrite H2. exact Hfree.
Qed.

Lemma reserve_then_release_restores_rows_witness :
  exists db2,
    releaseReservedIP false "10.0.0.0/24" "t" "10.0.0.1"
      (mkDB [mkRow 1 "10.0.0.0/24" "t" "10.0.0.1" "p"] 1) = (true, None, db2)
    /\ ips db2 = ips empty_db
    /\ (forall r, In r (ips db2) ->
                  key_of r <> ("10.0.0.0/24", "t", "10.0.0.1")%string)
    /\ (false = false \/ (forall i, no_fault i = false) ->
        isIPReserved false "10.0.0.1" "10.0.0.0/24" "t" db2 = false).
Proof.
  apply (reserve_then_release_restores_rows 3 no_fault false false
           "10.0.0.0/24" "t" "p" empty_db _ "10.0.0.1" true).
  reflexivity.
Defined.

(** X8.  Releasing is idempotent: whatever the first release did,
    repeating it returns false without an error and leaves the store as
    the first release left it; and a release keeps every row with another
    key, in order. *)
Theorem release_twice (cidr tenantName ipAddress : string) (db : DB) :
  exists b db1,
    releaseReservedIP false cidr tenantName ipAddress db = (b, None, db1)
    /\ releaseReservedIP false cidr tenantName ipAddress db1
       = (false, None, db1)
    /\ (forall r, In r (ips db1) <->
                  In r (ips db)
                  /\ key_of r <> (cidr, tenantName, ipAddress))
    /\ filter (fun r => negb (same_key cidr tenantName ipAddress r)) (ips db)
       = ips db1.
Proof.
  unfold releaseReservedIP, exec_delete. cbn [ips db_seq].
  eexists _, _. split; [reflexivity|]. cbn [ips db_seq].
  rewrite filter_idem, Z.sub_diag. split; [reflexivity|].
  split; [|reflexivity].
  intro r. rewrite filter_In, negb_true_iff.
  split; intros [Hin Hk]; (split; [exact Hin|]).
  - intro K. apply same_key_iff in K. congruence.
  - destruct (same_key cidr tenantName ipAddress r) eqn:E; [|reflexivity].
    apply same_key_iff in E. contradiction.
Qed.

(** ** How reservations and releases compose *)

(** the scan stops at the latest where a candidate is free or outside *)
Lemma stops_by (taken : nat -> string -> bool) (n : IPNet) (k : nat) :
  forall ip i,
    Contains n (increments k ip) = false
    \/ taken (i + k)%nat (IP_String (increments k ip)) = false ->
    exists j r, (j <= k)%nat /\ stops_at taken n ip i j r.
Proof.
  induction k as [|k IH]; intros ip i H.
  - cbn [increments] in H. rewrite Nat.add_0_r in H.
    destruct (Contains n ip) eqn:HC.
    + destruct H as [H|H]; [discriminate|].
      exists O, (IP_String ip, true). split; [lia|]. apply stop_found; auto.
    + exists O, (EmptyString, false). split; [lia|]. apply stop_left, HC.
  - destruct (Contains n ip) eqn:HC.
    + destruct (taken i (IP_String ip)) eqn:HT.
      * rewrite <- Nat.add_succ_comm in H.
        destruct (IH _ _ H) as (j & r & Hj & Hs).
        exists (S j), r. split; [lia|]. apply stop_next; assumption.
      * exists O, (IP_String ip, true). split; [lia|].
        apply stop_found; assumption.
    + exists O, (EmptyString, false). split; [lia|]. apply stop_left, HC.
Qed.

(** after a release under a named tenant the address is free for it *)
Lemma released_is_free (cidr tenantName a : string) (db : DB) :
  tenantName <> EmptyString -> a <> EmptyString ->
  isIPReserved false a cidr tenantName
    (fst (fst (exec_delete false cidr tenantName a db))) = false.
Proof.
  intros Ht Ha.
  destruct (isIPReserved false a cidr tenantName _) eqn:E; [|reflexivity].
  exfalso.
  apply (proj1 (isIPReserved_spec _ _ _ _ Ha)) in E.
  destruct E as (r & Hin & Hc & Hi & [Hte|Htn]); [contradiction|].
  unfold exec_delete in Hin. cbn [fst ips] in Hin.
  apply filter_In in Hin as [_ Hk]. apply negb_true_iff in Hk.
  unfold same_key in Hk. rewrite Hc, Hi, Htn, !String.eqb_refl in Hk.
  discriminate.
Qed.

(** X9.  A release followed by a reservation can hand the released
    address out again.  If the address is a candidate of the block that
    the scan can reach (every candidate up to it is contained), then
    after releasing it for a named tenant the next reserveIP for that
    tenant, on a backend that does not fail, succeeds and returns that
    address or an earlier candidate. *)
Theorem release_then_reserve_reuses (fuel j : nat)
  (cidr tenantName purpose : string) (ip : IP) (n : IPNet) (db : DB) :
  tenantName <> EmptyString ->
  ParseCIDR cidr = Some (ip, n) ->
  (forall i, (i <= j)%nat ->
             Contains n (increments i (incrementIP (IPNet_IP n))) = true) ->
  (j < fuel)%nat ->
  exists b db1 k db2,
    releaseReservedIP false cidr tenantName
      (IP_String (increments j (incrementIP (IPNet_IP n)))) db
    = (b, None, db1)
    /\ (k <= j)%nat
    /\ reserveIP fuel no_fault false false cidr tenantName purpose db1
       = Some (IP_String (increments k (incrementIP (IPNet_IP n))),
               true, None, db2).
Proof.
  intros Ht HP Hall Hf.
  set (start := incrementIP (IPNet_IP n)) in *.
  set (a := IP_String (increments j start)).
  pose proof (released_is_free cidr tenantName a db Ht
                (IP_String_nonempty _)) as Hfree.
  unfold releaseReservedIP.
  destruct (exec_delete false cidr tenantName a db) as [[db1 rows] err] eqn:E.
  assert (err = None) by (unfold exec_delete in E; congruence). subst err.
  cbn [fst] in Hfree.
  set (taken := fun (i : nat) x =>
                  isIPReserved (no_fault i) x cidr tenantName db1).
  destruct (stops_by taken n j start O (or_intror Hfree))
    as (k & r & Hk & Hst).
  destruct (stops_at_inv _ _ _ _ _ _ Hst) as [_ [(_ & _ & ->)|(HC & _)]].
  2:{ rewrite Hall in HC by exact Hk. discriminate. }
  assert (HF : findAvailableIP fuel no_fault cidr tenantName db1
               = Some (IP_String (increments k start), true)).
  { unfold findAvailableIP. rewrite (scan_block_parsed _ _ _ _ _ HP).
    apply (scan_complete _ _ _ _ _ _ Hst). lia. }
  eexists _, db1, k, _. split; [reflexivity|]. split; [exact Hk|].
  apply reserveIP_of_found, HF.
Qed.

Lemma release_then_reserve_reuses_witness :
  exists b db1 k db2,
    releaseReservedIP false "10.0.0.0/24" "t" "10.0.0.2"
      (mkDB [mkRow 1 "10.0.0.0/24" "t" "10.0.0.1" "p";
             mkRow 2 "10.0.0.0/24" "t" "10.0.0.2" "p"] 2)
    = (b, None, db1)
    /\ (k <= 1)%nat
    /\ reserveIP 3 no_fault false false "10.0.0.0/24" "t" "p" db1
       = Some (IP_String (increments k [10; 0; 0; 1]), true, None, db2).
Proof.
  apply (release_then_reserve_reuses 3 1 "10.0.0.0/24" "t" "p"
           (IPv4 10 0 0 0) (mkIPNet [10; 0; 0; 0] [255; 255; 255; 0])).
  - discriminate.
  - reflexivity.
  - intros i Hi.
    assert (i = 0 \/ i = 1)%nat as [-> | ->] by lia; reflexivity.
  - lia.
Defined.

(** X10.  Reservations are kept apart by the cidr as written and, for a
    named tenant, by the tenant: when the store has no row under the
    given cidr string for the given tenant (no row under that cidr at
    all, if the tenant is empty), findAvailableIP returns the first
    address of the block, whatever other tenants, or the same block under
    another spelling, already hold, and whether its query fails or not. *)
Theorem first_address_when_no_rows_match (fuel : nat) (qfault : nat -> bool)
  (cidr tenantName : string) (ip : IP) (n : IPNet) (db : DB) :
  ParseCIDR cidr = Some (ip, n) ->
  Contains n (incrementIP (IPNet_IP n)) = true ->
  (forall r, In r (ips db) ->
             ~ (row_cidr r = cidr
                /\ (tenantName = EmptyString \/ row_tenant_name r = tenantName))) ->
  findAvailableIP (S fuel) qfault cidr tenantName db
  = Some (IP_String (incrementIP (IPNet_IP n)), true).
Proof.
  intros HP HC Hno.
  unfold findAvailableIP. rewrite (scan_block_parsed _ _ _ _ _ HP).
  cbn [scan]. rewrite HC.
  destruct (isIPReserved (qfault O) (IP_String (incrementIP (IPNet_IP n)))
              cidr tenantName db) eqn:E; [|reflexivity].
  apply (isIPReserved_true _ _ _ _ _ (IP_String_nonempty _)) in E as [_ E].
  apply (proj1 (isIPReserved_spec _ _ _ _ (IP_String_nonempty _))) in E.
  destruct E as (r & Hin & Hc & _ & Ht).
  destruct (Hno r Hin). tauto.
Qed.

Lemma first_address_when_no_rows_match_witness :
  findAvailableIP 1 no_fault "10.0.0.0/24" "tenant-b"
    (mkDB [mkRow 1 "10.0.0.0/24" "tenant-a" "10.0.0.1" "p";
           mkRow 2 "10.0.0.9/24" "tenant-b" "10.0.0.1" "p"] 2)
  = Some ("10.0.0.1"%string, true).
Proof.
  apply (first_address_when_no_rows_match 0 no_fault "10.0.0.0/24" "tenant-b"
           (IPv4 10 0 0 0) (mkIPNet [10; 0; 0; 0] [255; 255; 255; 0])).
  - reflexivity.
  - reflexivity.
  - intros r [<-|[<-|[]]] [Hc Ht]; cbn in Hc, Ht.
    + destruct Ht; discriminate.
    + discriminate.
Defined.

(** ** Listing after a reservation *)

(** X11.  getIPsInSubnet sees a new reservation only if its cidr was
    written in canonical form.  After a successful reserveIP under a cidr
    that equals its own canonical form, listing that cidr returns the
    addresses it returned before together with the new address, in an
    order that is the store's choice; under a cidr that differs from its
    canonical form, listing that same cidr returns the addresses it
    returned before and nothing for the new reservation. *)
Theorem listing_after_reservation (fuel : nat) (qfault : nat -> bool)
  (rfault fault : bool) (order order' : list Row -> list Row)
  (cidr tenantName purpose : string) (ip : IP) (n : IPNet)
  (db db' : DB) (s : string) (ok : bool) :
  arranges order -> arranges order' ->
  ParseCIDR cidr = Some (ip, n) ->
  reserveIP fuel qfault rfault fault cidr tenantName purpose db
  = Some (s, ok, None, db') ->
  snd (getIPsInSubnet QueryOK order' cidr db') = None
  /\ (IPNet_String n = cidr ->
      Permutation (fst (getIPsInSubnet QueryOK order' cidr db'))
        (s :: fst (getIPsInSubnet QueryOK order cidr db)))
  /\ (IPNet_String n <> cidr ->
      Permutation (fst (getIPsInSubnet QueryOK order' cidr db'))
        (fst (getIPsInSubnet QueryOK order cidr db))
      /\ getIPsInSubnet QueryOK order cidr db'
         = getIPsInSubnet QueryOK order cidr db).
Proof.
  intros Ho Ho' HP H.
  destruct (reserveIP_success _ _ _ _ _ _ _ _ _ _ _ H)
    as (_ & _ & _ & _ & _ & ->).
  pose proof (listing_permutation order cidr ip n db Ho HP) as P.
  pose proof (listing_permutation order' cidr ip n
                (mkDB (ips db ++ [mkRow (db_seq db + 1) cidr tenantName s
                                    purpose]) (db_seq db + 1)) Ho' HP) as P'.
  cbn [ips] in P'. rewrite filter_app, map_app in P'.
  cbn [filter row_cidr] in P'.
  split; [rewrite (getIPsInSubnet_parsed _ _ _ _ _ HP); reflexivity|].
  split; intro E.
  - rewrite E in P, P'. rewrite String.eqb_refl in P'.
    cbn [map row_ip_address] in P'.
    rewrite P', P. apply Permutation_sym, Permutation_cons_append.
  - assert (En : String.eqb cidr (IPNet_String n) = false)
      by (apply String.eqb_neq; congruence).
    rewrite En in P'. cbn [map] in P'. rewrite app_nil_r in P'.
    split; [rewrite P', P; reflexivity|].
    rewrite !(getIPsInSubnet_parsed _ _ _ _ _ HP). cbn [ips].
    rewrite filter_app. cbn [filter row_cidr]. rewrite En, app_nil_r.
    reflexivity.
Qed.

Lemma listing_after_reservation_witness :
  Permutation
    (fst (getIPsInSubnet QueryOK (@rev Row) "10.0.0.0/24"
            (mkDB [mkRow 1 "10.0.0.0/24" "t" "10.0.0.1" "p";
                   mkRow 2 "10.0.0.0/24" "t" "10.0.0.2" "p"] 2)))
    ("10.0.0.2"%string
     :: fst (getIPsInSubnet QueryOK (fun l => l) "10.0.0.0/24"
               (mkDB [mkRow 1 "10.0.0.0/24" "t" "10.0.0.1" "p"] 1))).
Proof.
  apply (listing_after_reservation 3 no_fault false false
           (fun l => l) (@rev Row) "10.0.0.0/24" "t" "p"
           (IPv4 10 0 0 0) (mkIPNet [10; 0; 0; 0] [255; 255; 255; 0])
           (mkDB [mkRow 1 "10.0.0.0/24" "t" "10.0.0.1" "p"] 1) _
           "10.0.0.2" true).
  - intro rows. apply Permutation_refl.
  - intro rows. apply Permutation_sym, Permutation_rev.
  - reflexivity.
  - reflexivity.
  - reflexivity.
Defined.

(** ** The order of the scan and where its result lies *)

Section ContainedRun.

Variables (ip : IP) (n : IPNet) (L : nat) (p : Z).
Hypothesis Hshape : block_shape ip n L p.

Local Abbreviation start := (incrementIP (IPNet_IP n)).

(** a run of contained candidates ends before the range does *)
Lemma contained_run_below_exit (i : nat) :
  1 <= p ->
  (forall j, (j <= i)%nat -> Contains n (increments j start) = true) ->
  Z.of_nat i < block_size L p - 1.
Proof.
  intros Hp Hrun.
  pose proof (cand_exit ip n L p Hshape Hp) as Hexit.
  pose proof (block_size_pos ip n L p Hshape) as HK.
  destruct (Z.lt_ge_cases (Z.of_nat i) (block_size L p - 1)) as [|Hge];
    [assumption|].
  rewrite Hrun in Hexit by lia. discriminate.
Qed.

Lemma contained_run_val (i : nat) :
  1 <= p ->
  (forall j, (j <= i)%nat -> Contains n (increments j start) = true) ->
  ip_val (increments i start) = ip_val (IPNet_IP n) + 1 + Z.of_nat i
  /\ ip_val (increments i start) < ip_val (IPNet_IP n) + block_size L p.
Proof.
  intros Hp Hrun.
  pose proof (contained_run_below_exit i Hp Hrun) as Hlt.
  rewrite (cand_val ip n L p Hshape i Hlt). lia.
Qed.

End ContainedRun.

(** the candidates up to the one a scan stops at with an address are
    all contained *)
Lemma stops_found_run (taken : nat -> string -> bool) (n : IPNet) (c : IP)
  (i k : nat) (s : string) :
  stops_at taken n c i k (s, true) ->
  forall j, (j <= k)%nat -> Contains n (increments j c) = true.
Proof.
  intros Hst j Hj.
  destruct (stops_at_inv _ _ _ _ _ _ Hst) as [Hprev [(HC & _)|(_ & E)]];
    [|discriminate].
  destruct (Nat.eq_dec j k) as [->|Hne]; [exact HC|].
  apply Hprev. lia.
Qed.

(** X12.  In a block with a prefix of at least one bit the scan hands
    the addresses to the is-taken predicate in increasing order, one by
    one from the network address plus one, skipping none and repeating
    none: the i-th address queried is the network address plus i + 1. *)
Theorem scan_queries_in_order (cidr : string) (ip : IP) (n : IPNet)
  (taken : nat -> string -> bool) (fuel : nat) (s : string) (ok : bool)
  (queried : list IP) :
  ParseCIDR cidr = Some (ip, n) ->
  1 <= prefix_len n ->
  scan_block_log fuel taken cidr = Some (s, ok, queried) ->
  forall i, (i < length queried)%nat ->
            ip_val (nth i queried []) = ip_val (IPNet_IP n) + 1 + Z.of_nat i.
Proof.
  intros HP Hp Hrun i Hi.
  destruct (ParseCIDR_shape _ _ _ HP) as (L & p & Hs).
  rewrite (prefix_len_shape _ _ _ _ Hs) in Hp.
  destruct (scan_block_log_run _ _ _ taken HP) as [_ Hsound].
  apply Hsound in Hrun as (k & _ & Hst & ->).
  unfold queried_upto in *. rewrite length_map, length_seq in Hi.
  rewrite (nth_indep _ [] (increments 0 (incrementIP (IPNet_IP n))))
    by (rewrite length_map, length_seq; exact Hi).
  rewrite (map_nth (fun j => increments j (incrementIP (IPNet_IP n)))),
    seq_nth by exact Hi.
  cbn [Nat.add].
  apply (contained_run_val ip n L p Hs i Hp).
  intros j Hj.
  destruct (stops_at_inv _ _ _ _ _ _ Hst) as [Hprev Hend].
  destruct ok.
  - apply (stops_found_run _ _ _ _ _ _ Hst). lia.
  - apply Hprev. lia.
Qed.

Lemma scan_queries_in_order_witness :
  ip_val (nth 2 [[10; 0; 0; 1]; [10; 0; 0; 2]; [10; 0; 0; 3]] [])
  = ip_val [10; 0; 0; 0] + 1 + Z.of_nat 2.
Proof.
  apply (scan_queries_in_order "10.0.0.0/30" (IPv4 10 0 0 0)
           (mkIPNet [10; 0; 0; 0] [255; 255; 255; 252])
           (fun _ _ => true) 5 EmptyString false
           [[10; 0; 0; 1]; [10; 0; 0; 2]; [10; 0; 0; 3]]).
  - reflexivity.
  - vm_compute. discriminate.
  - reflexivity.
  - cbn [length]. lia.
Defined.

(** X13.  In a block with a prefix of at least one bit, the address a
    successful reserveIP returns is the text of an address that the block
    contains and that lies strictly above the network address and inside
    the range of the block: neither the network address nor an address of
    another block is ever handed out, whichever queries fail. *)
Theorem reserved_address_lies_in_block (fuel : nat) (qfault : nat -> bool)
  (rfault fault : bool) (cidr tenantName purpose : string) (ip : IP)
  (n : IPNet) (db db' : DB) (s : string) (ok : bool) :
  ParseCIDR cidr = Some (ip, n) ->
  1 <= prefix_len n ->
  reserveIP fuel qfault rfault fault cidr tenantName purpose db
  = Some (s, ok, None, db') ->
  exists a,
    s = IP_String a
    /\ length a = length (IPNet_IP n) /\ bytes_ok a
    /\ Contains n a = true
    /\ ip_val (IPNet_IP n) < ip_val a
       < ip_val (IPNet_IP n)
         + 2 ^ (8 * Z.of_nat (length (IPNet_IP n)) - prefix_len n).
Proof.
  intros HP Hp H.
  destruct (reserveIP_success _ _ _ _ _ _ _ _ _ _ _ H) as (_ & _ & Hf & _).
  destruct (findAvailableIP_found _ _ _ _ _ _ Hf)
    as (ip' & n' & k & HP' & _ & Hst & -> & HC & _).
  rewrite HP in HP'. injection HP' as <- <-.
  destruct (ParseCIDR_shape _ _ _ HP) as (L & p & Hs).
  rewrite (prefix_len_shape _ _ _ _ Hs) in *.
  destruct (shape_facts ip n L p Hs) as (Hl & _).
  pose proof (contained_run_val ip n L p Hs k Hp
                (stops_found_run _ _ _ _ _ _ Hst)) as [Hv Hlt].
  exists (increments k (incrementIP (IPNet_IP n))).
  split; [reflexivity|].
  split; [rewrite Hl; apply (cand_length ip n L p Hs)|].
  split; [apply (cand_bytes_ok ip n L p Hs)|].
  split; [exact HC|].
  rewrite Hl. unfold block_size in Hlt. lia.
Qed.

Lemma reserved_address_lies_in_block_witness :
  exists a,
    "10.0.0.1"%string = IP_String a
    /\ length a = 4%nat /\ bytes_ok a
    /\ Contains (mkIPNet [10; 0; 0; 0] [255; 255; 255; 0]) a = true
    /\ ip_val [10; 0; 0; 0] < ip_val a
       < ip_val [10; 0; 0; 0]
         + 2 ^ (8 * Z.of_nat 4
                - prefix_len (mkIPNet [10; 0; 0; 0] [255; 255; 255; 0])).
Proof.
  apply (reserved_address_lies_in_block 3 no_fault false false
           "10.0.0.0/24" "t" "p"
           (IPv4 10 0 0 0) (mkIPNet [10; 0; 0; 0] [255; 255; 255; 0])
           empty_db (mkDB [mkRow 1 "10.0.0.0/24" "t" "10.0.0.1" "p"] 1)
           "10.0.0.1" true).
  - reflexivity.
  - vm_compute. discriminate.
  - reflexivity.
Defined.

(** ** An invariant of the store *)

Lemma reserveIP_failure_unchanged (fuel : nat) (qfault : nat -> bool)
  (rfault fault : bool) (cidr tenantName purpose : string) (db : DB)
  (s : string) (ok : bool) (e : error) (db' : DB) :
  reserveIP fuel qfault rfault fault cidr tenantName purpose db
  = Some (s, ok, Some e, db') ->
  db' = db.
Proof.
  unfold reserveIP.
  destruct (findAvailableIP fuel qfault cidr tenantName db) as [[ip avail]|];
    [|discriminate].
  destruct (negb avail); [congruence|].
  destruct (isIPReserved rfault ip cidr tenantName db); [congruence|].
  destruct (exec_insert fault cidr tenantName ip purpose db) as [d [e'|]] eqn:E;
    [|discriminate].
  apply exec_insert_failure in E. congruence.
Qed.

(** X14.  Every store that reservations and releases can build from the
    empty one, whichever queries and statements fail on the way, keeps
    the key (cidr, tenant, address) unique and holds, in every row, a
    non-empty address that the row's own block contains. *)
Theorem reachable_store_invariant (db : DB) :
  reachable db ->
  unique_keys db
  /\ forall r, In r (ips db) ->
               row_in_block r /\ row_ip_address r <> EmptyString.
Proof.
  induction 1 as [|db db' _ [IHu IHr] Hstep].
  - split; [apply unique_keys_empty|intros r []].
  - destruct Hstep
      as [fuel qfault rfault fault cidr t purpose db s ok err db' H
         |fault cidr t a db b err db' H].
    + destruct err as [e|].
      * apply reserveIP_failure_unchanged in H. subst db'. auto.
      * split; [exact (reserveIP_unique _ _ _ _ _ _ _ _ _ _ _ _ IHu H)|].
        destruct (reserveIP_success _ _ _ _ _ _ _ _ _ _ _ H)
          as (_ & _ & Hf & _ & _ & ->).
        destruct (findAvailableIP_found _ _ _ _ _ _ Hf)
          as (ip & n & k & HP & _ & _ & -> & HC & _).
        intros r Hin. cbn [ips] in Hin.
        apply in_app_or in Hin as [Hin|[<-|[]]]; [auto|].
        split; [|apply IP_String_nonempty].
        exists ip, n, (increments k (incrementIP (IPNet_IP n))). auto.
    + pose proof (exec_delete_unique fault cidr t a db IHu) as U.
      unfold releaseReservedIP in H. unfold exec_delete in *.
      destruct fault; cbn [fst] in *.
      * injection H as _ _ <-. auto.
      * injection H as _ _ <-. split; [exact U|].
        intros r Hin. cbn [ips] in Hin. apply filter_In in Hin as [Hin _].
        auto.
Qed.

Lemma reachable_store_invariant_witness :
  unique_keys (mkDB [mkRow 1 "10.0.0.0/24" "t" "10.0.0.1" "p"] 1)
  /\ forall r, In r [mkRow 1 "10.0.0.0/24" "t" "10.0.0.1" "p"] ->
               row_in_block r /\ row_ip_address r <> EmptyString.
Proof.
  apply (reachable_store_invariant
           (mkDB [mkRow 1 "10.0.0.0/24" "t" "10.0.0.1" "p"] 1)).
  apply (reach_step empty_db); [apply reach_empty|].
  apply (step_reserve 3 no_fault false false "10.0.0.0/24" "t" "p" empty_db
           "10.0.0.1" true None). reflexivity.
Defined.

(** ** The request handlers *)

(** X15.  ReserveIPHandler changes the store only when it answers 200:
    every other response (405 for a method other than POST, 400 for a
    body that does not decode, 500 for an error of reserveIP) leaves the
    store as it was, and a 200 response carries reserved = true and the
    address of the one row that was appended for the payload. *)
Theorem ReserveIPHandler_store_effect (fuel : nat) (qfault : nat -> bool)
  (rfault fault : bool)
  (method : string) (body : option reserve_request) (db : DB)
  (resp : reserve_response) (db' : DB) :
  ReserveIPHandler fuel qfault rfault fault method body db
  = Some (resp, db') ->
  (reserve_status resp <> 200 -> db' = db)
  /\ (forall ip reserved,
        resp = ReserveOK ip reserved ->
        reserved = true /\ method = "POST"%string
        /\ exists req,
             body = Some req
             /\ ips db' = ips db ++ [mkRow (db_seq db + 1) (req_cidr req)
                                       (req_tenant_name req) ip
                                       (req_purpose req)]).
Proof.
  unfold ReserveIPHandler.
  destruct (String.eqb_spec method "POST") as [->|Hm]; cbn [negb].
  2:{ intro H. injection H as <- <-. split; [reflexivity|discriminate]. }
  destruct body as [req|].
  2:{ intro H. injection H as <- <-. split; [reflexivity|discriminate]. }
  destruct (reserveIP fuel qfault rfault fault (req_cidr req)
              (req_tenant_name req) (req_purpose req) db)
    as [[[[s ok] [e|]] d]|] eqn:E;
    [| |discriminate]; intro H; injection H as <- <-.
  - apply reserveIP_failure_unchanged in E.
    split; [intros _; exact E|discriminate].
  - destruct (reserveIP_success _ _ _ _ _ _ _ _ _ _ _ E)
      as (_ & -> & _ & _ & _ & ->).
    split; [intro C; cbn in C; congruence|].
    intros ip reserved Hr. injection Hr as <- <-.
    split; [reflexivity|]. split; [reflexivity|].
    exists req. split; reflexivity.
Qed.

Lemma ReserveIPHandler_store_effect_witness :
  ReserveIPHandler 3 no_fault false false "POST"
    (Some (mkReserveRequest "" "" "")) empty_db
  = Some (ReserveInternalServerError ErrNoAvailableIP, empty_db)
  /\ (reserve_status (ReserveInternalServerError ErrNoAvailableIP) <> 200 ->
      empty_db = empty_db).
Proof.
  split; [reflexivity|].
  apply (ReserveIPHandler_store_effect 3 no_fault false false "POST"
           (Some (mkReserveRequest "" "" "")) empty_db
           (ReserveInternalServerError ErrNoAvailableIP) empty_db).
  reflexivity.
Defined.

Lemma delete_count (cidr tenantName ip : string) (rows : list Row) :
  let kept := filter (fun r => negb (same_key cidr tenantName ip r)) rows in
  (existsb (same_key cidr tenantName ip) rows = false /\ kept = rows)
  \/ (existsb (same_key cidr tenantName ip) rows = true
      /\ (length kept < length rows)%nat).
Proof.
  cbv zeta.
  destruct (existsb (same_key cidr tenantName ip) rows) eqn:E.
  - right. split; [reflexivity|].
    induction rows as [|r rows IH]; [discriminate|].
    cbn [existsb] in E. cbn [filter].
    destruct (same_key cidr tenantName ip r) eqn:K; cbn [negb length].
    + pose proof (filter_length_le
                    (fun r => negb (same_key cidr tenantName ip r)) rows).
      lia.
    + cbn [orb] in E. specialize (IH E). lia.
  - left. split; [reflexivity|]. apply filter_none_matching, E.
Qed.

(** X16.  ReleaseIPHandler, given a POST with a body that decodes and a
    backend that works, always answers 200; success is true exactly when
    the store held a row with the given cidr, tenant and address, and
    releasing what was never reserved answers success = false and leaves
    the store as it was. *)
Theorem ReleaseIPHandler_reports_removal (req : release_request) (db : DB) :
  exists success db',
    ReleaseIPHandler false "POST" (Some req) db = (ReleaseOK success, db')
    /\ (success = true <->
        exists r, In r (ips db)
                  /\ key_of r = (rel_cidr req, rel_tenant_name req,
                                 rel_ip_address req))
    /\ (success = false -> db' = db)
    /\ forall r, In r (ips db') ->
                 key_of r <> (rel_cidr req, rel_tenant_name req,
                              rel_ip_address req).
Proof.
  unfold ReleaseIPHandler, releaseReservedIP, exec_delete. cbn [negb String.eqb].
  change (String.eqb "POST" "POST") with true. cbn [negb].
  eexists _, _. split; [reflexivity|].
  pose proof (delete_count (rel_cidr req) (rel_tenant_name req)
                (rel_ip_address req) (ips db)) as C. cbv zeta in C.
  assert (Hex : existsb (same_key (rel_cidr req) (rel_tenant_name req)
                           (rel_ip_address req)) (ips db) = true <->
                exists r, In r (ips db)
                          /\ key_of r = (rel_cidr req, rel_tenant_name req,
                                         rel_ip_address req)).
  { rewrite existsb_exists. split; intros (r & Hin & Hk); exists r;
      (split; [exact Hin|apply same_key_iff, Hk]). }
  split; [|split].
  - rewrite <- Hex, Z.ltb_lt. destruct C as [[E K]|[E K]]; rewrite E.
    + rewrite K. split; [lia|discriminate].
    + split; [reflexivity|lia].
  - intro Hs. apply Z.ltb_ge in Hs.
    destruct C as [[E K]|[E K]]; [|lia].
    rewrite K. destruct db; reflexivity.
  - intros r Hin K. cbn [ips] in Hin. apply filter_In in Hin as [_ Hk].
    apply same_key_iff in K. rewrite K in Hk. discriminate.
Qed.

(** ** The Terraform provider against the server *)

Lemma ParseCIDR_has_slash (s : string) (x : IP * IPNet) :
  ParseCIDR s = Some x ->
  strings_Contains_slash s = true /\ s <> EmptyString.
Proof.
  unfold ParseCIDR, strings_Contains_slash.
  destruct s; [discriminate|].
  destruct (IndexByteString _ _); [split; [reflexivity|discriminate]|discriminate].
Qed.

Lemma ip_exists_In (l : list string) (a : string) :
  provider.ip_exists l a = true <-> In a l.
Proof.
  induction l as [|x l IH]; cbn [provider.ip_exists In].
  - split; [discriminate|tauto].
  - destruct (String.eqb_spec x a) as [->|Hne].
    + tauto.
    + rewrite IH. split; [tauto|intros [E|H]; [contradiction|exact H]].
Qed.

(** what the provider's call of the reserve endpoint returns *)
Lemma provider_reserveIP_cases (fuel : nat) (qfault : nat -> bool)
  (rfault fault : bool) (t : provider.transport)
  (cidr tenantName purpose : string) (db : DB)
  (s : string) (e : option provider.call_error) (db' : DB) :
  provider.reserveIP fuel qfault rfault fault t cidr tenantName purpose db
  = Some (s, e, db') ->
  (t = provider.RequestLost /\ s = EmptyString
   /\ e = Some provider.TransportError /\ db' = db)
  \/ exists x ok err,
       reserveIP fuel qfault rfault fault cidr tenantName purpose db
       = Some (x, ok, err, db')
       /\ ((t = provider.ResponseLost /\ s = EmptyString
            /\ e = Some provider.TransportError)
           \/ (t <> provider.RequestLost /\ t <> provider.ResponseLost
               /\ err <> None /\ s = EmptyString
               /\ e = Some (provider.StatusCode 500))
           \/ (t = provider.BodyLost /\ err = None /\ s = EmptyString
               /\ e = Some provider.BodyError)
           \/ (t = provider.Delivered /\ err = None /\ s = x /\ e = None)).
Proof.
  unfold provider.reserveIP, ReserveIPHandler.
  change (String.eqb "POST" "POST") with true. cbn [negb].
  cbn [req_cidr req_tenant_name req_purpose].
  destruct t.
  2:{ intro H. injection H as <- <- <-. left. auto. }
  all: destruct (reserveIP fuel qfault rfault fault cidr tenantName purpose
                   db) as [[[[x ok] [err|]] d0]|] eqn:E;
    try discriminate; cbn [reserve_status Z.eqb Pos.eqb negb];
    intro H; injection H as <- <- <-; right; eexists x, ok, _;
    (split; [reflexivity|]).
  - right. left. repeat split; discriminate.
  - right. right. right. auto.
  - left. auto.
  - left. auto.
  - right. left. repeat split; discriminate.
  - right. right. left. auto.
Qed.

(** a create that succeeded, as the reservation the server made *)
Lemma provider_create_success (fuel : nat) (qfault : nat -> bool)
  (rfault fault : bool) (t : provider.transport)
  (d d' : provider.ResourceData) (db db' : DB) :
  provider.resourceIPCreate fuel qfault rfault fault t d db
  = Some (d', None, db') ->
  t = provider.Delivered
  /\ reserveIP fuel qfault rfault fault (provider.cidr d)
       (provider.tenant_name d) (provider.purpose d) db
     = Some (provider.ip_address d', true, None, db')
  /\ d' = provider.mkResourceData (provider.cidr d) (provider.tenant_name d)
            (provider.purpose d) (provider.ip_address d')
            (provider.ip_address d').
Proof.
  unfold provider.resourceIPCreate.
  destruct (provider.reserveIP fuel qfault rfault fault t (provider.cidr d)
              (provider.tenant_name d) (provider.purpose d) db)
    as [[[s [e|]] d0]|] eqn:E; try discriminate.
  intro H. injection H as <- <-. cbn [provider.ip_address].
  destruct (provider_reserveIP_cases _ _ _ _ _ _ _ _ _ _ _ _ E)
    as [(_ & _ & C & _)
       |(x & ok & err & Hr & [(_ & _ & C)
                             |[(_ & _ & _ & _ & C)
                              |[(_ & _ & _ & C)|(-> & -> & -> & _)]]])];
    try discriminate.
  destruct (reserveIP_success _ _ _ _ _ _ _ _ _ _ _ Hr) as (_ & -> & _).
  auto.
Qed.

(** the read over a transport that works, for a cidr that parses: the
    membership test on the listing *)
Lemma provider_read_parsed (order : list Row -> list Row)
  (d : provider.ResourceData) (db : DB) (ip : IP) (n : IPNet) :
  ParseCIDR (provider.cidr d) = Some (ip, n) ->
  provider.resourceIPRead QueryOK order provider.Delivered d db
  = if provider.ip_exists
         (fst (getIPsInSubnet QueryOK order (provider.cidr d) db))
         (provider.ip_address d)
    then None
    else Some (provider.NotInSubnet (provider.ip_address d) (provider.cidr d)).
Proof.
  intro HP. destruct (ParseCIDR_has_slash _ _ HP) as [Hs Hne].
  unfold provider.resourceIPRead, GetIPsInSubnetHandler, normalize_subnet.
  change (String.eqb "GET" "GET") with true. cbn [negb].
  rewrite Hs. cbn [negb].
  replace (String.eqb (provider.cidr d) "") with false
    by (symmetry; apply String.eqb_neq, Hne).
  rewrite (getIPsInSubnet_parsed _ _ _ _ _ HP).
  cbn [fst list_status Z.eqb Pos.eqb negb].
  destruct (provider.ip_exists _ _); reflexivity.
Qed.

(** X17.  A read that follows a successful create, with the store and
    the transport answering, finds the reserved address only if the cidr
    of the resource is written in canonical form.  With a cidr that
    equals its canonical form the read returns no diagnostic; with a cidr
    that parses but differs from its canonical form (10.0.0.5/24), the
    read fails with "IP address does not exist in subnet" unless another
    reservation under the canonical cidr holds the same address. *)
Theorem provider_read_after_create (fuel : nat) (qfault : nat -> bool)
  (rfault fault : bool) (t : provider.transport)
  (order : list Row -> list Row)
  (d d' : provider.ResourceData) (db db' : DB) (ip : IP) (n : IPNet) :
  arranges order ->
  provider.resourceIPCreate fuel qfault rfault fault t d db
  = Some (d', None, db') ->
  ParseCIDR (provider.cidr d) = Some (ip, n) ->
  (IPNet_String n = provider.cidr d ->
   provider.resourceIPRead QueryOK order provider.Delivered d' db' = None)
  /\ (IPNet_String n <> provider.cidr d ->
      (forall r, In r (ips db) -> row_cidr r = IPNet_String n ->
                 row_ip_address r <> provider.ip_address d') ->
      provider.resourceIPRead QueryOK order provider.Delivered d' db'
      = Some (provider.NotInSubnet (provider.ip_address d')
                (provider.cidr d))).
Proof.
  intros Ho Hc HP.
  destruct (provider_create_success _ _ _ _ _ _ _ _ _ Hc) as (_ & Hr & Hd).
  assert (Ecidr : provider.cidr d' = provider.cidr d)
    by (rewrite Hd; reflexivity).
  assert (HP' : ParseCIDR (provider.cidr d') = Some (ip, n))
    by (rewrite Ecidr; exact HP).
  rewrite (provider_read_parsed order d' db' ip n HP'), Ecidr.
  destruct (reserveIP_success _ _ _ _ _ _ _ _ _ _ _ Hr)
    as (_ & _ & _ & _ & _ & Hdb).
  pose proof (listing_In order (provider.cidr d) ip n db'
                (provider.ip_address d') Ho HP) as Hin.
  split.
  - intro E.
    replace (provider.ip_exists _ _) with true; [reflexivity|].
    symmetry. apply ip_exists_In, Hin.
    exists (mkRow (db_seq db + 1) (provider.cidr d) (provider.tenant_name d)
              (provider.ip_address d') (provider.purpose d)).
    split; [|split; [cbn [row_cidr]; congruence|reflexivity]].
    rewrite Hdb. cbn [ips]. apply in_or_app. right. left. reflexivity.
  - intros E Hno.
    replace (provider.ip_exists _ _) with false; [reflexivity|].
    symmetry. apply not_true_iff_false. intro Hex.
    apply ip_exists_In, Hin in Hex as (r & Hr' & Hk & Hi).
    rewrite Hdb in Hr'. cbn [ips] in Hr'.
    apply in_app_or in Hr' as [Hr'|[<-|[]]].
    + exact (Hno r Hr' Hk Hi).
    + cbn [row_cidr] in Hk. congruence.
Qed.

Lemma provider_read_after_create_witness :
  provider.resourceIPRead QueryOK (@rev Row) provider.Delivered
    (provider.mkResourceData "10.0.0.5/24" "t" "host" "10.0.0.1" "10.0.0.1")
    (mkDB [mkRow 1 "10.0.0.5/24" "t" "10.0.0.1" "host"] 1)
  = Some (provider.NotInSubnet "10.0.0.1" "10.0.0.5/24").
Proof.
  apply (provider_read_after_create 3 no_fault false false provider.Delivered
           (@rev Row)
           (provider.mkResourceData "10.0.0.5/24" "t" "host" "" "")
           (provider.mkResourceData "10.0.0.5/24" "t" "host"
              "10.0.0.1" "10.0.0.1")
           empty_db (mkDB [mkRow 1 "10.0.0.5/24" "t" "10.0.0.1" "host"] 1)
           (IPv4 10 0 0 5) (mkIPNet [10; 0; 0; 0] [255; 255; 255; 0])).
  - intro rows. apply Permutation_sym, Permutation_rev.
  - reflexivity.
  - reflexivity.
  - discriminate.
  - intros r [].
Defined.

(** X18.  A delete that follows a successful create, with the store and
    the transport answering, returns no diagnostic and leaves the rows of
    the store as they were before the create; deleting once more, when
    there is nothing left to remove, still returns no diagnostic and
    changes nothing, because the provider looks at the status code
    only. *)
Theorem provider_delete_after_create (fuel : nat) (qfault : nat -> bool)
  (rfault fault : bool) (t : provider.transport)
  (d d' : provider.ResourceData) (db db1 : DB) :
  provider.resourceIPCreate fuel qfault rfault fault t d db
  = Some (d', None, db1) ->
  exists db2,
    provider.resourceIPDelete false provider.Delivered d' db1 = (None, db2)
    /\ ips db2 = ips db
    /\ provider.resourceIPDelete false provider.Delivered d' db2
       = (None, db2).
Proof.
  intro Hc.
  destruct (provider_create_success _ _ _ _ _ _ _ _ _ Hc) as (_ & Hr & Hd).
  destruct (release_after_reserve _ _ _ _ _ _ _ _ _ _ _ Hr)
    as (db2 & H1 & H2).
  assert (E : provider.Id d' = provider.ip_address d'
              /\ provider.cidr d' = provider.cidr d
              /\ provider.tenant_name d' = provider.tenant_name d)
    by (rewrite Hd; auto).
  destruct E as (E1 & E2 & E3).
  exists db2.
  unfold provider.resourceIPDelete, provider.releaseIP, ReleaseIPHandler.
  change (String.eqb "POST" "POST") with true. cbn [negb].
  cbn [rel_cidr rel_tenant_name rel_ip_address].
  rewrite E1, E2, E3, H1. split; [reflexivity|]. split; [exact H2|].
  rewrite (release_repeated _ _ _ _ _ _ _ H1). reflexivity.
Qed.

Lemma provider_delete_after_create_witness :
  exists db2,
    provider.resourceIPDelete false provider.Delivered
      (provider.mkResourceData "10.0.0.0/24" "t" "host" "10.0.0.1" "10.0.0.1")
      (mkDB [mkRow 1 "10.0.0.0/24" "t" "10.0.0.1" "host"] 1) = (None, db2)
    /\ ips db2 = ips empty_db
    /\ provider.resourceIPDelete false provider.Delivered
         (provider.mkResourceData "10.0.0.0/24" "t" "host" "10.0.0.1"
            "10.0.0.1") db2 = (None, db2).
Proof.
  apply (provider_delete_after_create 3 no_fault false false
           provider.Delivered
           (provider.mkResourceData "10.0.0.0/24" "t" "host" "" "")).
  reflexivity.
Defined.

(** ** First free, and what exhaustion means *)

(** the candidates a scan has passed were reserved: an answer "reserved"
    comes from a query that went through and found a row *)
Lemma passed_candidates_reserved (qfault : nat -> bool)
  (cidr tenantName : string) (db : DB) (n : IPNet) (c : IP) (k : nat)
  (r : string * bool) :
  stops_at (fun i x => isIPReserved (qfault i) x cidr tenantName db) n c O
    k r ->
  forall j, (j < k)%nat ->
    Contains n (increments j c) = true
    /\ qfault j = false
    /\ isIPReserved false (IP_String (increments j c)) cidr tenantName db
       = true.
Proof.
  intros Hst j Hj.
  destruct (stops_at_inv _ _ _ _ _ _ Hst) as [Hprev _].
  destruct (Hprev j Hj) as [HC HT]. cbn beta in HT.
  split; [exact HC|].
  apply (isIPReserved_true _ _ _ _ _ (IP_String_nonempty _) HT).
Qed.

(** X19.  reserveIP hands out the first candidate that is not reported
    as reserved: when it succeeds, the returned address is a candidate of
    the block, and every candidate before it is contained in the block
    and reserved under the given cidr and tenant, its query having gone
    through; no free address is skipped, whichever queries fail. *)
Theorem reserveIP_takes_first_free (fuel : nat) (qfault : nat -> bool)
  (rfault fault : bool) (cidr tenantName purpose : string) (ip : IP)
  (n : IPNet) (db db' : DB) (s : string) (ok : bool) :
  ParseCIDR cidr = Some (ip, n) ->
  reserveIP fuel qfault rfault fault cidr tenantName purpose db
  = Some (s, ok, None, db') ->
  exists k,
    s = IP_String (increments k (incrementIP (IPNet_IP n)))
    /\ Contains n (increments k (incrementIP (IPNet_IP n))) = true
    /\ forall j, (j < k)%nat ->
         Contains n (increments j (incrementIP (IPNet_IP n))) = true
         /\ qfault j = false
         /\ isIPReserved false
              (IP_String (increments j (incrementIP (IPNet_IP n))))
              cidr tenantName db = true.
Proof.
  intros HP H.
  destruct (reserveIP_success _ _ _ _ _ _ _ _ _ _ _ H) as (_ & _ & Hf & _).
  destruct (findAvailableIP_found _ _ _ _ _ _ Hf)
    as (ip' & n' & k & HP' & _ & Hst & Hs & HC & _).
  rewrite HP in HP'. injection HP' as <- <-.
  exists k. split; [exact Hs|]. split; [exact HC|].
  apply (passed_candidates_reserved _ _ _ _ _ _ _ _ Hst).
Qed.

Lemma reserveIP_takes_first_free_witness :
  exists k,
    "10.0.0.2"%string = IP_String (increments k (incrementIP [10; 0; 0; 0]))
    /\ Contains (mkIPNet [10; 0; 0; 0] [255; 255; 255; 0])
         (increments k (incrementIP [10; 0; 0; 0])) = true
    /\ forall j, (j < k)%nat ->
         Contains (mkIPNet [10; 0; 0; 0] [255; 255; 255; 0])
           (increments j (incrementIP [10; 0; 0; 0])) = true
         /\ no_fault j = false
         /\ isIPReserved false
              (IP_String (increments j (incrementIP [10; 0; 0; 0])))
              "10.0.0.0/24" "t"
              (mkDB [mkRow 1 "10.0.0.0/24" "t" "10.0.0.1" "p"] 1) = true.
Proof.
  apply (reserveIP_takes_first_free 3 no_fault false false
           "10.0.0.0/24" "t" "q"
           (IPv4 10 0 0 0) (mkIPNet [10; 0; 0; 0] [255; 255; 255; 0])
           (mkDB [mkRow 1 "10.0.0.0/24" "t" "10.0.0.1" "p"] 1)
           (mkDB [mkRow 1 "10.0.0.0/24" "t" "10.0.0.1" "p";
                  mkRow 2 "10.0.0.0/24" "t" "10.0.0.2" "q"] 2)
           "10.0.0.2" true).
  - reflexivity.
  - reflexivity.
Defined.

(** X20.  For a cidr that parses, findAvailableIP reports no address
    only when the scan has reached a candidate outside the block with
    every candidate before it reserved under the given cidr and tenant:
    "No available IP" is never returned while a candidate the scan can
    reach is free, whichever queries fail. *)
Theorem exhaustion_means_all_reserved (fuel : nat) (qfault : nat -> bool)
  (cidr tenantName : string) (ip : IP) (n : IPNet) (db : DB) (s : string) :
  ParseCIDR cidr = Some (ip, n) ->
  findAvailableIP fuel qfault cidr tenantName db = Some (s, false) ->
  s = EmptyString
  /\ exists k,
       Contains n (increments k (incrementIP (IPNet_IP n))) = false
       /\ forall j, (j < k)%nat ->
            Contains n (increments j (incrementIP (IPNet_IP n))) = true
            /\ qfault j = false
            /\ isIPReserved false
                 (IP_String (increments j (incrementIP (IPNet_IP n))))
                 cidr tenantName db = true.
Proof.
  intros HP H. unfold findAvailableIP in H.
  rewrite (scan_block_parsed _ _ _ _ _ HP) in H.
  apply scan_sound in H as (k & _ & Hst).
  destruct (stops_at_inv _ _ _ _ _ _ Hst) as [_ [(_ & _ & E)|(HC & E)]];
    [discriminate|].
  injection E as ->. split; [reflexivity|]. exists k.
  split; [exact HC|].
  apply (passed_candidates_reserved _ _ _ _ _ _ _ _ Hst).
Qed.

Lemma exhaustion_means_all_reserved_witness :
  EmptyString = EmptyString
  /\ exists k,
       Contains (mkIPNet [10; 0; 0; 0] [255; 255; 255; 254])
         (increments k (incrementIP [10; 0; 0; 0])) = false
       /\ forall j, (j < k)%nat ->
            Contains (mkIPNet [10; 0; 0; 0] [255; 255; 255; 254])
              (increments j (incrementIP [10; 0; 0; 0])) = true
            /\ no_fault j = false
            /\ isIPReserved false
                 (IP_String (increments j (incrementIP [10; 0; 0; 0])))
                 "10.0.0.0/31" "t"
                 (mkDB [mkRow 1 "10.0.0.0/31" "t" "10.0.0.1" "p"] 1) = true.
Proof.
  apply (exhaustion_means_all_reserved 3 no_fault "10.0.0.0/31" "t"
           (IPv4 10 0 0 0) (mkIPNet [10; 0; 0; 0] [255; 255; 255; 254])
           (mkDB [mkRow 1 "10.0.0.0/31" "t" "10.0.0.1" "p"] 1) EmptyString).
  - reflexivity.
  - reflexivity.
Defined.

(** X21.  A reservation made with the empty tenant does not take an
    address that any tenant holds under the same cidr string, provided
    one of the two queries about that address goes through, the one of
    the re-check or the one of the scan: when the reservation succeeds,
    no row of the store before the call has that cidr and the returned
    address. *)
Theorem empty_tenant_reservation_is_fresh (fuel : nat) (qfault : nat -> bool)
  (rfault fault : bool) (cidr purpose : string) (db db' : DB) (s : string)
  (ok : bool) :
  rfault = false \/ (forall i, qfault i = false) ->
  reserveIP fuel qfault rfault fault cidr EmptyString purpose db
  = Some (s, ok, None, db') ->
  forall r, In r (ips db) ->
            ~ (row_cidr r = cidr /\ row_ip_address r = s).
Proof.
  intros Hq H r Hin [Hc Hi].
  pose proof (reserved_was_free _ _ _ _ _ _ _ _ _ _ _ H Hq) as Hfree.
  rewrite (isIPReserved_of_row s cidr EmptyString db r) in Hfree; auto.
  discriminate.
Qed.

Lemma empty_tenant_reservation_is_fresh_witness :
  ~ (row_cidr (mkRow 1 "10.0.0.0/24" "tenant-a" "10.0.0.1" "p")
     = "10.0.0.0/24"%string
     /\ row_ip_address (mkRow 1 "10.0.0.0/24" "tenant-a" "10.0.0.1" "p")
        = "10.0.0.2"%string).
Proof.
  apply (empty_tenant_reservation_is_fresh 3 no_fault
           true false "10.0.0.0/24" "q"
           (mkDB [mkRow 1 "10.0.0.0/24" "tenant-a" "10.0.0.1" "p"] 1)
           (mkDB [mkRow 1 "10.0.0.0/24" "tenant-a" "10.0.0.1" "p";
                  mkRow 2 "10.0.0.0/24" "" "10.0.0.2" "q"] 2)
           "10.0.0.2" true).
  - right. intro i. reflexivity.
  - reflexivity.
  - left. reflexivity.
Defined.

(** when both queries about an address fail, the empty tenant is given
    an address that another tenant holds under the same cidr *)
Example empty_tenant_after_two_failed_queries :
  let db := mkDB [mkRow 1 "10.0.0.0/24" "tenant-a" "10.0.0.1" "p"] 1 in
  reserveIP 3 (fun i => Nat.eqb i 0) true false "10.0.0.0/24" "" "q" db
  = Some ("10.0.0.1"%string, true, None,
          mkDB [mkRow 1 "10.0.0.0/24" "tenant-a" "10.0.0.1" "p";
                mkRow 2 "10.0.0.0/24" "" "10.0.0.1" "q"] 2).
Proof. reflexivity. Qed.

(** ** A create of the provider that fails *)



(** calls of the provider that fail: a store that fails shows as status
    500, a transport that fails as its own error; a create or a delete
    whose response is lost has taken effect on the store all the same *)
Example provider_calls_that_fail :
  let d0 := provider.mkResourceData "10.0.0.0/24" "t" "host" "" "" in
  let d := provider.mkResourceData "10.0.0.0/24" "t" "host"
             "10.0.0.1" "10.0.0.1" in
  let db := mkDB [mkRow 1 "10.0.0.0/24" "t" "10.0.0.1" "host"] 1 in
  provider.resourceIPRead QueryFails (fun l => l) provider.Delivered d db
  = Some (provider.FetchFailed (provider.StatusCode 500))
  /\ provider.resourceIPRead QueryOK (fun l => l) provider.RequestLost d db
     = Some (provider.FetchFailed provider.TransportError)
  /\ provider.resourceIPRead QueryOK (fun l => l) provider.BodyLost d db
     = Some (provider.FetchFailed provider.BodyError)
  /\ provider.resourceIPRead (RowsEndEarly 0) (fun l => l)
       provider.Delivered d db
     = Some (provider.NotInSubnet "10.0.0.1" "10.0.0.0/24")
  /\ provider.resourceIPDelete true provider.Delivered d db
     = (Some (provider.ReleaseFailed (provider.StatusCode 500)), db)
  /\ provider.resourceIPDelete false provider.ResponseLost d db
     = (Some (provider.ReleaseFailed provider.TransportError), mkDB [] 1)
  /\ provider.resourceIPCreate 3 no_fault false false provider.BodyLost
       d0 empty_db
     = Some (d0, Some (provider.ReserveFailed provider.BodyError), db)
  /\ provider.resourceIPCreate 3 no_fault false true provider.Delivered
       d0 empty_db
     = Some (d0, Some (provider.ReserveFailed (provider.StatusCode 500)),
             empty_db).
Proof. cbv zeta. repeat split; reflexivity. Qed.
